(** * SSH session server: a shallow embedding of the session engine

    The development follows the TypeScript sources of the server:
    - [utils/validation.ts]          command validation ([sanitizeCommand]);
    - [services/session-registry.ts] the session registry;
    - [services/ssh-client.ts]       the transport session ([SshClient]);
    - [services/sftp-client.ts]      the transfer channel ([SftpClient]);
    - [tools/ssh-tools.ts]           the orchestrator ([SshToolHandlers]).

    JavaScript strings are sequences of UTF-16 code units, buffers are
    sequences of octets, numbers that the code only uses as integers are
    [Z].  An ES [Map] that the code iterates is an insertion-ordered
    association list ([JsMap]); the two maps that are only read and written
    by key are [gmap]s.  Whatever the outside world decides (what the remote
    end sends, whether a [close] throws, which identifier [randomUUID]
    draws, what the clock shows) enters every operation as an explicit
    argument, so that each theorem quantifies over all such behaviours. *)

From Stdlib Require Import ZArith List Bool Ascii String Lia Permutation Sorted.
From stdpp Require Import base tactics option list gmap strings pretty.
Import ListNotations.

Local Open Scope Z_scope.

(** ** JavaScript strings *)

Module Js.

(** A UTF-16 code unit, [0 <= c < 65536]. *)
Definition code_unit := Z.

Definition jsstring := list code_unit.

(** [s.length] *)
Definition length (s : jsstring) : Z := Z.of_nat (List.length s).

(** A literal of the source text. *)
Definition lit (s : string) : jsstring :=
  map (fun a => Z.of_N (N_of_ascii a)) (list_ascii_of_string s).

(** A number in a template literal. *)
Definition of_number (n : Z) : jsstring := lit (pretty n).

(** [s.slice(0, n)] for a number [n]: a negative [n] counts from the end. *)
Definition slice0 (s : jsstring) (n : Z) : jsstring :=
  if n <? 0 then firstn (Z.to_nat (Z.max 0 (length s + n))) s
  else firstn (Z.to_nat n) s.

(** WhiteSpace and LineTerminator code points of ECMAScript, the ones
    [String.prototype.trim] strips. *)
Definition is_white_space (c : code_unit) : bool :=
  (c =? 0x0009) || (c =? 0x000A) || (c =? 0x000B) || (c =? 0x000C) ||
  (c =? 0x000D) || (c =? 0x0020) || (c =? 0x00A0) || (c =? 0x1680) ||
  ((0x2000 <=? c) && (c <=? 0x200A)) ||
  (c =? 0x2028) || (c =? 0x2029) || (c =? 0x202F) || (c =? 0x205F) ||
  (c =? 0x3000) || (c =? 0xFEFF).

Fixpoint trimStart (s : jsstring) : jsstring :=
  match s with
  | [] => []
  | c :: rest => if is_white_space c then trimStart rest else s
  end.

Definition trimEnd (s : jsstring) : jsstring := rev (trimStart (rev s)).

(** [s.trim()] *)
Definition trim (s : jsstring) : jsstring := trimEnd (trimStart s).

(** [s.includes(needle)] *)
Fixpoint starts_with (needle s : jsstring) : bool :=
  match needle, s with
  | [], _ => true
  | _ :: _, [] => false
  | a :: needle', b :: s' => (a =? b) && starts_with needle' s'
  end.

Fixpoint includes (needle s : jsstring) : bool :=
  starts_with needle s ||
  match s with
  | [] => false
  | _ :: s' => includes needle s'
  end.

(** [!s]: the empty string is the one falsy string. *)
Definition falsy (s : jsstring) : bool :=
  match s with [] => true | _ :: _ => false end.

(** [!s] for an optional property: [undefined] is falsy too. *)
Definition absent (s : option jsstring) : bool :=
  match s with None => true | Some s => falsy s end.

(** A value that reaches a function typed [string]; the TypeScript type
    is erased at run time, which is why the source re-checks it. *)
Inductive value :=
| VString (s : jsstring)
| VOther.

End Js.

Abbreviation jsstring := Js.jsstring.

(** ** Errors and results *)

(** One issue of a schema validation failure: where and what. *)
Record zod_issue := ZodIssue {
  issue_path : string;
  issue_message : string
}.

Inductive js_error :=
| Error (message : jsstring)
| ZodError (issues : list zod_issue).

(** What [err.message] reads.  A schema error renders its issues; every
    path and message of an issue occurs in the rendering.  The text that
    zod makes of the issues is laid out otherwise; the statements read of
    it only which paths and messages occur in it. *)
Definition error_message (e : js_error) : jsstring :=
  match e with
  | Error m => m
  | ZodError issues =>
      concat (map (fun i => Js.lit (issue_path i) ++ Js.lit ": "
                            ++ Js.lit (issue_message i) ++ Js.lit "; ") issues)
  end.

(** A call that either throws (rejects) or returns (resolves). *)
Abbreviation result A := (sum js_error A).

(** ** Constants ([constants.ts]) *)

(** Modelled from the spec: [constants.ts] is not among the sources; the
    spec and the README give the per-stream output budget as 25 000
    characters. *)
Definition CHARACTER_LIMIT : Z := 25000.

(** Modelled from the spec: [constants.ts] is not among the sources; the
    spec and the README give the command length limit as 1 000 characters. *)
Definition COMMAND_MAX_CHARS : Z := 1000.

(** ** Command validation ([utils/validation.ts]) *)

Definition sanitizeCommand (command : Js.value) : result jsstring :=
  match command with
  | Js.VOther => inl (Error (Js.lit "command must be a string"))
  | Js.VString command =>
      let trimmed := Js.trim command in
      if Js.falsy trimmed then
        inl (Error (Js.lit "command cannot be empty"))
      else if Js.length trimmed >? COMMAND_MAX_CHARS then
        inl (Error (Js.lit "command exceeds " ++ Js.of_number COMMAND_MAX_CHARS
                    ++ Js.lit " characters"))
      else inr trimmed
  end.

(** ** ES [Map] with string keys, in insertion order *)

Module JsMap.
Section WithValues.
Context {V : Type}.

Definition t := list (jsstring * V).

Definition empty : t := [].

(** [m.get(k)] *)
Fixpoint get (m : t) (k : jsstring) : option V :=
  match m with
  | [] => None
  | (k', v) :: m' => if decide (k' = k) then Some v else get m' k
  end.

(** [m.set(k, v)]: a present key keeps its place, a new one goes last. *)
Fixpoint set (m : t) (k : jsstring) (v : V) : t :=
  match m with
  | [] => [(k, v)]
  | (k', v') :: m' =>
      if decide (k' = k) then (k', v) :: m' else (k', v') :: set m' k v
  end.

(** [m.delete(k)] *)
Fixpoint delete (m : t) (k : jsstring) : t :=
  match m with
  | [] => []
  | (k', v) :: m' =>
      if decide (k' = k) then delete m' k else (k', v) :: delete m' k
  end.

(** [m.values()], in insertion order *)
Definition values (m : t) : list V := map snd m.

Definition keys (m : t) : list jsstring := map fst m.

(** [m.size] *)
Definition size (m : t) : Z := Z.of_nat (List.length m).

End WithValues.

Arguments t : clear implicits.
End JsMap.

(** ** The session registry ([services/session-registry.ts]) *)

(** The identity of an [ssh2] [Client] object. *)
Definition handle := Z.

(** A [Date], as milliseconds since the epoch. *)
Definition Date := Z.

(** The text [d.toISOString()] of an instant: the rendering is one-to-one,
    so the instant stands for it. *)
Inductive iso_string := ISO (instant : Date).

Definition toISOString (d : Date) : iso_string := ISO d.

Record SessionRecord := mkSessionRecord {
  sessionId : jsstring;
  rec_host : jsstring;
  rec_port : Z;
  rec_username : jsstring;
  rec_client : handle;
  createdAt : Date;
  lastUsedAt : option Date
}.

Record CreateSessionParams := mkCreateSessionParams {
  csp_host : jsstring;
  csp_port : Z;
  csp_username : jsstring;
  csp_client : handle
}.

(** [SessionInfo] of [types.ts]: the public view, without the client. *)
Record SessionInfo := mkSessionInfo {
  info_sessionId : jsstring;
  info_host : jsstring;
  info_port : Z;
  info_username : jsstring;
  info_createdAt : iso_string;
  info_lastUsedAt : option iso_string
}.

Module SessionRegistry.

(** The private field [sessions]. *)
Definition t := JsMap.t SessionRecord.

Definition new : t := JsMap.empty.

(** [uuid] is what [randomUUID()] draws and [now] what [new Date()] reads. *)
Definition createSession (uuid : jsstring) (now : Date)
    (params : CreateSessionParams) (r : t) : SessionRecord * t :=
  let record := {|
    sessionId := uuid;
    rec_host := csp_host params;
    rec_port := csp_port params;
    rec_username := csp_username params;
    rec_client := csp_client params;
    createdAt := now;
    lastUsedAt := None
  |} in
  (record, JsMap.set r uuid record).

Definition getSession (id : jsstring) (r : t) : option SessionRecord :=
  JsMap.get r id.

Definition listSessions (r : t) : list SessionInfo :=
  map (fun record => {|
         info_sessionId := sessionId record;
         info_host := rec_host record;
         info_port := rec_port record;
         info_username := rec_username record;
         info_createdAt := toISOString (createdAt record);
         info_lastUsedAt := toISOString <$> lastUsedAt record
       |}) (JsMap.values r).

Definition removeSession (id : jsstring) (r : t) : option SessionRecord * t :=
  let record := JsMap.get r id in
  match record with
  | Some _ => (record, JsMap.delete r id)
  | None => (record, r)
  end.

(** The record is an object held by the map: assigning its field updates
    the entry in place. *)
Definition touchSession (id : jsstring) (now : Date) (r : t) : t :=
  match JsMap.get r id with
  | Some record =>
      JsMap.set r id {|
        sessionId := sessionId record;
        rec_host := rec_host record;
        rec_port := rec_port record;
        rec_username := rec_username record;
        rec_client := rec_client record;
        createdAt := createdAt record;
        lastUsedAt := Some now
      |}
  | None => r
  end.

Definition clear (r : t) : t := JsMap.empty.

Definition size (r : t) : Z := JsMap.size r.

End SessionRegistry.

(** ** Promises *)

(** How an awaited call ends: the promise resolves, rejects, or never
    settles (the event it waits for does not come). *)
Inductive outcome (A : Type) :=
| Resolved (a : A)
| Rejected (e : js_error)
| Pending.

Arguments Resolved {A} a.
Arguments Rejected {A} e.
Arguments Pending {A}.

Definition of_result {A} (r : result A) : outcome A :=
  match r with
  | inl e => Rejected e
  | inr a => Resolved a
  end.

Inductive key_material :=
| KeyString (s : jsstring)
| KeyBuffer (octets : list Z).

(** [ConnectConfig] of [ssh2], the fields the code sets. *)
Record ConnectConfig := mkConnectConfig {
  cc_host : jsstring;
  cc_port : Z;
  cc_username : jsstring;
  readyTimeout : Z;
  cc_password : option jsstring;
  cc_privateKey : option key_material;
  cc_passphrase : option jsstring
}.

(** What the code asks of the transport, in the order it asks: the trace
    against which "before any network activity" is read. *)
Inductive wire_event :=
| WConnect (c : handle) (cfg : ConnectConfig) (timer : Z)
| WEnd (c : handle)
| WExec (c : handle) (command : jsstring) (timer : Z)
| WSftpOpen (c : handle)
| WSftpEnd (c : handle).

(** ** The transport session ([services/ssh-client.ts]) *)

Record SshClientConfig := mkSshClientConfig {
  cfg_host : jsstring;
  cfg_port : Z;
  cfg_username : jsstring;
  cfg_password : option jsstring;
  cfg_privateKey : option key_material;
  cfg_privateKeyPath : option jsstring;
  cfg_passphrase : option jsstring;
  cfg_timeout : option Z;
  cfg_connectTimeout : option Z
}.

Definition DEFAULT_EXEC_TIMEOUT : Z := 30000.
Definition DEFAULT_CONNECT_TIMEOUT : Z := 10000.

(** [ExecResult] of [types.ts]. *)
Record ExecResult := mkExecResult {
  stdout : jsstring;
  stderr : jsstring;
  exitCode : option Z;
  truncated : bool
}.

(** What follows [client.connect(connectConfig)], raced against the timer. *)
Inductive handshake_reply :=
| Ready
| ConnectionError (message : jsstring)
| TimerFirst
| ConnectThrows (e : js_error).

(** What a channel emits, and the execution timer firing among it. *)
Inductive channel_event :=
| StdoutData (chunk : jsstring)
| StderrData (chunk : jsstring)
| Exit (code : option Z)
| Close
| ChannelError (message : jsstring)
| Timer.

(** What follows [client.exec(command, callback)]. *)
Inductive exec_reply :=
| ExecFails (message : jsstring)
| ExecChannel (events : list channel_event).

(** What follows [client.end()] in [close]. *)
Inductive close_reply :=
| Closes
| EndThrows (e : js_error)
| NeverCloses.

Module SshClient.

Record t := mk {
  client : handle;
  config : SshClientConfig;
  connected : bool
}.

(** [new SshClient(config)]; [c] is the [Client] the constructor makes. *)
Definition new (c : handle) (config : SshClientConfig) : t :=
  {| client := c; config := config; connected := false |}.

Definition set_connected (b : bool) (s : t) : t :=
  {| client := client s; config := config s; connected := b |}.

(** [a ?? b] *)
Definition nullish (a : option Z) (b : Z) : Z := default b a.

Definition truthy_key (k : option key_material) : bool :=
  match k with
  | Some (KeyString s) => negb (Js.falsy s)
  | Some (KeyBuffer _) => true
  | None => false
  end.

(** The [ConnectConfig] that [connect] prepares; reading the key file can
    throw. *)
Definition connectConfig (readFileSync : jsstring -> result (list Z))
    (cfg : SshClientConfig) (connectTimeout : Z) : result ConnectConfig :=
  let password :=
    if Js.absent (cfg_password cfg) then None else cfg_password cfg in
  let passphrase :=
    if Js.absent (cfg_passphrase cfg) then None else cfg_passphrase cfg in
  let make key pass := {|
    cc_host := cfg_host cfg;
    cc_port := cfg_port cfg;
    cc_username := cfg_username cfg;
    readyTimeout := connectTimeout;
    cc_password := password;
    cc_privateKey := key;
    cc_passphrase := pass
  |} in
  if truthy_key (cfg_privateKey cfg) then
    inr (make (cfg_privateKey cfg) passphrase)
  else if Js.absent (cfg_privateKeyPath cfg) then
    inr (make None None)
  else
    match readFileSync (default [] (cfg_privateKeyPath cfg)) with
    | inr octets => inr (make (Some (KeyBuffer octets)) passphrase)
    | inl err =>
        inl (Error (Js.lit "Failed to read private key: " ++ error_message err))
    end.

(** The trace ends where the promise settles: the timer that stays armed
    when [client.connect] throws, and asks the transport to end when it
    fires later, is not in it. *)
Definition connect (readFileSync : jsstring -> result (list Z))
    (handshake : ConnectConfig -> Z -> handshake_reply) (s : t)
    : outcome unit * t * list wire_event :=
  let connectTimeout :=
    nullish (cfg_connectTimeout (config s)) DEFAULT_CONNECT_TIMEOUT in
  match connectConfig readFileSync (config s) connectTimeout with
  | inl e => (Rejected e, s, [])
  | inr cc =>
      let asked := WConnect (client s) cc connectTimeout in
      match handshake cc connectTimeout with
      | Ready => (Resolved tt, set_connected true s, [asked])
      | ConnectionError message =>
          (Rejected (Error (Js.lit "SSH connection error: " ++ message)),
           set_connected false s, [asked])
      | TimerFirst =>
          (Rejected (Error (Js.lit "Connection timeout after "
                            ++ Js.of_number connectTimeout ++ Js.lit "ms")),
           s, [asked; WEnd (client s)])
      | ConnectThrows e => (Rejected e, s, [asked])
      end
  end.

(** *** [execCommand] *)

(** The variables the promise executor closes over, the timer, and the
    promise itself ([settled]: the first [resolve] or [reject] wins). *)
Record exec_state := mkExecState {
  st_stdout : jsstring;
  st_stderr : jsstring;
  st_exitCode : option Z;
  st_truncated : bool;
  st_timedOut : bool;
  st_timer : bool;
  st_settled : option (result ExecResult)
}.

Definition exec_start : exec_state := {|
  st_stdout := [];
  st_stderr := [];
  st_exitCode := None;
  st_truncated := false;
  st_timedOut := false;
  st_timer := true;
  st_settled := None
|}.

Definition settle (r : result ExecResult) (st : exec_state) : exec_state := {|
  st_stdout := st_stdout st;
  st_stderr := st_stderr st;
  st_exitCode := st_exitCode st;
  st_truncated := st_truncated st;
  st_timedOut := st_timedOut st;
  st_timer := st_timer st;
  st_settled := match st_settled st with Some r0 => Some r0 | None => Some r end
|}.

Definition clearTimeout (st : exec_state) : exec_state := {|
  st_stdout := st_stdout st;
  st_stderr := st_stderr st;
  st_exitCode := st_exitCode st;
  st_truncated := st_truncated st;
  st_timedOut := st_timedOut st;
  st_timer := false;
  st_settled := st_settled st
|}.

(** The body shared by the two [data] listeners: the text captured so far
    and a chunk give the new text and whether the chunk overflowed. *)
Definition capture (captured chunk : jsstring) : jsstring * bool :=
  if Js.length captured + Js.length chunk >? CHARACTER_LIMIT then
    (captured ++ Js.slice0 chunk (CHARACTER_LIMIT - Js.length captured), true)
  else (captured ++ chunk, false).

Definition on_event (execTimeout : Z) (ev : channel_event) (st : exec_state)
    : exec_state :=
  match ev with
  | Timer =>
      if st_timer st then
        settle (inl (Error (Js.lit "Command execution timeout after "
                            ++ Js.of_number execTimeout ++ Js.lit "ms")))
          {| st_stdout := st_stdout st;
             st_stderr := st_stderr st;
             st_exitCode := st_exitCode st;
             st_truncated := st_truncated st;
             st_timedOut := true;
             st_timer := false;
             st_settled := st_settled st |}
      else st
  | StdoutData chunk =>
      if st_timedOut st then st
      else
        let (text, overflow) := capture (st_stdout st) chunk in
        {| st_stdout := text;
           st_stderr := st_stderr st;
           st_exitCode := st_exitCode st;
           st_truncated := overflow || st_truncated st;
           st_timedOut := st_timedOut st;
           st_timer := st_timer st;
           st_settled := st_settled st |}
  | StderrData chunk =>
      if st_timedOut st then st
      else
        let (text, overflow) := capture (st_stderr st) chunk in
        {| st_stdout := st_stdout st;
           st_stderr := text;
           st_exitCode := st_exitCode st;
           st_truncated := overflow || st_truncated st;
           st_timedOut := st_timedOut st;
           st_timer := st_timer st;
           st_settled := st_settled st |}
  | Exit code =>
      {| st_stdout := st_stdout st;
         st_stderr := st_stderr st;
         st_exitCode := code;
         st_truncated := st_truncated st;
         st_timedOut := st_timedOut st;
         st_timer := st_timer st;
         st_settled := st_settled st |}
  | Close =>
      if st_timedOut st then st
      else
        settle (inr {| stdout := st_stdout st;
                       stderr := st_stderr st;
                       exitCode := st_exitCode st;
                       truncated := st_truncated st |})
          (clearTimeout st)
  | ChannelError message =>
      if st_timedOut st then st
      else
        settle (inl (Error (Js.lit "Channel error: " ++ message)))
          (clearTimeout st)
  end.

Definition run_events (execTimeout : Z) (events : list channel_event)
    (st : exec_state) : exec_state :=
  foldl (fun st ev => on_event execTimeout ev st) st events.

Definition execCommand (reply : exec_reply) (command : jsstring) (s : t)
    : outcome ExecResult * list wire_event :=
  if negb (connected s) then (Rejected (Error (Js.lit "Not connected")), [])
  else
    let execTimeout := nullish (cfg_timeout (config s)) DEFAULT_EXEC_TIMEOUT in
    let asked := [WExec (client s) command execTimeout] in
    match reply with
    | ExecFails message =>
        (Rejected (Error (Js.lit "Failed to execute command: " ++ message)),
         asked)
    | ExecChannel events =>
        (match st_settled (run_events execTimeout events exec_start) with
         | Some r => of_result r
         | None => Pending
         end, asked)
    end.

Definition isConnected (s : t) : bool := connected s.

Definition getClient (s : t) : handle := client s.

Definition close (reply : close_reply) (s : t)
    : outcome unit * t * list wire_event :=
  if negb (connected s) then (Resolved tt, s, [])
  else
    match reply with
    | Closes => (Resolved tt, set_connected false s, [WEnd (client s)])
    | EndThrows e => (Rejected e, s, [WEnd (client s)])
    | NeverCloses => (Pending, s, [WEnd (client s)])
    end.

End SshClient.

(** ** UTF-8, as [Buffer.from(s, "utf-8")] and [buf.toString("utf-8")] *)

Module Utf8.

Definition is_high (c : Z) : bool := (0xD800 <=? c) && (c <=? 0xDBFF).
Definition is_low (c : Z) : bool := (0xDC00 <=? c) && (c <=? 0xDFFF).

(** U+FFFD, which stands in for whatever cannot be encoded or decoded. *)
Definition replacement : Z := 0xFFFD.

(** The octets of one code point. *)
Definition encode_scalar (cp : Z) : list Z :=
  if cp <? 0x80 then [cp]
  else if cp <? 0x800 then [0xC0 + cp / 64; 0x80 + cp mod 64]
  else if cp <? 0x10000 then
    [0xE0 + cp / 4096; 0x80 + (cp / 64) mod 64; 0x80 + cp mod 64]
  else
    [0xF0 + cp / 262144; 0x80 + (cp / 4096) mod 64;
     0x80 + (cp / 64) mod 64; 0x80 + cp mod 64].

(** A surrogate pair is one code point; a surrogate on its own is encoded
    as U+FFFD. *)
Fixpoint encode (s : jsstring) : list Z :=
  match s with
  | [] => []
  | c :: rest =>
      if is_high c then
        match rest with
        | d :: rest' =>
            if is_low d then
              encode_scalar (0x10000 + (c - 0xD800) * 1024 + (d - 0xDC00))
              ++ encode rest'
            else encode_scalar replacement ++ encode rest
        | [] => encode_scalar replacement
        end
      else if is_low c then encode_scalar replacement ++ encode rest
      else encode_scalar c ++ encode rest
  end.

(** The decoder is between code points, or inside one: the bits read so
    far, how many continuation octets are still due, and the range the next
    one must lie in. *)
Inductive progress :=
| Idle
| Partial (cp remaining lower upper : Z).

(** An octet met between code points. *)
Definition start (b : Z) : list Z * progress :=
  if b <=? 0x7F then ([b], Idle)
  else if (0xC2 <=? b) && (b <=? 0xDF) then
    ([], Partial (b - 0xC0) 1 0x80 0xBF)
  else if (0xE0 <=? b) && (b <=? 0xEF) then
    ([], Partial (b - 0xE0) 2
           (if b =? 0xE0 then 0xA0 else 0x80)
           (if b =? 0xED then 0x9F else 0xBF))
  else if (0xF0 <=? b) && (b <=? 0xF4) then
    ([], Partial (b - 0xF0) 3
           (if b =? 0xF0 then 0x90 else 0x80)
           (if b =? 0xF4 then 0x8F else 0xBF))
  else ([replacement], Idle).

(** The code points of an octet sequence.  An octet that cannot continue
    the current code point ends it with U+FFFD and is read again as a
    first octet; so does the end of the input. *)
Fixpoint scalars (p : progress) (octets : list Z) : list Z :=
  match octets with
  | [] =>
      match p with
      | Idle => []
      | Partial _ _ _ _ => [replacement]
      end
  | b :: rest =>
      match p with
      | Idle => let (out, p') := start b in out ++ scalars p' rest
      | Partial cp remaining lower upper =>
          if (lower <=? b) && (b <=? upper) then
            let cp' := cp * 64 + (b - 0x80) in
            if remaining =? 1 then cp' :: scalars Idle rest
            else scalars (Partial cp' (remaining - 1) 0x80 0xBF) rest
          else
            replacement :: (let (out, p') := start b in out ++ scalars p' rest)
      end
  end.

(** The code units of one code point. *)
Definition to_utf16 (cp : Z) : jsstring :=
  if cp <? 0x10000 then [cp]
  else [0xD800 + (cp - 0x10000) / 1024; 0xDC00 + (cp - 0x10000) mod 1024].

Definition decode (octets : list Z) : jsstring :=
  flat_map to_utf16 (scalars Idle octets).

(** Strings whose code units are in range and whose surrogates come in
    pairs: the ones UTF-8 can carry. *)
Fixpoint well_formed (s : jsstring) : bool :=
  match s with
  | [] => true
  | c :: rest =>
      if is_high c then
        match rest with
        | d :: rest' => is_low d && well_formed rest'
        | [] => false
        end
      else (0 <=? c) && (c <=? 0xFFFF) && negb (is_low c) && well_formed rest
  end.

End Utf8.

(** ** Numbers as 32-bit integers, and [Array.prototype.sort] *)

(** [ToInt32], which the bitwise operators apply to their operands. *)
Definition toInt32 (x : Z) : Z := (x + 2 ^ 31) mod 2 ^ 32 - 2 ^ 31.

(** [a & b] *)
Definition js_and (a b : Z) : Z := Z.land (toInt32 a) (toInt32 b).

(** [a >> n] *)
Definition js_shr (a n : Z) : Z := Z.shiftr (toInt32 a) (n mod 32).

Section Sort.
Context {A : Type} (compare : A -> A -> Z).

(** [x] stood before every element of [sorted]; it stays before the ones it
    does not compare greater than. *)
Fixpoint insert_sorted (x : A) (sorted : list A) : list A :=
  match sorted with
  | [] => [x]
  | y :: rest =>
      if compare x y >? 0 then y :: insert_sorted x rest else x :: sorted
  end.

(** [l.sort(compare)]: the sort is stable, and for a consistent comparator
    its result does not depend on the algorithm. *)
Definition js_sort (l : list A) : list A := foldr insert_sorted [] l.

End Sort.

(** ** The transfer channel ([services/sftp-client.ts]) *)

(** What a callback of the file protocol is called with, if it is. *)
Inductive reply (A : Type) :=
| Answers (a : A)
| Fails (message : jsstring)
| Silent.

Arguments Answers {A} a.
Arguments Fails {A} message.
Arguments Silent {A}.

(** The attributes of a file as the protocol carries them: [mode], [uid],
    [gid] and the two times are unsigned numbers of 32 bits, so that the
    [Date] made of [mtime] seconds is a valid one and has an ISO text. *)
Record Attrs := mkAttrs {
  mode : Z;
  uid : Z;
  gid : Z;
  size : Z;
  atime : Z;
  mtime : Z
}.

(** An item of [readdir]'s list. *)
Record DirEntry := mkDirEntry {
  entry_filename : jsstring;
  entry_longname : jsstring;
  entry_attrs : Attrs
}.

Record FileInfo := mkFileInfo {
  filename : jsstring;
  longname : jsstring;
  attrs : Attrs;
  isDirectory : bool;
  isFile : bool;
  permissions : jsstring;
  owner : Z;
  group : Z;
  file_size : Z;
  modifyTime : iso_string
}.

Record ListResult := mkListResult {
  list_path : jsstring;
  files : list FileInfo;
  count : Z
}.

Record ReadFileResult := mkReadFileResult {
  read_path : jsstring;
  content : jsstring;
  read_size : Z;
  read_truncated : bool
}.

Record WriteFileResult := mkWriteFileResult {
  write_success : bool;
  write_path : jsstring;
  write_size : Z;
  write_message : jsstring
}.

Record DeleteResult := mkDeleteResult {
  delete_success : bool;
  delete_path : jsstring;
  delete_message : jsstring
}.

Record TransferResult := mkTransferResult {
  transfer_success : bool;
  transfer_localPath : jsstring;
  transfer_remotePath : jsstring;
  transfer_size : Z;
  transfer_message : jsstring
}.

Definition modeToPermissions (mode : Z) : jsstring :=
  let perms := map Js.lit
    ["---"; "--x"; "-w-"; "-wx"; "r--"; "r-x"; "rw-"; "rwx"]%string in
  let owner := js_and (js_shr mode 6) 7 in
  let group := js_and (js_shr mode 3) 7 in
  let other := js_and mode 7 in
  nth (Z.to_nat owner) perms [] ++ nth (Z.to_nat group) perms []
  ++ nth (Z.to_nat other) perms [].

(** The files of the remote end, as far as a write and a later read of the
    same session see them: what a path holds, and the attributes [stat]
    reports besides the size. *)
Module Server.

Record file := mkFile {
  f_mode : Z;
  f_uid : Z;
  f_gid : Z;
  f_atime : Z;
  f_mtime : Z;
  f_data : list Z
}.

Abbreviation t := (gmap jsstring file).

(** [sftp.stat(path, callback)] *)
Definition stat (path : jsstring) (srv : t) : reply Attrs :=
  match srv !! path with
  | Some f =>
      Answers {| mode := f_mode f; uid := f_uid f; gid := f_gid f;
                 size := Z.of_nat (List.length (f_data f));
                 atime := f_atime f; mtime := f_mtime f |}
  | None => Fails (Js.lit "No such file")
  end.

(** What a read stream does: the constructor throws, or the stream emits
    [data] chunks and then [end], or it emits [error]. *)
Inductive read_reply :=
| ReadThrows (e : js_error)
| ReadEnds (chunks : list (list Z))
| ReadFails (message : jsstring).

(** [sftp.createReadStream(path, { start, end })]: the octets at offsets
    [start] to [end], both included.  The stream's constructor throws on
    an [end] below [start] and on a negative [start]; the wording of the
    two errors is the library's, and only that it throws is read. *)
Definition createReadStream (path : jsstring) (start end_ : Z) (srv : t)
    : read_reply :=
  if start >? end_ then ReadThrows (Error (Js.lit "start must be <= end"))
  else if start <? 0 then ReadThrows (Error (Js.lit "start must be >= zero"))
  else
    match srv !! path with
    | Some f =>
        ReadEnds [firstn (Z.to_nat (end_ + 1 - start))
                         (skipn (Z.to_nat start) (f_data f))]
    | None => ReadFails (Js.lit "No such file")
    end.

(** [sftp.createWriteStream(path).end(buffer)]: the path holds [buffer]
    afterwards; a file that was there keeps its other attributes, a new one
    is a regular file (mode 0o100644, that is 33188). *)
Definition createWriteStream (path : jsstring) (buffer : list Z) (srv : t)
    : reply unit * t :=
  let f :=
    match srv !! path with
    | Some f => {| f_mode := f_mode f; f_uid := f_uid f; f_gid := f_gid f;
                   f_atime := f_atime f; f_mtime := f_mtime f;
                   f_data := buffer |}
    | None => {| f_mode := 33188; f_uid := 0; f_gid := 0;
                 f_atime := 0; f_mtime := 0; f_data := buffer |}
    end in
  (Answers tt, <[path := f]> srv).

End Server.

(** The local files that [fs] sees, as far as an upload and a later
    download see them: what a path holds. *)
Module LocalFiles.

Abbreviation t := (gmap jsstring (list Z)).

(** [statSync(path).size]; a missing file throws. *)
Definition statSync (path : jsstring) (files : t) : result Z :=
  match files !! path with
  | Some data => inr (Z.of_nat (List.length data))
  | None => inl (Error (Js.lit "ENOENT: no such file or directory"))
  end.

End LocalFiles.

(** What the two streams of [source.pipe(sink)] do: the sink closes after
    it took everything, or one of the two emits [error], or neither event
    comes. *)
Inductive pipe_reply :=
| SinkCloses
| SinkFails (message : jsstring)
| SourceFails (message : jsstring)
| PipeStalls.

Module SftpClient.

(** [sftp] tells whether the field [this.sftp] holds a wrapper or [null]. *)
Record t := mk {
  client : handle;
  sftp : bool
}.

Definition new (c : handle) : t := {| client := c; sftp := false |}.

(** [client.sftp(callback)]: the callback is called with the wrapper or
    with an error, or it is not called.  A [client.sftp] that throws at
    once, as it does on a transport that is not connected, is not among
    the replies. *)
Definition init (opened : reply unit) (s : t)
    : outcome unit * t * list wire_event :=
  match opened with
  | Answers _ =>
      (Resolved tt, {| client := client s; sftp := true |},
       [WSftpOpen (client s)])
  | Fails message =>
      (Rejected (Error (Js.lit "Failed to initialize SFTP: " ++ message)), s,
       [WSftpOpen (client s)])
  | Silent => (Pending, s, [WSftpOpen (client s)])
  end.

Definition ensureSftp (s : t) : result unit :=
  if sftp s then inr tt
  else inl (Error (Js.lit "SFTP not initialized. Call init() first.")).

(** The element [list.map] makes of an item. *)
Definition fileInfo (item : DirEntry) : FileInfo :=
  let isDirectory := negb (js_and (mode (entry_attrs item)) 16384 =? 0) in
  let isFile := negb (js_and (mode (entry_attrs item)) 32768 =? 0) in
  {| filename := entry_filename item;
     longname := entry_longname item;
     attrs := entry_attrs item;
     isDirectory := isDirectory;
     isFile := isFile;
     permissions := modeToPermissions (mode (entry_attrs item));
     owner := uid (entry_attrs item);
     group := gid (entry_attrs item);
     file_size := size (entry_attrs item);
     modifyTime := toISOString (mtime (entry_attrs item) * 1000) |}.

(** The comparator handed to [files.sort]; [localeCompare] is the host's
    [String.prototype.localeCompare]. *)
Definition compareFiles (localeCompare : jsstring -> jsstring -> Z)
    (a b : FileInfo) : Z :=
  if isDirectory a && negb (isDirectory b) then -1
  else if negb (isDirectory a) && isDirectory b then 1
  else localeCompare (filename a) (filename b).

Definition listDirectory (localeCompare : jsstring -> jsstring -> Z)
    (readdir : reply (list DirEntry)) (remotePath : jsstring) (s : t)
    : outcome ListResult :=
  match ensureSftp s with
  | inl e => Rejected e
  | inr _ =>
      match readdir with
      | Fails message =>
          Rejected (Error (Js.lit "Failed to list directory: " ++ message))
      | Silent => Pending
      | Answers list =>
          let files := js_sort (compareFiles localeCompare) (map fileInfo list) in
          Resolved {| list_path := remotePath;
                      files := files;
                      count := Z.of_nat (List.length files) |}
      end
  end.

Definition stat_of (answer : reply Attrs) (s : t) : outcome Attrs :=
  match ensureSftp s with
  | inl e => Rejected e
  | inr _ =>
      match answer with
      | Fails message => Rejected (Error (Js.lit "Failed to stat: " ++ message))
      | Silent => Pending
      | Answers stats => Resolved stats
      end
  end.

Definition stat (remotePath : jsstring) (srv : Server.t) (s : t)
    : outcome Attrs :=
  stat_of (Server.stat remotePath srv) s.

Definition exists_ (remotePath : jsstring) (srv : Server.t) (s : t)
    : outcome bool :=
  match stat remotePath srv s with
  | Resolved _ => Resolved true
  | Rejected _ => Resolved false
  | Pending => Pending
  end.

Definition readFile (remotePath : jsstring) (maxSize : Z) (srv : Server.t)
    (s : t) : outcome ReadFileResult :=
  match ensureSftp s with
  | inl e => Rejected e
  | inr _ =>
      match stat remotePath srv s with
      | Rejected e => Rejected e
      | Pending => Pending
      | Resolved stats =>
          let truncated := size stats >? maxSize in
          match Server.createReadStream remotePath 0
                  (Z.min (size stats) maxSize - 1) srv with
          | Server.ReadThrows e => Rejected e
          | Server.ReadFails message =>
              Rejected (Error (Js.lit "Failed to read file: " ++ message))
          | Server.ReadEnds chunks =>
              Resolved {| read_path := remotePath;
                          content := Utf8.decode (concat chunks);
                          read_size := size stats;
                          read_truncated := truncated |}
          end
      end
  end.

Definition writeFile (remotePath content : jsstring) (srv : Server.t) (s : t)
    : outcome WriteFileResult * Server.t :=
  match ensureSftp s with
  | inl e => (Rejected e, srv)
  | inr _ =>
      let buffer := Utf8.encode content in
      let written := Z.of_nat (List.length buffer) in
      match Server.createWriteStream remotePath buffer srv with
      | (Answers _, srv') =>
          (Resolved {| write_success := true;
                       write_path := remotePath;
                       write_size := written;
                       write_message :=
                         Js.lit "Written " ++ Js.of_number written
                         ++ Js.lit " bytes to " ++ remotePath |}, srv')
      | (Fails message, srv') =>
          (Rejected (Error (Js.lit "Failed to write file: " ++ message)), srv')
      | (Silent, srv') => (Pending, srv')
      end
  end.

(** [uploadFile]: [basename] is the host's [path.basename].  A sink that
    closes has been written the octets that the local path holds. *)
Definition uploadFile (basename : jsstring -> jsstring) (piped : pipe_reply)
    (localPath remotePath : jsstring) (files : LocalFiles.t) (srv : Server.t)
    (s : t) : outcome TransferResult * Server.t :=
  match ensureSftp s with
  | inl e => (Rejected e, srv)
  | inr _ =>
      match LocalFiles.statSync localPath files with
      | inl _ =>
          (Rejected (Error (Js.lit "Local file not found: " ++ localPath)), srv)
      | inr fileSize =>
          match piped with
          | SinkCloses =>
              (Resolved {| transfer_success := true;
                           transfer_localPath := localPath;
                           transfer_remotePath := remotePath;
                           transfer_size := fileSize;
                           transfer_message :=
                             Js.lit "Uploaded " ++ basename localPath
                             ++ Js.lit " to " ++ remotePath ++ Js.lit " ("
                             ++ Js.of_number fileSize ++ Js.lit " bytes)" |},
               (Server.createWriteStream remotePath
                  (default [] (files !! localPath)) srv).2)
          | SinkFails message =>
              (Rejected (Error (Js.lit "Upload failed: " ++ message)), srv)
          | SourceFails message =>
              (Rejected (Error (Js.lit "Failed to read local file: "
                                ++ message)), srv)
          | PipeStalls => (Pending, srv)
          end
      end
  end.

(** [downloadFile]: a sink that closes has been written the octets that
    the remote path holds. *)
Definition downloadFile (basename : jsstring -> jsstring) (piped : pipe_reply)
    (remotePath localPath : jsstring) (files : LocalFiles.t) (srv : Server.t)
    (s : t) : outcome TransferResult * LocalFiles.t :=
  match ensureSftp s with
  | inl e => (Rejected e, files)
  | inr _ =>
      match stat remotePath srv s with
      | Rejected e => (Rejected e, files)
      | Pending => (Pending, files)
      | Resolved stats =>
          match piped with
          | SinkCloses =>
              (Resolved {| transfer_success := true;
                           transfer_localPath := localPath;
                           transfer_remotePath := remotePath;
                           transfer_size := size stats;
                           transfer_message :=
                             Js.lit "Downloaded " ++ basename remotePath
                             ++ Js.lit " to " ++ localPath ++ Js.lit " ("
                             ++ Js.of_number (size stats)
                             ++ Js.lit " bytes)" |},
               <[localPath := default [] (Server.f_data <$> srv !! remotePath)]>
                 files)
          | SinkFails message =>
              (Rejected (Error (Js.lit "Failed to write local file: "
                                ++ message)), files)
          | SourceFails message =>
              (Rejected (Error (Js.lit "Download failed: " ++ message)), files)
          | PipeStalls => (Pending, files)
          end
      end
  end.

(** [deleteFile], [deleteDirectory], [createDirectory] and [rename] differ
    in the request they send and in their two texts. *)
Definition request (failed succeeded : string) (answer : reply unit)
    (path detail : jsstring) (s : t) : outcome DeleteResult :=
  match ensureSftp s with
  | inl e => Rejected e
  | inr _ =>
      match answer with
      | Fails message => Rejected (Error (Js.lit failed ++ message))
      | Silent => Pending
      | Answers _ =>
          Resolved {| delete_success := true;
                      delete_path := path;
                      delete_message := Js.lit succeeded ++ detail |}
      end
  end.

Definition deleteFile (unlink : reply unit) (remotePath : jsstring) :=
  request "Failed to delete file: " "Deleted " unlink remotePath remotePath.

Definition deleteDirectory (rmdir : reply unit) (remotePath : jsstring) :=
  request "Failed to delete directory: " "Deleted directory " rmdir
    remotePath remotePath.

Definition createDirectory (mkdir : reply unit) (remotePath : jsstring) :=
  request "Failed to create directory: " "Created directory " mkdir
    remotePath remotePath.

Definition rename (renamed : reply unit) (oldPath newPath : jsstring) :=
  request "Failed to rename: " "Renamed " renamed newPath
    (oldPath ++ Js.lit " to " ++ newPath).

(** [close()]: [this.sftp.end()] can throw, and then the field keeps the
    wrapper. *)
Definition close (end_throws : option js_error) (s : t)
    : result unit * t * list wire_event :=
  if sftp s then
    match end_throws with
    | Some e => (inl e, s, [WSftpEnd (client s)])
    | None =>
        (inr tt, {| client := client s; sftp := false |},
         [WSftpEnd (client s)])
    end
  else (inr tt, s, []).

End SftpClient.

(** ** Configuration ([config.ts]) *)

Record ServerConfig := mkServerConfig {
  server_host : jsstring;
  server_port : Z;
  server_username : jsstring;
  server_password : option jsstring;
  server_privateKey : option jsstring;
  server_privateKeyPath : option jsstring;
  server_passphrase : option jsstring
}.

Record GlobalConfig := mkGlobalConfig {
  server : option ServerConfig;
  global_timeout : option Z;
  global_connectTimeout : option Z
}.

Definition validateServerConfig (config : ServerConfig) : option string :=
  if Js.falsy (server_host config) then Some "Missing host"%string
  else if Js.falsy (server_username config) then Some "Missing username"%string
  else if Js.absent (server_password config)
          && Js.absent (server_privateKey config)
          && Js.absent (server_privateKeyPath config)
  then Some "Missing authentication method (password or private key)"%string
  else None.

Definition hasPresetServer (config : GlobalConfig) : bool :=
  bool_decide (is_Some (server config)).

(** ** Parameter schemas ([tools/ssh-tools.ts]) *)

(** [z.string().min(1, message)] *)
Definition min1 (path message : string) (s : jsstring) : list zod_issue :=
  if Js.length s <? 1 then [ZodIssue path message] else [].

(** [z.number().int().min(lo).max(hi)] on a number that is an integer. *)
Definition in_range (path : string) (lo hi n : Z) : list zod_issue :=
  (if n <? lo then
     [ZodIssue path ("Number must be greater than or equal to " +:+ pretty lo)]
   else [])
  ++ (if n >? hi then
        [ZodIssue path ("Number must be less than or equal to " +:+ pretty hi)]
      else []).

(** The same under [.optional()]. *)
Definition opt_in_range (path : string) (lo hi : Z) (n : option Z)
    : list zod_issue :=
  match n with
  | Some n => in_range path lo hi n
  | None => []
  end.

(** [schema.parse(params)]: the value if no check raised an issue. *)
Definition parsed {A} (issues : list zod_issue) (value : A) : result A :=
  match issues with
  | [] => inr value
  | _ :: _ => inl (ZodError issues)
  end.

Record ConnectParams := mkConnectParams {
  host : jsstring;
  port : option Z;
  username : jsstring;
  password : option jsstring;
  private_key : option jsstring;
  private_key_path : option jsstring;
  passphrase : option jsstring;
  timeout : option Z;
  connect_timeout : option Z
}.

(** [ConnectParamsSchema.parse]: the parsed value has its [port]. *)
Definition ConnectParamsSchema (params : ConnectParams) : result ConnectParams :=
  let port' := default 22 (port params) in
  parsed
    (min1 "host" "host is required" (host params)
     ++ in_range "port" 1 65535 port'
     ++ min1 "username" "username is required" (username params)
     ++ opt_in_range "timeout" 1000 300000 (timeout params)
     ++ opt_in_range "connect_timeout" 1000 60000 (connect_timeout params))
    {| host := host params;
       port := Some port';
       username := username params;
       password := password params;
       private_key := private_key params;
       private_key_path := private_key_path params;
       passphrase := passphrase params;
       timeout := timeout params;
       connect_timeout := connect_timeout params |}.

Record ExecParams := mkExecParams {
  exec_session_id : option jsstring;
  command : jsstring;
  exec_timeout : option Z
}.

Definition ExecParamsSchema (params : ExecParams) : result ExecParams :=
  parsed
    (min1 "command" "command is required" (command params)
     ++ opt_in_range "timeout" 1000 300000 (exec_timeout params))
    params.

Record SftpListParams := mkSftpListParams {
  list_session_id : option jsstring;
  path : option jsstring
}.

(** [path: z.string().default("/")] *)
Definition SftpListParamsSchema (params : SftpListParams)
    : result SftpListParams :=
  parsed []
    {| list_session_id := list_session_id params;
       path := Some (default (Js.lit "/") (path params)) |}.

(** The parameters of the other file operations: a session and one or two
    paths or texts, each required non-empty where the schema says [min(1)]. *)
Record SftpParams := mkSftpParams {
  sftp_session_id : option jsstring;
  first : jsstring;
  second : jsstring
}.

Definition SftpUploadParamsSchema (params : SftpParams) : result SftpParams :=
  parsed (min1 "local_path" "local_path is required" (first params)
          ++ min1 "remote_path" "remote_path is required" (second params))
    params.

Definition SftpDownloadParamsSchema (params : SftpParams) : result SftpParams :=
  parsed (min1 "remote_path" "remote_path is required" (first params)
          ++ min1 "local_path" "local_path is required" (second params))
    params.

(** [SftpReadParamsSchema], [SftpWriteParamsSchema], [SftpDeleteParamsSchema]
    and [SftpMkdirParamsSchema] check the same one field. *)
Definition SftpPathParamsSchema (params : SftpParams) : result SftpParams :=
  parsed (min1 "path" "path is required" (first params)) params.

Definition SftpRenameParamsSchema (params : SftpParams) : result SftpParams :=
  parsed (min1 "old_path" "old_path is required" (first params)
          ++ min1 "new_path" "new_path is required" (second params))
    params.

Record ConnectResult := mkConnectResult {
  session_id : jsstring;
  connect_message : jsstring
}.

Record DisconnectResult := mkDisconnectResult {
  disconnect_success : bool;
  disconnect_message : jsstring
}.

Record ListSessionsResult := mkListSessionsResult {
  sessions : list SessionInfo;
  sessions_count : Z
}.

(** ** The orchestrator ([tools/ssh-tools.ts]) *)

Module SshToolHandlers.

(** The fields of the class, and [wire]: what has been asked of the
    transport so far, oldest first.  [wire] is not a field of the source; it
    records the calls the source makes on [ssh2] objects. *)
Record t := mk {
  registry : SessionRegistry.t;
  clients : gmap jsstring SshClient.t;
  sftpClients : gmap jsstring SftpClient.t;
  globalConfig : GlobalConfig;
  defaultSessionId : option jsstring;
  wire : list wire_event
}.

(** [new SshToolHandlers(config)] *)
Definition new (config : GlobalConfig) : t := {|
  registry := SessionRegistry.new;
  clients := ∅;
  sftpClients := ∅;
  globalConfig := config;
  defaultSessionId := None;
  wire := []
|}.

(** A method body: it runs on the fields and ends as a promise does.  What
    it wrote before throwing stays written. *)
Definition M (A : Type) : Type := t -> outcome A * t.

#[export] Instance M_ret : MRet M := fun A a h => (Resolved a, h).

#[export] Instance M_bind : MBind M := fun A B k m h =>
  match m h with
  | (Resolved a, h') => k a h'
  | (Rejected e, h') => (Rejected e, h')
  | (Pending, h') => (Pending, h')
  end.

Definition throw {A} (e : js_error) : M A := fun h => (Rejected e, h).

Definition lift {A} (r : result A) : M A := fun h => (of_result r, h).

(** [await promise] *)
Definition await {A} (settled : outcome A) : M A := fun h => (settled, h).

(** [try { body } catch (err) { handler }] *)
Definition try_catch {A} (body : M A) (handler : js_error -> M A) : M A :=
  fun h =>
    match body h with
    | (Rejected err, h') => handler err h'
    | settled => settled
    end.

(** [try { body } catch { }] *)
Definition try_ignore (body : M unit) : M unit :=
  try_catch body (fun _ => mret tt).

Definition read {A} (f : t -> A) : M A := fun h => (Resolved (f h), h).

Definition write (f : t -> t) : M unit := fun h => (Resolved tt, f h).

Definition set_registry (r : SessionRegistry.t) (h : t) : t :=
  {| registry := r; clients := clients h; sftpClients := sftpClients h;
     globalConfig := globalConfig h; defaultSessionId := defaultSessionId h;
     wire := wire h |}.

Definition set_clients (c : gmap jsstring SshClient.t) (h : t) : t :=
  {| registry := registry h; clients := c; sftpClients := sftpClients h;
     globalConfig := globalConfig h; defaultSessionId := defaultSessionId h;
     wire := wire h |}.

Definition set_sftpClients (c : gmap jsstring SftpClient.t) (h : t) : t :=
  {| registry := registry h; clients := clients h; sftpClients := c;
     globalConfig := globalConfig h; defaultSessionId := defaultSessionId h;
     wire := wire h |}.

Definition set_defaultSessionId (d : option jsstring) (h : t) : t :=
  {| registry := registry h; clients := clients h;
     sftpClients := sftpClients h; globalConfig := globalConfig h;
     defaultSessionId := d; wire := wire h |}.

Definition emit (events : list wire_event) (h : t) : t :=
  {| registry := registry h; clients := clients h;
     sftpClients := sftpClients h; globalConfig := globalConfig h;
     defaultSessionId := defaultSessionId h; wire := wire h ++ events |}.

(** [this.registry.touchSession(sessionId)] *)
Definition touch (now : Date) (sessionId : jsstring) : M unit :=
  write (fun h =>
    set_registry (SessionRegistry.touchSession sessionId now (registry h)) h).

Definition getEffectiveSessionId (sessionId : option jsstring) : M jsstring :=
  if negb (Js.absent sessionId) then mret (default [] sessionId)
  else
    d ← read defaultSessionId;
    if negb (Js.absent d) then mret (default [] d)
    else throw (Error (Js.lit
      "No session_id provided and no default session available. Please connect first or configure server in environment variables.")).

Definition getSftpClient (opened : reply unit) (sessionId : jsstring)
    : M SftpClient.t :=
  existing ← read (fun h => sftpClients h !! sessionId);
  match existing with
  | Some sftpClient => mret sftpClient
  | None =>
      sshClient ← read (fun h => clients h !! sessionId);
      match sshClient with
      | None =>
          throw (Error (Js.lit "Client not found for session: " ++ sessionId))
      | Some sshClient =>
          let '(settled, sftpClient, events) :=
            SftpClient.init opened
              (SftpClient.new (SshClient.getClient sshClient)) in
          write (emit events);;
          await settled;;
          write (fun h =>
            set_sftpClients (<[sessionId := sftpClient]> (sftpClients h)) h);;
          mret sftpClient
      end
  end.

(** What the world contributes to one [connect]: the identifier and the
    instant [createSession] draws, the [Client] the constructor makes, the
    key file, and the remote end. *)
Record connect_env := mkConnectEnv {
  uuid : jsstring;
  connect_now : Date;
  new_client : handle;
  readFileSync : jsstring -> result (list Z);
  handshake : ConnectConfig -> Z -> handshake_reply
}.

Definition clientConfig (validated : ConnectParams) : SshClientConfig := {|
  cfg_host := host validated;
  cfg_port := default 22 (port validated);
  cfg_username := username validated;
  cfg_password := password validated;
  cfg_privateKey := KeyString <$> private_key validated;
  cfg_privateKeyPath := private_key_path validated;
  cfg_passphrase := passphrase validated;
  cfg_timeout := timeout validated;
  cfg_connectTimeout := connect_timeout validated
|}.

Definition connect (env : connect_env) (params : ConnectParams)
    : M ConnectResult :=
  validated ← lift (ConnectParamsSchema params);
  if Js.absent (password validated) && Js.absent (private_key validated)
     && Js.absent (private_key_path validated)
  then throw (Error (Js.lit
    "At least one authentication method is required (password, private_key, or private_key_path)"))
  else
    let client := SshClient.new (new_client env) (clientConfig validated) in
    let '(settled, client, events) :=
      SshClient.connect (readFileSync env) (handshake env) client in
    write (emit events);;
    match settled with
    | Rejected err =>
        throw (Error (Js.lit "Failed to connect: " ++ error_message err))
    | Pending => await Pending
    | Resolved _ =>
        session ← (fun h =>
          let (record, r) :=
            SessionRegistry.createSession (uuid env) (connect_now env)
              {| csp_host := host validated;
                 csp_port := default 22 (port validated);
                 csp_username := username validated;
                 csp_client := SshClient.getClient client |}
              (registry h) in
          (Resolved record, set_registry r h));
        write (fun h =>
          set_clients (<[sessionId session := client]> (clients h)) h);;
        mret {| session_id := sessionId session;
                connect_message :=
                  Js.lit "Connected to " ++ username validated ++ Js.lit "@"
                  ++ host validated ++ Js.lit ":"
                  ++ Js.of_number (default 22 (port validated)) |}
    end.

Definition exec (now : Date) (answer : exec_reply) (params : ExecParams)
    : M ExecResult :=
  validated ← lift (ExecParamsSchema params);
  sessionId ← getEffectiveSessionId (exec_session_id validated);
  session ← read (fun h => SessionRegistry.getSession sessionId (registry h));
  match session with
  | None => throw (Error (Js.lit "Session not found: " ++ sessionId))
  | Some _ =>
      client ← read (fun h => clients h !! sessionId);
      match client with
      | None =>
          throw (Error (Js.lit "Client not found for session: " ++ sessionId))
      | Some client =>
          command ← lift (sanitizeCommand (Js.VString (command validated)));
          touch now sessionId;;
          let (settled, events) := SshClient.execCommand answer command client in
          write (emit events);;
          result ← await settled;
          mret {| stdout := stdout result;
                  stderr := stderr result;
                  exitCode := exitCode result;
                  truncated := truncated result |}
      end
  end.

Definition listSessions : M ListSessionsResult :=
  sessions ← read (fun h => SessionRegistry.listSessions (registry h));
  mret {| sessions := sessions;
          sessions_count := Z.of_nat (List.length sessions) |}.

(** [sftpClient.close()] on the object that the map holds under
    [sessionId]: the wrapper's [end] is asked for, and the object, which
    [close] changes in place, is the map's entry still. *)
Definition close_sftp (end_throws : option js_error) (sessionId : jsstring)
    (sftpClient : SftpClient.t) : M unit :=
  let '(returned, sftpClient, events) :=
    SftpClient.close end_throws sftpClient in
  write (fun h =>
    emit events
      (set_sftpClients (alter (fun _ => sftpClient) sessionId (sftpClients h))
         h));;
  lift returned.

(** [await client.close()], likewise. *)
Definition close_client (closed : close_reply) (sessionId : jsstring)
    (client : SshClient.t) : M unit :=
  let '(settled, client, events) := SshClient.close closed client in
  write (fun h =>
    emit events
      (set_clients (alter (fun _ => client) sessionId (clients h)) h));;
  await settled.

(** [DisconnectParamsSchema] has the one optional field, so that parsing a
    typed argument returns it. *)
Definition disconnect (end_throws : option js_error) (closed : close_reply)
    (session_id : option jsstring) : M DisconnectResult :=
  sessionId ← getEffectiveSessionId session_id;
  session ← read (fun h => SessionRegistry.getSession sessionId (registry h));
  match session with
  | None => throw (Error (Js.lit "Session not found: " ++ sessionId))
  | Some session =>
      sftpClient ← read (fun h => sftpClients h !! sessionId);
      match sftpClient with
      | Some sftpClient =>
          close_sftp end_throws sessionId sftpClient;;
          write (fun h => set_sftpClients (delete sessionId (sftpClients h)) h)
      | None => mret tt
      end;;
      client ← read (fun h => clients h !! sessionId);
      match client with
      | Some client =>
          close_client closed sessionId client;;
          write (fun h => set_clients (delete sessionId (clients h)) h)
      | None => mret tt
      end;;
      write (fun h =>
        set_registry (SessionRegistry.removeSession sessionId (registry h)).2 h);;
      d ← read defaultSessionId;
      (if bool_decide (d = Some sessionId) then
         write (set_defaultSessionId None)
       else mret tt);;
      mret {| disconnect_success := true;
              disconnect_message :=
                Js.lit "Disconnected from " ++ rec_username session
                ++ Js.lit "@" ++ rec_host session ++ Js.lit ":"
                ++ Js.of_number (rec_port session) |}
  end.

(** *** The file operations *)

(** The start of every file operation: the session, its transfer channel
    (made if there is none yet), and the touch. *)
Definition with_sftp (now : Date) (opened : reply unit)
    (session_id : option jsstring) : M SftpClient.t :=
  sessionId ← getEffectiveSessionId session_id;
  sftpClient ← getSftpClient opened sessionId;
  touch now sessionId;;
  mret sftpClient.

Definition sftpList (now : Date) (opened : reply unit)
    (localeCompare : jsstring -> jsstring -> Z)
    (readdir : reply (list DirEntry)) (params : SftpListParams)
    : M ListResult :=
  validated ← lift (SftpListParamsSchema params);
  sftpClient ← with_sftp now opened (list_session_id validated);
  await (SftpClient.listDirectory localeCompare readdir
           (default [] (path validated)) sftpClient).

(** [uploadFile] and [downloadFile] move octets between the remote end and
    local files; [transferred] is how the awaited call ends. *)
Definition sftpUpload (now : Date) (opened : reply unit)
    (transferred : outcome TransferResult) (params : SftpParams)
    : M TransferResult :=
  validated ← lift (SftpUploadParamsSchema params);
  _ ← with_sftp now opened (sftp_session_id validated);
  await transferred.

Definition sftpDownload (now : Date) (opened : reply unit)
    (transferred : outcome TransferResult) (params : SftpParams)
    : M TransferResult :=
  validated ← lift (SftpDownloadParamsSchema params);
  _ ← with_sftp now opened (sftp_session_id validated);
  await transferred.

Definition sftpRead (now : Date) (opened : reply unit) (srv : Server.t)
    (params : SftpParams) : M ReadFileResult :=
  validated ← lift (SftpPathParamsSchema params);
  sftpClient ← with_sftp now opened (sftp_session_id validated);
  await (SftpClient.readFile (first validated) CHARACTER_LIMIT srv sftpClient).

(** The remote end is not a field of the handlers: what the write leaves
    there is [SftpClient.writeFile]'s second component. *)
Definition sftpWrite (now : Date) (opened : reply unit) (srv : Server.t)
    (params : SftpParams) : M WriteFileResult :=
  validated ← lift (SftpPathParamsSchema params);
  sftpClient ← with_sftp now opened (sftp_session_id validated);
  await (SftpClient.writeFile (first validated) (second validated) srv
           sftpClient).1.

Definition sftpDelete (now : Date) (opened : reply unit) (srv : Server.t)
    (removed : reply unit) (params : SftpParams) : M DeleteResult :=
  validated ← lift (SftpPathParamsSchema params);
  sftpClient ← with_sftp now opened (sftp_session_id validated);
  stats ← await (SftpClient.stat (first validated) srv sftpClient);
  let isDirectory := negb (js_and (mode stats) 16384 =? 0) in
  if isDirectory then
    await (SftpClient.deleteDirectory removed (first validated) sftpClient)
  else await (SftpClient.deleteFile removed (first validated) sftpClient).

Definition sftpMkdir (now : Date) (opened : reply unit) (made : reply unit)
    (params : SftpParams) : M DeleteResult :=
  validated ← lift (SftpPathParamsSchema params);
  sftpClient ← with_sftp now opened (sftp_session_id validated);
  await (SftpClient.createDirectory made (first validated) sftpClient).

Definition sftpRename (now : Date) (opened : reply unit) (renamed : reply unit)
    (params : SftpParams) : M DeleteResult :=
  validated ← lift (SftpRenameParamsSchema params);
  sftpClient ← with_sftp now opened (sftp_session_id validated);
  await (SftpClient.rename renamed (first validated) (second validated)
           sftpClient).

Definition getDefaultSessionId (h : t) : option jsstring := defaultSessionId h.

Definition hasActiveConnection (h : t) : bool :=
  SessionRegistry.size (registry h) >? 0.

(** *** [cleanup] *)

(** The body of the loop, for one listed session; [end_throws] and [closed]
    say how the two closes of that session end. *)
Definition cleanup_session (end_throws : jsstring -> option js_error)
    (closed : jsstring -> close_reply) (session : SessionInfo) : M unit :=
  let sessionId := info_sessionId session in
  sftpClient ← read (fun h => sftpClients h !! sessionId);
  match sftpClient with
  | Some sftpClient =>
      try_ignore (close_sftp (end_throws sessionId) sessionId sftpClient);;
      write (fun h => set_sftpClients (delete sessionId (sftpClients h)) h)
  | None => mret tt
  end;;
  client ← read (fun h => clients h !! sessionId);
  match client with
  | Some client =>
      try_ignore (close_client (closed sessionId) sessionId client);;
      write (fun h => set_clients (delete sessionId (clients h)) h)
  | None => mret tt
  end;;
  write (fun h =>
    set_registry (SessionRegistry.removeSession sessionId (registry h)).2 h).

(** [for (const x of l) { body(x) }] *)
Fixpoint for_of {A} (l : list A) (body : A -> M unit) : M unit :=
  match l with
  | [] => mret tt
  | x :: rest => body x;; for_of rest body
  end.

Definition cleanup (end_throws : jsstring -> option js_error)
    (closed : jsstring -> close_reply) : M unit :=
  sessions ← read (fun h => SessionRegistry.listSessions (registry h));
  for_of sessions (cleanup_session end_throws closed);;
  write (set_defaultSessionId None).

(** *** [autoConnect] *)

Definition autoConnect (env : connect_env) : M (option jsstring) :=
  config ← read globalConfig;
  match server config with
  | None => mret None
  | Some serverConfig =>
      try_catch
        (result ← connect env
           {| host := server_host serverConfig;
              port := Some (server_port serverConfig);
              username := server_username serverConfig;
              password := server_password serverConfig;
              private_key := server_privateKey serverConfig;
              private_key_path := server_privateKeyPath serverConfig;
              passphrase := server_passphrase serverConfig;
              timeout := global_timeout config;
              connect_timeout := global_connectTimeout config |};
         write (set_defaultSessionId (Some (session_id result)));;
         mret (Some (session_id result)))
        (fun err =>
           throw (Error (Js.lit "Auto-connect failed: " ++ error_message err)))
  end.

End SshToolHandlers.

(** ** Requests, one after the other *)

(** A call of a public method, with everything the world contributes to it. *)
Inductive request :=
| Connect (env : SshToolHandlers.connect_env) (params : ConnectParams)
| AutoConnect (env : SshToolHandlers.connect_env)
| Exec (now : Date) (answer : exec_reply) (params : ExecParams)
| ListSessions
| Disconnect (end_throws : option js_error) (closed : close_reply)
    (session_id : option jsstring)
| SftpList (now : Date) (opened : reply unit)
    (localeCompare : jsstring -> jsstring -> Z)
    (readdir : reply (list DirEntry)) (params : SftpListParams)
| SftpUpload (now : Date) (opened : reply unit)
    (transferred : outcome TransferResult) (params : SftpParams)
| SftpDownload (now : Date) (opened : reply unit)
    (transferred : outcome TransferResult) (params : SftpParams)
| SftpRead (now : Date) (opened : reply unit) (srv : Server.t)
    (params : SftpParams)
| SftpWrite (now : Date) (opened : reply unit) (srv : Server.t)
    (params : SftpParams)
| SftpDelete (now : Date) (opened : reply unit) (srv : Server.t)
    (removed : reply unit) (params : SftpParams)
| SftpMkdir (now : Date) (opened : reply unit) (made : reply unit)
    (params : SftpParams)
| SftpRename (now : Date) (opened : reply unit) (renamed : reply unit)
    (params : SftpParams)
| Cleanup (end_throws : jsstring -> option js_error)
    (closed : jsstring -> close_reply).

(** The fields after a request, however it ended: returned, thrown, or left
    waiting at an [await] that never resumes. *)
Definition serve (r : request) (h : SshToolHandlers.t) : SshToolHandlers.t :=
  match r with
  | Connect env params => (SshToolHandlers.connect env params h).2
  | AutoConnect env => (SshToolHandlers.autoConnect env h).2
  | Exec now answer params => (SshToolHandlers.exec now answer params h).2
  | ListSessions => (SshToolHandlers.listSessions h).2
  | Disconnect end_throws closed session_id =>
      (SshToolHandlers.disconnect end_throws closed session_id h).2
  | SftpList now opened localeCompare readdir params =>
      (SshToolHandlers.sftpList now opened localeCompare readdir params h).2
  | SftpUpload now opened transferred params =>
      (SshToolHandlers.sftpUpload now opened transferred params h).2
  | SftpDownload now opened transferred params =>
      (SshToolHandlers.sftpDownload now opened transferred params h).2
  | SftpRead now opened srv params =>
      (SshToolHandlers.sftpRead now opened srv params h).2
  | SftpWrite now opened srv params =>
      (SshToolHandlers.sftpWrite now opened srv params h).2
  | SftpDelete now opened srv removed params =>
      (SshToolHandlers.sftpDelete now opened srv removed params h).2
  | SftpMkdir now opened made params =>
      (SshToolHandlers.sftpMkdir now opened made params h).2
  | SftpRename now opened renamed params =>
      (SshToolHandlers.sftpRename now opened renamed params h).2
  | Cleanup end_throws closed =>
      (SshToolHandlers.cleanup end_throws closed h).2
  end.

(** The fields of a handler made with [config] after it served [requests]
    one after the other: no request arrives while a call waits at an
    [await].  Calls that overlap are in [EventLoop] below. *)
Definition after (config : GlobalConfig) (requests : list request)
    : SshToolHandlers.t :=
  foldl (fun h r => serve r h) (SshToolHandlers.new config) requests.

(** ** Requests that overlap *)

(** An [async] method runs without interruption up to an [await] whose
    promise is still pending.  There it leaves the thread to the event
    loop, which may start another request, and it goes on when its promise
    settles, on the fields as they are by then.  The methods of this module
    are [getSftpClient], [sftpList] and [disconnect] of
    [tools/ssh-tools.ts] once more, statement by statement as in
    [SshToolHandlers], with these places marked: [await sftpClient.init()],
    [await sftpClient.listDirectory(...)] and [await client.close()]. *)
Module EventLoop.
Import SshToolHandlers.

(** A method that was called: it has ended, as its promise ends, or it
    waits at an [await] with the rest of its body.  Either way [h] is how it
    left the fields. *)
Inductive task (A : Type) : Type :=
| Ended (settled : outcome A) (h : t)
| Waiting (h : t) (rest : t -> task A).

Arguments Ended {A} settled h.
Arguments Waiting {A} h rest.

(** A body, or the rest of one: it runs up to its next pending [await]. *)
Definition P (A : Type) : Type := t -> task A.

Fixpoint task_bind {A B} (k : A -> P B) (s : task A) : task B :=
  match s with
  | Ended (Resolved a) h => k a h
  | Ended (Rejected e) h => Ended (Rejected e) h
  | Ended Pending h => Ended Pending h
  | Waiting h rest => Waiting h (fun h' => task_bind k (rest h'))
  end.

#[export] Instance P_ret : MRet P := fun A a h => Ended (Resolved a) h.

#[export] Instance P_bind : MBind P := fun A B k m h => task_bind k (m h).

(** A stretch of a body with no pending [await] in it. *)
Definition atomic {A} (m : M A) : P A :=
  fun h => let (settled, h') := m h in Ended settled h'.

(** [await promise] for a promise that an event settles later, as [settled]
    says, or never. *)
Definition await_event {A} (settled : outcome A) : P A :=
  match settled with
  | Pending => atomic (await Pending)
  | _ => fun h => Waiting h (atomic (await settled))
  end.

(** [await sftpClient.init()]: the transport calls back later, or never. *)
Definition getSftpClient (opened : reply unit) (sessionId : jsstring)
    : P SftpClient.t :=
  existing ← atomic (read (fun h => sftpClients h !! sessionId));
  match existing with
  | Some sftpClient => mret sftpClient
  | None =>
      sshClient ← atomic (read (fun h => clients h !! sessionId));
      match sshClient with
      | None =>
          atomic
            (throw (Error (Js.lit "Client not found for session: " ++ sessionId)))
      | Some sshClient =>
          let '(settled, sftpClient, events) :=
            SftpClient.init opened
              (SftpClient.new (SshClient.getClient sshClient)) in
          atomic (write (emit events));;
          await_event settled;;
          atomic (write (fun h =>
            set_sftpClients (<[sessionId := sftpClient]> (sftpClients h)) h));;
          mret sftpClient
      end
  end.

Definition with_sftp (now : Date) (opened : reply unit)
    (session_id : option jsstring) : P SftpClient.t :=
  sessionId ← atomic (getEffectiveSessionId session_id);
  sftpClient ← getSftpClient opened sessionId;
  atomic (touch now sessionId);;
  mret sftpClient.

(** [await sftpClient.listDirectory(path)]: [readdir] calls back later,
    unless [ensureSftp] threw before it was asked. *)
Definition sftpList (now : Date) (opened : reply unit)
    (localeCompare : jsstring -> jsstring -> Z)
    (readdir : reply (list DirEntry)) (params : SftpListParams)
    : P ListResult :=
  validated ← atomic (lift (SftpListParamsSchema params));
  sftpClient ← with_sftp now opened (list_session_id validated);
  let listed :=
    SftpClient.listDirectory localeCompare readdir
      (default [] (path validated)) sftpClient in
  if SftpClient.sftp sftpClient then await_event listed
  else atomic (await listed).

(** [await client.close()]: a connected client asks the transport to end,
    and the promise is resolved by the listener of its [close] event, which
    clears [connected]; a client that is not connected resolves the promise
    at once, and an [end] that throws rejects it at once. *)
Definition close_client (closed : close_reply) (sessionId : jsstring)
    (client : SshClient.t) : P unit :=
  let '(settled, client', events) := SshClient.close closed client in
  atomic (write (emit events));;
  match settled with
  | Resolved _ =>
      if SshClient.connected client then
        await_event settled;;
        atomic (write (fun h =>
          set_clients (alter (fun _ => client') sessionId (clients h)) h))
      else mret tt
  | _ => atomic (await settled)
  end.

Definition disconnect (end_throws : option js_error) (closed : close_reply)
    (session_id : option jsstring) : P DisconnectResult :=
  sessionId ← atomic (getEffectiveSessionId session_id);
  session ← atomic
    (read (fun h => SessionRegistry.getSession sessionId (registry h)));
  match session with
  | None => atomic (throw (Error (Js.lit "Session not found: " ++ sessionId)))
  | Some session =>
      sftpClient ← atomic (read (fun h => sftpClients h !! sessionId));
      match sftpClient with
      | Some sftpClient =>
          atomic (close_sftp end_throws sessionId sftpClient);;
          atomic (write (fun h =>
            set_sftpClients (delete sessionId (sftpClients h)) h))
      | None => mret tt
      end;;
      client ← atomic (read (fun h => clients h !! sessionId));
      match client with
      | Some client =>
          close_client closed sessionId client;;
          atomic (write (fun h => set_clients (delete sessionId (clients h)) h))
      | None => mret tt
      end;;
      atomic (write (fun h =>
        set_registry (SessionRegistry.removeSession sessionId (registry h)).2 h));;
      d ← atomic (read defaultSessionId);
      (if bool_decide (d = Some sessionId) then
         atomic (write (set_defaultSessionId None))
       else mret tt);;
      mret {| disconnect_success := true;
              disconnect_message :=
                Js.lit "Disconnected from " ++ rec_username session
                ++ Js.lit "@" ++ rec_host session ++ Js.lit ":"
                ++ Js.of_number (rec_port session) |}
  end.

(** The method runs to its end with nothing in between. *)
Fixpoint finish {A} (s : task A) : outcome A * t :=
  match s with
  | Ended settled h => (settled, h)
  | Waiting h rest => finish (rest h)
  end.

Definition uninterrupted {A} (p : P A) : M A := fun h => finish (p h).

(** The method that a request calls.  The methods that are not given
    above are taken whole: such a request is served before the next turn
    of the loop. *)
Definition method (r : request) : P unit :=
  match r with
  | SftpList now opened localeCompare readdir params =>
      sftpList now opened localeCompare readdir params;; mret tt
  | Disconnect end_throws closed session_id =>
      disconnect end_throws closed session_id;; mret tt
  | _ => atomic (write (serve r))
  end.

(** The fields, and the calls that wait, oldest first. *)
Record loop := mkLoop {
  fields : t;
  waiting : list (P unit)
}.

(** A turn of the loop: a request arrives and its method is called, or the
    promise settles that the [n]-th waiting call awaits, and this call goes
    on. *)
Inductive turn :=
| Arrives (r : request)
| Settles (n : nat).

Definition proceed (p : P unit) (l : loop) : loop :=
  match p (fields l) with
  | Ended _ h => {| fields := h; waiting := waiting l |}
  | Waiting h rest => {| fields := h; waiting := waiting l ++ [rest] |}
  end.

Definition step (l : loop) (e : turn) : loop :=
  match e with
  | Arrives r => proceed (method r) l
  | Settles n =>
      match waiting l !! n with
      | Some rest =>
          proceed rest {| fields := fields l; waiting := delete n (waiting l) |}
      | None => l
      end
  end.

Definition run (config : GlobalConfig) (turns : list turn) : loop :=
  foldl step {| fields := new config; waiting := [] |} turns.

(** Every request is followed through before the next one arrives: a call
    of these methods waits at two places at most. *)
Definition in_turn (requests : list request) : list turn :=
  requests ≫= fun r => [Arrives r; Settles 0; Settles 0].

(** The call has at most [n] pending promises to wait for. *)
Fixpoint within {A} (n : nat) (s : task A) {struct s} : Prop :=
  match s with
  | Ended _ _ => True
  | Waiting h rest =>
      match n with
      | O => False
      | S n => within n (rest h)
      end
  end.

End EventLoop.

(** ** Vocabulary of the statements *)

(** Empty or made of white space only. *)
Definition blank (s : jsstring) : bool := forallb Js.is_white_space s.

(** [r] is [s] without the white space at its two ends. *)
Definition trimmed_of (s r : jsstring) : Prop :=
  exists pre post,
    s = pre ++ r ++ post /\ blank pre = true /\ blank post = true /\
    (forall c, head r = Some c -> Js.is_white_space c = false) /\
    (forall c, last r = Some c -> Js.is_white_space c = false).

(** What the channel wrote on a stream before it closed. *)
Fixpoint emitted_stdout (events : list channel_event) : jsstring :=
  match events with
  | [] => []
  | Close :: _ => []
  | StdoutData chunk :: rest => chunk ++ emitted_stdout rest
  | _ :: rest => emitted_stdout rest
  end.

Fixpoint emitted_stderr (events : list channel_event) : jsstring :=
  match events with
  | [] => []
  | Close :: _ => []
  | StderrData chunk :: rest => chunk ++ emitted_stderr rest
  | _ :: rest => emitted_stderr rest
  end.

(** The events of a channel that is still writing: output on either
    stream, or the exit code. *)
Definition output_only (ev : channel_event) : bool :=
  match ev with
  | StdoutData _ | StderrData _ | Exit _ => true
  | Close | ChannelError _ | Timer => false
  end.

(** [x] clamped to [[lo, hi]]. *)
Definition clamp (lo hi x : Z) : Z := Z.max lo (Z.min hi x).

(** ** Vocabulary of the properties, and the inputs of their instances *)

(** What the listeners have made of the channel so far, while the promise
    is unsettled: each stream capped, and the flag raised by an overflow of
    either. *)
Definition capturing (st : SshClient.exec_state) (out err : jsstring) : Prop :=
  SshClient.st_stdout st = firstn (Z.to_nat CHARACTER_LIMIT) out /\
  SshClient.st_stderr st = firstn (Z.to_nat CHARACTER_LIMIT) err /\
  (SshClient.st_truncated st = true <->
   Js.length out > CHARACTER_LIMIT \/ Js.length err > CHARACTER_LIMIT) /\
  SshClient.st_timedOut st = false /\
  SshClient.st_settled st = None.

(** A command that writes 25 001 characters to [stdout], in two chunks. *)
Definition overflowing_client : SshClient.t :=
  SshClient.set_connected true
    (SshClient.new 1
       {| cfg_host := Js.lit "127.0.0.1"; cfg_port := 22;
          cfg_username := Js.lit "testuser";
          cfg_password := Some (Js.lit "testpass");
          cfg_privateKey := None; cfg_privateKeyPath := None;
          cfg_passphrase := None; cfg_timeout := None;
          cfg_connectTimeout := None |}).

Definition overflowing_output : list channel_event :=
  [StdoutData (repeat 97 (Z.to_nat 20000));
   StdoutData (repeat 98 (Z.to_nat 5001)); Exit (Some 0)].

Definition overflowing_result : ExecResult :=
  {| stdout := repeat 97 (Z.to_nat 20000) ++ repeat 98 (Z.to_nat 5000);
     stderr := []; exitCode := Some 0; truncated := true |}.

(** The scalar values: code points that are not surrogates. *)
Definition scalar (cp : Z) : Prop :=
  0 <= cp <= 0x10FFFF /\ ~ (0xD800 <= cp <= 0xDFFF).

(** An open transfer channel, and the file it writes to. *)
Definition open_channel : SftpClient.t :=
  {| SftpClient.client := 1; SftpClient.sftp := true |}.

Definition note_path : jsstring := Js.lit "/tmp/note.txt".

(** 12 501 times U+00E9: 12 501 characters, 25 002 octets. *)
Definition accented : jsstring := repeat 0xE9 (Z.to_nat 12501).

(** An accented word and a euro sign: text that fits comes back unchanged. *)
Definition short_text : jsstring := Js.lit "na" ++ [0xEF] ++ Js.lit "ve " ++ [0x20AC].

(** Strings compared code unit by code unit, as [<] compares them. *)
Fixpoint code_unit_compare (a b : jsstring) : Z :=
  match a, b with
  | [], [] => 0
  | [], _ :: _ => -1
  | _ :: _, [] => 1
  | x :: a', y :: b' =>
      if x <? y then -1 else if y <? x then 1 else code_unit_compare a' b'
  end.

(** A fragment of canonical composition: [e] followed by U+0301, the
    combining acute accent, is the one letter U+00E9. *)
Fixpoint compose_acute (s : jsstring) : jsstring :=
  match s with
  | [] => []
  | c :: rest =>
      match rest with
      | d :: rest' =>
          if (c =? 0x65) && (d =? 0x301) then 0xE9 :: compose_acute rest'
          else c :: compose_acute rest
      | [] => [c]
      end
  end.

(** A collation that, as ECMAScript requires of [localeCompare], returns 0
    for canonically equivalent strings (here: up to [compose_acute]). *)
Definition collate (a b : jsstring) : Z :=
  code_unit_compare (compose_acute a) (compose_acute b).

(** What makes a comparator of names consistent: swapping the arguments
    swaps the sign, and "not after" is transitive. *)
Definition consistent (compare : jsstring -> jsstring -> Z) : Prop :=
  (forall a b, Z.sgn (compare b a) = - Z.sgn (compare a b)) /\
  (forall a b c, compare a b <= 0 -> compare b c <= 0 -> compare a c <= 0).


(** A directory with two files and a subdirectory, as [readdir] may list
    it. *)
Definition entry (name : string) (mode : Z) : DirEntry :=
  {| entry_filename := Js.lit name;
     entry_longname := Js.lit name;
     entry_attrs := {| mode := mode; uid := 1000; gid := 1000; size := 12;
                       atime := 1700000000; mtime := 1700000000 |} |}.

Definition sample_listing : list DirEntry :=
  [entry "b.txt" 33188; entry "lib" 16877; entry "a.txt" 33188].

Definition sample_result : ListResult :=
  {| list_path := Js.lit "/srv";
     files := map SftpClient.fileInfo
                [entry "lib" 16877; entry "a.txt" 33188; entry "b.txt" 33188];
     count := 3 |}.



(** Every entry of the registry is filed under its record's identifier. *)
Definition keyed (r : SessionRegistry.t) : Prop :=
  Forall (fun kv => sessionId kv.2 = kv.1) r.

(** The fields are in step: a transfer channel only where there is a
    transport client, and a registry that is [keyed]. *)
Definition in_step (h : SshToolHandlers.t) : Prop :=
  dom (SshToolHandlers.sftpClients h) ⊆ dom (SshToolHandlers.clients h) /\
  keyed (SshToolHandlers.registry h).

Section HandlerVocabulary.
Import SshToolHandlers.

(** The endpoint of the tests: it accepts [testuser] with [testpass]. *)
Definition test_env : connect_env :=
  {| uuid := Js.lit "0b7c1e0e-6f0a-4a63-9a55-2f1d3c1b8e11";
     connect_now := 1768694400000;
     new_client := 1;
     readFileSync := fun _ => inl (Error (Js.lit "ENOENT: no such file"));
     handshake := fun cc _ =>
       if bool_decide (cc_password cc = Some (Js.lit "testpass")) then Ready
       else ConnectionError
              (Js.lit "All configured authentication methods failed") |}.

Definition test_params (password : option jsstring)
    (connect_timeout : option Z) : ConnectParams :=
  {| host := Js.lit "127.0.0.1"; port := Some 2222;
     username := Js.lit "testuser"; password := password;
     private_key := None; private_key_path := None; passphrase := None;
     timeout := None; connect_timeout := connect_timeout |}.

Definition fresh : SshToolHandlers.t :=
  SshToolHandlers.new
    {| server := None; global_timeout := None; global_connectTimeout := None |}.

(** A handler with one session, connected as the tests connect. *)
Definition connected_once : SshToolHandlers.t :=
  (connect test_env (test_params (Some (Js.lit "testpass")) None) fresh).2.

(** From fields that satisfy [pre], the method body leaves fields that
    satisfy [always] however it ends (returned, thrown, or waiting for
    good), and fields that satisfy [post] when it returns. *)
Definition triple {A} (always pre : SshToolHandlers.t -> Prop) (m : M A)
    (post : A -> SshToolHandlers.t -> Prop) : Prop :=
  forall h, pre h ->
    always (m h).2 /\ forall a, (m h).1 = Resolved a -> post a (m h).2.

(** A body that keeps the fields in step, wherever it stops. *)
Definition keeps {A} (m : M A) : Prop :=
  triple in_step in_step m (fun _ h => in_step h).

(** The fields are in step and [id] has no transfer channel (any more). *)
Definition channel_gone (id : jsstring) (h : SshToolHandlers.t) : Prop :=
  in_step h /\ sftpClients h !! id = None.

End HandlerVocabulary.

(** Two sessions, the first with a transfer channel; at cleanup both
    closes of the first session throw. *)
Definition second_env : SshToolHandlers.connect_env :=
  {| SshToolHandlers.uuid := Js.lit "7d9f4c52-1a3b-4d0e-8c66-5e2a9b7f0c34";
     SshToolHandlers.connect_now := 1768694401000;
     SshToolHandlers.new_client := 2;
     SshToolHandlers.readFileSync := SshToolHandlers.readFileSync test_env;
     SshToolHandlers.handshake := SshToolHandlers.handshake test_env |}.

Definition two_sessions : list request :=
  [Connect test_env (test_params (Some (Js.lit "testpass")) None);
   Connect second_env (test_params (Some (Js.lit "testpass")) None);
   SftpList 1768694402000 (Answers tt) code_unit_compare
     (Answers sample_listing)
     {| list_session_id := Some (SshToolHandlers.uuid test_env);
        path := None |}].

Definition first_close_throws (id : jsstring) : option js_error :=
  if bool_decide (id = SshToolHandlers.uuid test_env)
  then Some (Error (Js.lit "write after end")) else None.

Definition first_end_throws (id : jsstring) : close_reply :=
  if bool_decide (id = SshToolHandlers.uuid test_env)
  then EndThrows (Error (Js.lit "socket hang up")) else Closes.

(** One session; a listing and a disconnect of it overlap.  The listing
    is called first and waits for its channel to open.  The disconnect
    arrives, finds no channel, asks the transport to end and waits for the
    [close] event.  The channel's opening, which was under way, is answered
    and the listing goes on; its reading of the directory fails, the
    transport being about to close; the [close] event comes last. *)
Definition overlapping : list EventLoop.turn :=
  [EventLoop.Arrives
     (Connect test_env (test_params (Some (Js.lit "testpass")) None));
   EventLoop.Arrives
     (SftpList 1768694402000 (Answers tt) code_unit_compare
        (Fails (Js.lit "No response from server"))
        {| list_session_id := Some (SshToolHandlers.uuid test_env);
           path := None |});
   EventLoop.Arrives
     (Disconnect None Closes (Some (SshToolHandlers.uuid test_env)));
   EventLoop.Settles 0;
   EventLoop.Settles 1;
   EventLoop.Settles 0].

(** The loop after the first [n] of these turns. *)
Definition overlapped (n : nat) : EventLoop.loop :=
  EventLoop.run {| server := None; global_timeout := None;
                   global_connectTimeout := None |} (take n overlapping).

(** ** Vocabulary of the further properties *)

(** The keys of a [Map] are distinct; every registry that the operations
    make of the empty one has them so. *)
Definition distinct_keys {V} (m : JsMap.t V) : Prop := NoDup (JsMap.keys m).

(** The public view of a record, as [listSessions] pushes it. *)
Definition info_of (record : SessionRecord) : SessionInfo :=
  {| info_sessionId := sessionId record;
     info_host := rec_host record;
     info_port := rec_port record;
     info_username := rec_username record;
     info_createdAt := toISOString (createdAt record);
     info_lastUsedAt := toISOString <$> lastUsedAt record |}.

(** A record with its [lastUsedAt] set. *)
Definition used_at (now : Date) (record : SessionRecord) : SessionRecord :=
  {| sessionId := sessionId record;
     rec_host := rec_host record;
     rec_port := rec_port record;
     rec_username := rec_username record;
     rec_client := rec_client record;
     createdAt := createdAt record;
     lastUsedAt := Some now |}.

(** A registry with two sessions. *)
Definition two_records : SessionRegistry.t :=
  (SessionRegistry.createSession (Js.lit "id-2") 20
     {| csp_host := Js.lit "10.0.0.2"; csp_port := 2222;
        csp_username := Js.lit "deploy"; csp_client := 2 |}
     (SessionRegistry.createSession (Js.lit "id-1") 10
        {| csp_host := Js.lit "10.0.0.1"; csp_port := 22;
           csp_username := Js.lit "root"; csp_client := 1 |}
        SessionRegistry.new).2).2.

(** The exit code that the channel reported last, if it reported any. *)
Definition exit_reported (before : list channel_event) : option Z :=
  foldl (fun code ev => match ev with Exit c => c | _ => code end) None before.

(** The text of the rejection when the execution timer fires. *)
Definition exec_timeout_error (s : SshClient.t) : js_error :=
  Error (Js.lit "Command execution timeout after "
         ++ Js.of_number (default 30000 (cfg_timeout (SshClient.config s)))
         ++ Js.lit "ms").

(** A command that writes to both streams and exits with 3. *)
Definition failing_output : list channel_event :=
  [StdoutData (Js.lit "building"); StderrData (Js.lit "error: ");
   StdoutData (Js.lit "..."); StderrData (Js.lit "no such file");
   Exit (Some 3)].

(** A configuration with a key file and a passphrase, and no key content. *)
Definition key_path_config : SshClientConfig :=
  {| cfg_host := Js.lit "10.0.0.1"; cfg_port := 22;
     cfg_username := Js.lit "deploy"; cfg_password := None;
     cfg_privateKey := None;
     cfg_privateKeyPath := Some (Js.lit "/home/deploy/.ssh/id_ed25519");
     cfg_passphrase := Some (Js.lit "secret"); cfg_timeout := None;
     cfg_connectTimeout := None |}.

(** A file system without that file, and one that has it. *)
Definition no_such_file (path : jsstring) : result (list Z) :=
  inl (Error (Js.lit "ENOENT: no such file or directory")).

Definition key_file (path : jsstring) : result (list Z) := inr [45; 45; 45].

(** The nine permission characters read off the bits of a mode: [r], [w]
    and [x] for the owner, the group and the others, from bit 8 down to
    bit 0, and [-] where the bit is clear. *)
Definition permission_bits (mode : Z) : jsstring :=
  map (fun '(bit, letter) => if Z.testbit mode bit then letter else 45)
    [(8, 114); (7, 119); (6, 120); (5, 114); (4, 119); (3, 120);
     (2, 114); (1, 119); (0, 120)].

(** The rejection of a transfer channel that is not open. *)
Definition not_initialized : js_error :=
  Error (Js.lit "SFTP not initialized. Call init() first.").

(** The last segment of a path with [/] as separator, as [path.basename]
    gives it on a POSIX host for a path that does not end in [/]. *)
Fixpoint after_last_slash (path : jsstring) : jsstring :=
  match path with
  | [] => []
  | c :: rest =>
      if existsb (Z.eqb 47) rest then after_last_slash rest
      else if c =? 47 then rest else path
  end.

(** A local file, and the paths of its journey. *)
Definition report_path : jsstring := Js.lit "/home/ops/report.csv".
Definition remote_report : jsstring := Js.lit "/srv/data/report.csv".
Definition report_copy : jsstring := Js.lit "/tmp/report-copy.csv".

Definition local_files : LocalFiles.t :=
  {[ report_path := [105; 100; 44; 110; 10; 49; 44; 97; 10] ]}.

Section SessionVocabulary.
Import SshToolHandlers.

(** The record of the session that a [connect] registers. *)
Definition connected_record (env : SshToolHandlers.connect_env)
    (params : ConnectParams) : SessionRecord :=
  {| sessionId := SshToolHandlers.uuid env;
     rec_host := host params;
     rec_port := default 22 (port params);
     rec_username := username params;
     rec_client := SshToolHandlers.new_client env;
     createdAt := SshToolHandlers.connect_now env;
     lastUsedAt := None |}.

(** The session has a record in the registry. *)
Definition registered (h : SshToolHandlers.t) (id : jsstring) : Prop :=
  is_Some (SessionRegistry.getSession id (SshToolHandlers.registry h)).

(** The session has a transport client. *)
Definition has_client (h : SshToolHandlers.t) (id : jsstring) : Prop :=
  is_Some (SshToolHandlers.clients h !! id).

(** The registry and the clients go together. *)
Definition paired (h : SshToolHandlers.t) : Prop :=
  forall id, has_client h id <-> registered h id.

(** The timeouts that the schema of [exec] lets pass. *)
Definition accepted_timeout (t : option Z) : Prop :=
  match t with
  | Some n => 1000 <= n <= 300000
  | None => True
  end.

(** The parameters that [autoConnect] hands to [connect]. *)
Definition preset_params (config : GlobalConfig) (preset : ServerConfig)
    : ConnectParams :=
  {| host := server_host preset;
     port := Some (server_port preset);
     username := server_username preset;
     password := server_password preset;
     private_key := server_privateKey preset;
     private_key_path := server_privateKeyPath preset;
     passphrase := server_passphrase preset;
     timeout := global_timeout config;
     connect_timeout := global_connectTimeout config |}.

(** A body that leaves fields satisfying [P] in fields satisfying [P],
    wherever it stops. *)
Definition stable {A} (P : SshToolHandlers.t -> Prop) (m : M A) : Prop :=
  triple P P m (fun _ h => P h).

(** A property of the fields that does not look at the instants of last
    use, at the trace of transport calls or at the transfer channels. *)
Definition session_frame (P : SshToolHandlers.t -> Prop) : Prop :=
  (forall h now id, P h ->
     P (set_registry (SessionRegistry.touchSession id now (registry h)) h)) /\
  (forall h events, P h -> P (emit events h)) /\
  (forall h channels, P h -> P (set_sftpClients channels h)).

(** The requests that run a command, list the sessions or work on
    files. *)
Definition session_request (r : request) : bool :=
  match r with
  | Connect _ _ | AutoConnect _ | Disconnect _ _ _ | Cleanup _ _ => false
  | _ => true
  end.

(** The same sessions: the same clients, the same identifiers in the
    same order, the same default. *)
Definition same_sessions (h h' : SshToolHandlers.t) : Prop :=
  clients h' = clients h /\
  JsMap.keys (registry h') = JsMap.keys (registry h) /\
  defaultSessionId h' = defaultSessionId h /\
  globalConfig h' = globalConfig h.

(** A handler whose preset server is the endpoint of the tests, and its
    fields after [autoConnect]. *)
Definition preset_config : GlobalConfig :=
  {| server :=
       Some {| server_host := Js.lit "127.0.0.1"; server_port := 2222;
               server_username := Js.lit "testuser";
               server_password := Some (Js.lit "testpass");
               server_privateKey := None; server_privateKeyPath := None;
               server_passphrase := None |};
     global_timeout := None; global_connectTimeout := None |}.

Definition auto_connected : SshToolHandlers.t :=
  (autoConnect test_env (SshToolHandlers.new preset_config)).2.

End SessionVocabulary.

(** * Properties *)

(** ** Facts about [JsMap] *)

Module JsMapFacts.
Section WithValues.
Context {V : Type}.
Implicit Types (m : JsMap.t V) (k : jsstring) (v : V).

Lemma get_set_eq m k v : JsMap.get (JsMap.set m k v) k = Some v.
Proof.
  induction m as [|[k' v'] m IH]; simpl.
  - by rewrite decide_True.
  - destruct (decide (k' = k)) as [->|Hne]; simpl.
    + by rewrite decide_True.
    + by rewrite decide_False.
Qed.

Lemma get_set_ne m k k' v : k <> k' -> JsMap.get (JsMap.set m k v) k' = JsMap.get m k'.
Proof.
  intros Hne. induction m as [|[k0 v0] m IH]; simpl.
  - by rewrite decide_False.
  - destruct (decide (k0 = k)) as [->|Hk]; simpl.
    + by rewrite !decide_False.
    + by rewrite IH.
Qed.

Lemma get_delete_eq m k : JsMap.get (JsMap.delete m k) k = None.
Proof.
  induction m as [|[k' v'] m IH]; simpl; [done|].
  destruct (decide (k' = k)) as [->|Hne]; simpl; [done|].
  by rewrite decide_False.
Qed.

Lemma get_delete_ne m k k' : k <> k' -> JsMap.get (JsMap.delete m k) k' = JsMap.get m k'.
Proof.
  intros Hne. induction m as [|[k0 v0] m IH]; simpl; [done|].
  destruct (decide (k0 = k)) as [->|Hk]; simpl.
  - by rewrite decide_False.
  - by rewrite IH.
Qed.

Lemma delete_absent m k : JsMap.get m k = None -> JsMap.delete m k = m.
Proof.
  induction m as [|[k' v'] m IH]; simpl; [done|].
  destruct (decide (k' = k)); [done|].
  intros H. by rewrite IH.
Qed.

Lemma get_None_keys m k : JsMap.get m k = None <-> k ∉ JsMap.keys m.
Proof.
  induction m as [|[k' v'] m IH]; simpl.
  - split; [intros _; apply not_elem_of_nil | done].
  - rewrite not_elem_of_cons. destruct (decide (k' = k)) as [->|Hne].
    + split; [done | intros [? _]; done].
    + rewrite IH. split; [intros ?; split; congruence | intros [_ ?]; done].
Qed.

Lemma keys_delete m k k' : k' ∈ JsMap.keys (JsMap.delete m k) -> k' ∈ JsMap.keys m.
Proof.
  induction m as [|[k0 v0] m IH]; simpl; [done|].
  destruct (decide (k0 = k)); simpl; rewrite ?elem_of_cons; intuition.
Qed.
End WithValues.
End JsMapFacts.

(** ** The session registry *)

Lemma removeSession_registry (r : SessionRegistry.t) (id : jsstring) :
  (SessionRegistry.removeSession id r).2 = JsMap.delete r id.
Proof.
  unfold SessionRegistry.removeSession.
  destruct (JsMap.get r id) eqn:Hget; simpl; [done|].
  symmetry. by apply JsMapFacts.delete_absent.
Qed.

(** C8. Removal is idempotent and cannot throw ([removeSession] is a total
    function whose result is the record or nothing): after [removeSession
    id] a [getSession id] finds nothing; removing again returns nothing and
    leaves the registry as it is; and so does removing an [id] the registry
    never held. *)
Theorem removeSession_idempotent (r : SessionRegistry.t) (id : jsstring) :
  let removed := SessionRegistry.removeSession id r in
  SessionRegistry.getSession id removed.2 = None /\
  SessionRegistry.removeSession id removed.2 = (None, removed.2) /\
  (SessionRegistry.getSession id r = None ->
   SessionRegistry.removeSession id r = (None, r)).
Proof.
  cbv zeta. rewrite removeSession_registry.
  assert (Hgone : JsMap.get (JsMap.delete r id) id = None)
    by apply JsMapFacts.get_delete_eq.
  split; [exact Hgone|]. split.
  - unfold SessionRegistry.removeSession. by rewrite Hgone.
  - unfold SessionRegistry.getSession, SessionRegistry.removeSession.
    by intros ->.
Qed.

(** The test of [session-registry.test.ts]: a created session is found,
    and is gone once removed. *)
Example removeSession_created :
  let created :=
    SessionRegistry.createSession (Js.lit "id-1") 0
      {| csp_host := Js.lit "127.0.0.1"; csp_port := 22;
         csp_username := Js.lit "root"; csp_client := 0 |}
      SessionRegistry.new in
  let removed := SessionRegistry.removeSession (Js.lit "id-1") created.2 in
  SessionRegistry.getSession (Js.lit "id-1") created.2 = Some created.1 /\
  removed.1 = Some created.1 /\
  SessionRegistry.listSessions removed.2 = [] /\
  (SessionRegistry.removeSession (Js.lit "id-1") removed.2).1 = None.
Proof. vm_compute. repeat split; reflexivity. Qed.

(** ** Command validation *)

Lemma trimStart_spec (s : jsstring) :
  exists pre,
    s = pre ++ Js.trimStart s /\ blank pre = true /\
    (forall c, head (Js.trimStart s) = Some c -> Js.is_white_space c = false).
Proof.
  induction s as [|c s (pre & Heq & Hpre & Hhead)]; simpl.
  - exists []. by repeat split.
  - destruct (Js.is_white_space c) eqn:Hc.
    + exists (c :: pre). simpl. rewrite Hc, Hpre. split; [by f_equal|done].
    + exists []. simpl. split; [done|]. split; [done|]. by intros ? [= <-].
Qed.

Lemma blank_app (a b : jsstring) : blank (a ++ b) = blank a && blank b.
Proof. apply forallb_app. Qed.

Lemma blank_rev (a : jsstring) : blank (rev a) = blank a.
Proof.
  induction a as [|c a IH]; simpl; [done|].
  rewrite blank_app, IH. simpl. rewrite andb_true_r. apply andb_comm.
Qed.

Lemma trimStart_blank (s : jsstring) : Js.trimStart s = [] <-> blank s = true.
Proof.
  induction s as [|c s IH]; simpl; [done|].
  destruct (Js.is_white_space c); simpl; [done|]. split; discriminate.
Qed.

Lemma last_rev_head {A} (l : list A) : last (rev l) = head l.
Proof. destruct l as [|a l]; simpl; [done|]. apply last_snoc. Qed.

Lemma trimEnd_spec (s : jsstring) :
  exists post,
    s = Js.trimEnd s ++ post /\ blank post = true /\
    (forall c, last (Js.trimEnd s) = Some c -> Js.is_white_space c = false).
Proof.
  unfold Js.trimEnd.
  destruct (trimStart_spec (rev s)) as (pre & Heq & Hpre & Hhead).
  exists (rev pre). split; [|split].
  - rewrite <- rev_app_distr, <- Heq. by rewrite rev_involutive.
  - by rewrite blank_rev.
  - intros c. rewrite last_rev_head. apply Hhead.
Qed.

Lemma trimEnd_head (s : jsstring) c :
  head s = Some c -> Js.is_white_space c = false -> head (Js.trimEnd s) = Some c.
Proof.
  intros Hhead Hc.
  destruct (trimEnd_spec s) as (post & Heq & Hpost & _).
  destruct (Js.trimEnd s) as [|d t] eqn:Ht.
  - simpl in Heq. subst post. destruct s as [|c' s]; [done|].
    simpl in Hhead, Hpost. injection Hhead as ->. by rewrite Hc in Hpost.
  - rewrite Heq in Hhead. exact Hhead.
Qed.

Lemma trim_spec (s : jsstring) : trimmed_of s (Js.trim s).
Proof.
  unfold Js.trim.
  destruct (trimStart_spec s) as (pre & Heq & Hpre & Hhead).
  destruct (trimEnd_spec (Js.trimStart s)) as (post & Heq' & Hpost & Hlast).
  exists pre, post. split; [by rewrite <- Heq'|]. repeat split; try done.
  intros c Hc.
  destruct (Js.trimStart s) as [|d t] eqn:Ht; [done|].
  specialize (Hhead d eq_refl).
  rewrite (trimEnd_head (d :: t) d eq_refl Hhead) in Hc. by injection Hc as <-.
Qed.

Lemma trim_blank (s : jsstring) : Js.trim s = [] <-> blank s = true.
Proof.
  destruct (trimStart_spec s) as (pre & Heq & Hpre & Hhead).
  unfold Js.trim. split.
  - intros Hnil. destruct (Js.trimStart s) as [|d t] eqn:Ht.
    + by apply trimStart_blank.
    + specialize (Hhead d eq_refl).
      pose proof (trimEnd_head (d :: t) d eq_refl Hhead) as Hd.
      by rewrite Hnil in Hd.
  - intros Hblank. apply trimStart_blank in Hblank. by rewrite Hblank.
Qed.

(** C5, as the code has it.  Validation trims first and measures what is
    left: it rejects an empty or white-space-only string, rejects a string
    whose trimmed text is longer than 1 000 characters, and otherwise
    returns the string without its leading and trailing white space. *)
Theorem sanitizeCommand_checks_trimmed (s : jsstring) :
  trimmed_of s (Js.trim s) /\
  (blank s = true ->
   sanitizeCommand (Js.VString s)
   = inl (Error (Js.lit "command cannot be empty"))) /\
  (blank s = false -> Js.length (Js.trim s) > COMMAND_MAX_CHARS ->
   sanitizeCommand (Js.VString s)
   = inl (Error (Js.lit "command exceeds 1000 characters"))) /\
  (blank s = false -> Js.length (Js.trim s) <= COMMAND_MAX_CHARS ->
   sanitizeCommand (Js.VString s) = inr (Js.trim s)).
Proof.
  split; [apply trim_spec|]. unfold sanitizeCommand.
  split; [|split].
  - intros Hblank. apply trim_blank in Hblank. by rewrite Hblank.
  - intros Hblank Hlong.
    destruct (Js.trim s) as [|c t] eqn:Ht.
    + assert (blank s = true) by by apply trim_blank. congruence.
    + simpl Js.falsy. cbv iota.
      destruct (Z.gtb_spec (Js.length (c :: t)) COMMAND_MAX_CHARS); [done|lia].
  - intros Hblank Hshort.
    destruct (Js.trim s) as [|c t] eqn:Ht.
    + assert (blank s = true) by by apply trim_blank. congruence.
    + simpl Js.falsy. cbv iota.
      destruct (Z.gtb_spec (Js.length (c :: t)) COMMAND_MAX_CHARS); [lia|done].
Qed.

(** C5 as stated fails: a command of 1 001 characters, one space and a
    thousand letters, is longer than 1 000 characters and is accepted,
    because only the thousand letters are measured. *)
Lemma sanitizeCommand_accepts_padded :
  let padded := 32 :: repeat 120 1000 in
  Js.length padded = 1001 /\
  sanitizeCommand (Js.VString padded) = inr (repeat 120 1000).
Proof. vm_compute. split; reflexivity. Qed.

(** The amended statement at that input and at the inputs of the tests. *)
Lemma sanitizeCommand_checks_trimmed_witness :
  sanitizeCommand (Js.VString (Js.lit "  echo ok  ")) = inr (Js.lit "echo ok") /\
  sanitizeCommand (Js.VString (Js.lit "   "))
  = inl (Error (Js.lit "command cannot be empty")) /\
  sanitizeCommand (Js.VString (repeat 120 1001))
  = inl (Error (Js.lit "command exceeds 1000 characters")).
Proof.
  split; [|split].
  - exact (proj2 (proj2 (proj2
      (sanitizeCommand_checks_trimmed (Js.lit "  echo ok  "))))
      eq_refl ltac:(vm_compute; discriminate)).
  - exact (proj1 (proj2 (sanitizeCommand_checks_trimmed (Js.lit "   ")))
      eq_refl).
  - exact (proj1 (proj2 (proj2
      (sanitizeCommand_checks_trimmed (repeat 120 1001))))
      eq_refl ltac:(vm_compute; reflexivity)).
Defined.

(** ** Bounded capture of command output *)

Section Capture.
Local Open Scope Z_scope.

Lemma length_firstn_Z (n : Z) (s : jsstring) :
  0 <= n -> Js.length (firstn (Z.to_nat n) s) = Z.min n (Js.length s).
Proof. intros Hn. unfold Js.length. rewrite length_firstn. lia. Qed.

Lemma length_nonneg (s : jsstring) : 0 <= Js.length s.
Proof. unfold Js.length. lia. Qed.

Lemma length_app_Z (a b : jsstring) :
  Js.length (a ++ b) = Js.length a + Js.length b.
Proof. unfold Js.length. rewrite length_app. lia. Qed.

(** The text kept of a stream is the first [CHARACTER_LIMIT] characters of
    what it emitted, and a chunk overflows when it takes the emitted text
    past the limit for the first time or again. *)
Lemma capture_firstn (raw chunk : jsstring) :
  let limit := Z.to_nat CHARACTER_LIMIT in
  let (text, overflow) := SshClient.capture (firstn limit raw) chunk in
  text = firstn limit (raw ++ chunk) /\
  (overflow = true -> Js.length (raw ++ chunk) > CHARACTER_LIMIT) /\
  (Js.length (raw ++ chunk) > CHARACTER_LIMIT ->
   overflow = true \/ Js.length raw > CHARACTER_LIMIT).
Proof.
  cbv zeta. unfold SshClient.capture.
  pose proof (length_firstn_Z CHARACTER_LIMIT raw ltac:(done)) as Hlen.
  rewrite length_app_Z.
  destruct (Z.gtb_spec (Js.length (firstn (Z.to_nat CHARACTER_LIMIT) raw)
                        + Js.length chunk) CHARACTER_LIMIT) as [Hover|Hfits].
  - split; [|split; [lia|by left]].
    unfold Js.slice0.
    destruct (Z.ltb_spec (CHARACTER_LIMIT
        - Js.length (firstn (Z.to_nat CHARACTER_LIMIT) raw)) 0); [lia|].
    rewrite firstn_app. do 2 f_equal.
    unfold Js.length in *. rewrite length_firstn in *. lia.
  - split; [|split; [done|intros; right; lia]].
    destruct (Z.le_gt_cases (Js.length raw) CHARACTER_LIMIT) as [Hraw|Hraw].
    + rewrite firstn_app.
      rewrite !firstn_all2 by (unfold Js.length in *; lia). done.
    + assert (chunk = []) as ->
        by (destruct chunk; [done|unfold Js.length in *; simpl in *; lia]).
      by rewrite !app_nil_r.
Qed.

Lemma settled_stays (T : Z) (events : list channel_event) st r :
  SshClient.st_settled st = Some r ->
  SshClient.st_settled (SshClient.run_events T events st) = Some r.
Proof.
  revert st. induction events as [|ev events IH]; intros st Hst; [done|].
  simpl. apply IH.
  destruct ev; simpl; repeat case_match; simpl; by rewrite ?Hst.
Qed.

Lemma run_events_resolved (T : Z) (events : list channel_event) st out err r :
  capturing st out err ->
  SshClient.st_settled (SshClient.run_events T events st) = Some (inr r) ->
  stdout r = firstn (Z.to_nat CHARACTER_LIMIT) (out ++ emitted_stdout events) /\
  stderr r = firstn (Z.to_nat CHARACTER_LIMIT) (err ++ emitted_stderr events) /\
  (truncated r = true <->
   Js.length (out ++ emitted_stdout events) > CHARACTER_LIMIT \/
   Js.length (err ++ emitted_stderr events) > CHARACTER_LIMIT).
Proof.
  revert st out err.
  induction events as [|ev events IH];
    intros st out err (Hout & Herr & Htrunc & Htimed & Hsettled) Hrun.
  { simpl in Hrun. congruence. }
  simpl in Hrun. destruct ev; simpl in Hrun |- *.
  - (* stdout *)
    rewrite Htimed in Hrun. rewrite Hout in Hrun.
    pose proof (capture_firstn out chunk) as Hcap. cbv zeta in Hcap.
    destruct (SshClient.capture _ chunk) as [text overflow].
    destruct Hcap as (Htext & Hover1 & Hover2).
    rewrite app_assoc. eapply IH; [|exact Hrun].
    pose proof (length_nonneg chunk).
    repeat split; simpl; try done;
      rewrite orb_true_iff, Htrunc; rewrite length_app_Z in *; intuition lia.
  - (* stderr *)
    rewrite Htimed in Hrun. rewrite Herr in Hrun.
    pose proof (capture_firstn err chunk) as Hcap. cbv zeta in Hcap.
    destruct (SshClient.capture _ chunk) as [text overflow].
    destruct Hcap as (Htext & Hover1 & Hover2).
    rewrite app_assoc. eapply IH; [|exact Hrun].
    pose proof (length_nonneg chunk).
    repeat split; simpl; try done;
      rewrite orb_true_iff, Htrunc; rewrite length_app_Z in *; intuition lia.
  - (* exit *)
    eapply IH; [|exact Hrun]. unfold capturing; simpl; tauto.
  - (* close *)
    rewrite Htimed in Hrun.
    erewrite settled_stays in Hrun; last first.
    { unfold SshClient.settle, SshClient.clearTimeout. simpl.
      rewrite Hsettled. reflexivity. }
    injection Hrun as <-. simpl. by rewrite !app_nil_r.
  - (* error *)
    rewrite Htimed in Hrun.
    erewrite settled_stays in Hrun; last first.
    { unfold SshClient.settle, SshClient.clearTimeout. simpl.
      rewrite Hsettled. reflexivity. }
    discriminate.
  - (* timer *)
    destruct (SshClient.st_timer st).
    + erewrite settled_stays in Hrun; last first.
      { unfold SshClient.settle. simpl. rewrite Hsettled. reflexivity. }
      discriminate.
    + eapply IH; [|exact Hrun]. unfold capturing; simpl; tauto.
Qed.

End Capture.

(** The result of a command that ran to its [close]: each stream holds the
    first 25 000 characters of what the channel wrote on it, and the flag
    tells whether either stream wrote more. *)
Lemma execCommand_captures (s : SshClient.t) (command : jsstring)
    (events : list channel_event) (r : ExecResult) :
  (SshClient.execCommand (ExecChannel events) command s).1 = Resolved r ->
  stdout r = firstn (Z.to_nat CHARACTER_LIMIT) (emitted_stdout events) /\
  stderr r = firstn (Z.to_nat CHARACTER_LIMIT) (emitted_stderr events) /\
  (truncated r = true <->
   Js.length (emitted_stdout events) > CHARACTER_LIMIT \/
   Js.length (emitted_stderr events) > CHARACTER_LIMIT).
Proof.
  unfold SshClient.execCommand.
  destruct (negb (SshClient.connected s)); [by intros|]. simpl.
  destruct (SshClient.st_settled _) as [[e|r0]|] eqn:Hrun; simpl;
    try (by intros).
  intros [= ->].
  eapply (run_events_resolved _ events SshClient.exec_start [] []); [|exact Hrun].
  unfold capturing. simpl. repeat split; try done.
  intros [H|H]; vm_compute in H; discriminate.
Qed.

Lemma emitted_stdout_before (before rest : list channel_event) :
  forallb output_only before = true ->
  emitted_stdout (before ++ Close :: rest) = emitted_stdout before.
Proof.
  induction before as [|ev before IH]; [done|].
  simpl. destruct ev; simpl; try done; intros H; by rewrite IH.
Qed.

Lemma emitted_stderr_before (before rest : list channel_event) :
  forallb output_only before = true ->
  emitted_stderr (before ++ Close :: rest) = emitted_stderr before.
Proof.
  induction before as [|ev before IH]; [done|].
  simpl. destruct ev; simpl; try done; intros H; by rewrite IH.
Qed.

(** A channel that writes and then closes settles the promise with a
    result, whatever the channel or the timer does afterwards. *)
Lemma execCommand_resolves (s : SshClient.t) (command : jsstring)
    (before rest : list channel_event) :
  SshClient.connected s = true ->
  forallb output_only before = true ->
  exists r,
    (SshClient.execCommand (ExecChannel (before ++ Close :: rest)) command s).1
    = Resolved r.
Proof.
  intros Hconn Hbefore. unfold SshClient.execCommand. rewrite Hconn. simpl.
  set (T := SshClient.nullish _ _).
  unfold SshClient.run_events. rewrite foldl_app. simpl.
  assert (forall st,
    SshClient.st_settled st = None -> SshClient.st_timedOut st = false ->
    SshClient.st_settled (foldl (fun st ev => SshClient.on_event T ev st)
                            st before) = None /\
    SshClient.st_timedOut (foldl (fun st ev => SshClient.on_event T ev st)
                             st before) = false) as Hquiet.
  { clear Hconn. induction before as [|ev before IH]; intros st Hs Ht; [done|].
    simpl in Hbefore. apply andb_true_iff in Hbefore as [Hev Hbefore].
    simpl. apply IH; [done| |];
      destruct ev; try discriminate; simpl; rewrite ?Ht;
      try destruct (SshClient.capture _ _); done. }
  destruct (Hquiet SshClient.exec_start eq_refl eq_refl) as [Hs Ht].
  set (st := foldl _ SshClient.exec_start before) in *.
  rewrite Ht.
  change (foldl _ ?a rest) with (SshClient.run_events T rest a).
  erewrite (settled_stays T rest _ (inr _)); [by eexists|].
  unfold SshClient.settle, SshClient.clearTimeout. simpl. by rewrite Hs.
Qed.

(** C1. A command whose channel writes and then closes gives a result,
    and when what it wrote on one stream exceeds 25 000 characters, that
    result has [truncated] set and holds exactly 25 000 characters of that
    stream; the one flag serves both streams, so that an overflow of
    [stderr] alone sets it as an overflow of [stdout] does. *)
Theorem execCommand_overflow_truncates (s : SshClient.t) (command : jsstring)
    (before rest : list channel_event) :
  SshClient.connected s = true ->
  forallb output_only before = true ->
  exists r,
    (SshClient.execCommand (ExecChannel (before ++ Close :: rest)) command s).1
    = Resolved r /\
    (Js.length (emitted_stdout before) > 25000 ->
     truncated r = true /\ Js.length (stdout r) = 25000) /\
    (Js.length (emitted_stderr before) > 25000 ->
     truncated r = true /\ Js.length (stderr r) = 25000).
Proof.
  intros Hconn Hbefore.
  destruct (execCommand_resolves s command before rest Hconn Hbefore)
    as [r Hrun].
  exists r. split; [exact Hrun|].
  destruct (execCommand_captures s command _ r Hrun)
    as (Hout & Herr & Htrunc).
  rewrite emitted_stdout_before in Hout, Htrunc by done.
  rewrite emitted_stderr_before in Herr, Htrunc by done.
  change 25000 with CHARACTER_LIMIT.
  split; intros Hover.
  - split; [apply Htrunc; by left|].
    rewrite Hout, length_firstn_Z by done. lia.
  - split; [apply Htrunc; by right|].
    rewrite Herr, length_firstn_Z by done. lia.
Qed.

Lemma execCommand_overflow_truncates_witness :
  Js.length (emitted_stdout overflowing_output) > 25000 /\
  exists r,
    (SshClient.execCommand (ExecChannel (overflowing_output ++ [Close]))
       (Js.lit "yes") overflowing_client).1 = Resolved r /\
    (Js.length (emitted_stdout overflowing_output) > 25000 ->
     truncated r = true /\ Js.length (stdout r) = 25000) /\
    (Js.length (emitted_stderr overflowing_output) > 25000 ->
     truncated r = true /\ Js.length (stderr r) = 25000).
Proof.
  split.
  - exact (@eq_refl _ Gt
           <: Js.length (emitted_stdout overflowing_output) > 25000).
  - exact (execCommand_overflow_truncates overflowing_client (Js.lit "yes")
             overflowing_output []
             (@eq_refl _ true <: SshClient.connected overflowing_client = true)
             (@eq_refl _ true <: forallb output_only overflowing_output = true)).
Defined.

(** The result of that command: the first chunk, and the second without
    its last character. *)
Example execCommand_overflow_result :
  (SshClient.execCommand (ExecChannel (overflowing_output ++ [Close]))
     (Js.lit "yes") overflowing_client).1 = Resolved overflowing_result.
Proof.
  exact (@eq_refl _ (Resolved overflowing_result)
         <: (SshClient.execCommand (ExecChannel (overflowing_output ++ [Close]))
               (Js.lit "yes") overflowing_client).1
            = Resolved overflowing_result).
Qed.

(** A command whose channel closes without a timeout resolves; one whose
    timer fires first rejects, whatever the channel does afterwards. *)
Example execCommand_echo :
  let s :=
    SshClient.set_connected true
      (SshClient.new 1
         {| cfg_host := []; cfg_port := 22; cfg_username := [];
            cfg_password := None; cfg_privateKey := None;
            cfg_privateKeyPath := None; cfg_passphrase := None;
            cfg_timeout := Some 500; cfg_connectTimeout := None |}) in
  (SshClient.execCommand
     (ExecChannel [StdoutData (Js.lit "ok"); Exit (Some 0); Close])
     (Js.lit "echo ok") s).1
  = Resolved {| stdout := Js.lit "ok"; stderr := []; exitCode := Some 0;
                truncated := false |} /\
  (SshClient.execCommand
     (ExecChannel [StdoutData (Js.lit "o"); Timer; StdoutData (Js.lit "k");
                   Exit (Some 0); Close])
     (Js.lit "sleep 10") s).1
  = Rejected (Error (Js.lit "Command execution timeout after 500ms")) /\
  (SshClient.execCommand (ExecChannel []) (Js.lit "echo test")
     (SshClient.set_connected false s)).1
  = Rejected (Error (Js.lit "Not connected")).
Proof. vm_compute. repeat split; reflexivity. Qed.

(** ** UTF-8 carries well-formed strings *)

Section Utf8Facts.
Local Open Scope Z_scope.
Import Utf8.

Lemma scalars_idle (b : Z) (rest : list Z) :
  scalars Idle (b :: rest) = (start b).1 ++ scalars (start b).2 rest.
Proof. simpl. by destruct (start b). Qed.

Lemma scalars_continue (cp remaining lower upper b : Z) (rest : list Z) :
  lower <= b <= upper ->
  scalars (Partial cp remaining lower upper) (b :: rest)
  = if remaining =? 1 then (cp * 64 + (b - 0x80)) :: scalars Idle rest
    else scalars (Partial (cp * 64 + (b - 0x80)) (remaining - 1) 0x80 0xBF) rest.
Proof.
  intros [Hlo Hhi]. simpl.
  destruct (Z.leb_spec lower b); [|lia].
  destruct (Z.leb_spec b upper); [|lia]. done.
Qed.

Ltac decide_tests :=
  repeat match goal with
  | |- context [Z.leb ?a ?b] => destruct (Z.leb_spec a b); try (exfalso; lia)
  | |- context [Z.ltb ?a ?b] => destruct (Z.ltb_spec a b); try (exfalso; lia)
  | |- context [Z.eqb ?a ?b] => destruct (Z.eqb_spec a b); try (exfalso; lia)
  end.

Lemma start_1 (b : Z) : b <= 0x7F -> start b = ([b], Idle).
Proof. intros. unfold start. by decide_tests. Qed.

Lemma start_2 (b : Z) :
  0xC2 <= b <= 0xDF -> start b = ([], Partial (b - 0xC0) 1 0x80 0xBF).
Proof. intros. unfold start. by decide_tests. Qed.

Lemma start_3 (b : Z) :
  0xE0 <= b <= 0xEF ->
  start b = ([], Partial (b - 0xE0) 2 (if b =? 0xE0 then 0xA0 else 0x80)
                   (if b =? 0xED then 0x9F else 0xBF)).
Proof.
  intros. unfold start.
  destruct (Z.leb_spec b 0x7F); [lia|].
  destruct (Z.leb_spec 0xC2 b); [|lia].
  destruct (Z.leb_spec b 0xDF); [lia|].
  destruct (Z.leb_spec 0xE0 b); [|lia].
  destruct (Z.leb_spec b 0xEF); [|lia]. done.
Qed.

Lemma start_4 (b : Z) :
  0xF0 <= b <= 0xF4 ->
  start b = ([], Partial (b - 0xF0) 3 (if b =? 0xF0 then 0x90 else 0x80)
                   (if b =? 0xF4 then 0x8F else 0xBF)).
Proof.
  intros. unfold start.
  destruct (Z.leb_spec b 0x7F); [lia|].
  destruct (Z.leb_spec 0xC2 b); [|lia].
  destruct (Z.leb_spec b 0xDF); [lia|].
  destruct (Z.leb_spec 0xE0 b); [|lia].
  destruct (Z.leb_spec b 0xEF); [lia|].
  destruct (Z.leb_spec 0xF0 b); [|lia].
  destruct (Z.leb_spec b 0xF4); [|lia]. done.
Qed.

Ltac dlia := Z.div_mod_to_equations; lia.

Ltac in_range := decide_tests; dlia.

Lemma scalars_encode_scalar (cp : Z) (rest : list Z) :
  scalar cp ->
  scalars Idle (encode_scalar cp ++ rest) = cp :: scalars Idle rest.
Proof.
  intros [[Hlo Hhi] Hsur]. unfold encode_scalar.
  destruct (Z.ltb_spec cp 0x80) as [H1|H1].
  { cbn [app]. rewrite scalars_idle, start_1 by lia. done. }
  destruct (Z.ltb_spec cp 0x800) as [H2|H2].
  { cbn [app]. rewrite scalars_idle, start_2 by dlia. cbn [fst snd app].
    rewrite scalars_continue by dlia. cbn [Z.eqb Pos.eqb]. f_equal. dlia. }
  destruct (Z.ltb_spec cp 0x10000) as [H3|H3].
  { cbn [app]. rewrite scalars_idle, start_3 by dlia. cbn [fst snd app].
    rewrite scalars_continue by in_range. cbn [Z.eqb Pos.eqb].
    rewrite scalars_continue by dlia.
    cbn [Z.eqb Pos.eqb Z.sub Z.add Z.opp Z.pos_sub Pos.pred_double].
    f_equal. dlia. }
  cbn [app]. rewrite scalars_idle, start_4 by dlia. cbn [fst snd app].
  rewrite scalars_continue by in_range. cbn [Z.eqb Pos.eqb].
  rewrite scalars_continue by dlia.
  cbn [Z.eqb Pos.eqb Z.sub Z.add Z.opp Z.pos_sub Pos.pred_double].
  rewrite scalars_continue by dlia.
  cbn [Z.eqb Pos.eqb Z.sub Z.add Z.opp Z.pos_sub Pos.pred_double].
  f_equal. dlia.
Qed.

Lemma is_high_spec (c : Z) : is_high c = true <-> 0xD800 <= c <= 0xDBFF.
Proof. unfold is_high. rewrite andb_true_iff, !Z.leb_le. done. Qed.

Lemma is_low_spec (c : Z) : is_low c = true <-> 0xDC00 <= c <= 0xDFFF.
Proof. unfold is_low. rewrite andb_true_iff, !Z.leb_le. done. Qed.

Lemma to_utf16_pair (c d : Z) :
  0xD800 <= c <= 0xDBFF -> 0xDC00 <= d <= 0xDFFF ->
  to_utf16 (0x10000 + (c - 0xD800) * 1024 + (d - 0xDC00)) = [c; d].
Proof.
  intros Hc Hd. unfold to_utf16.
  destruct (Z.ltb_spec (0x10000 + (c - 0xD800) * 1024 + (d - 0xDC00)) 0x10000);
    [lia|].
  f_equal; [|f_equal]; dlia.
Qed.

Lemma decode_encode_bounded (n : nat) (s : jsstring) :
  (List.length s <= n)%nat -> well_formed s = true -> decode (encode s) = s.
Proof.
  unfold decode. revert s.
  induction n as [|n IH]; intros s Hlen Hwf.
  { destruct s; [done|simpl in Hlen; lia]. }
  destruct s as [|c rest]; [done|].
  cbn [encode well_formed] in *.
  destruct (is_high c) eqn:Hc.
  - apply is_high_spec in Hc.
    destruct rest as [|d rest]; [done|].
    apply andb_true_iff in Hwf as [Hd Hwf]. rewrite Hd.
    apply is_low_spec in Hd.
    rewrite scalars_encode_scalar by (unfold scalar; lia).
    cbn [flat_map]. rewrite to_utf16_pair by done.
    rewrite IH; [done| simpl in Hlen; lia | done].
  - rewrite !andb_true_iff, !Z.leb_le, negb_true_iff in Hwf.
    destruct Hwf as [[[Hlo Hhi] Hlow] Hwf]. rewrite Hlow.
    assert (~ 0xDC00 <= c <= 0xDFFF) by (rewrite <- is_low_spec; congruence).
    assert (~ 0xD800 <= c <= 0xDBFF) by (rewrite <- is_high_spec; congruence).
    rewrite scalars_encode_scalar by (unfold scalar; lia).
    cbn [flat_map]. unfold to_utf16 at 1.
    destruct (Z.ltb_spec c 0x10000); [|lia].
    rewrite IH; [done| simpl in Hlen; lia | done].
Qed.

(** Decoding what was encoded gives the string back, for every string
    whose surrogates are paired. *)
Lemma decode_encode (s : jsstring) :
  well_formed s = true -> decode (encode s) = s.
Proof. by apply (decode_encode_bounded (List.length s)). Qed.

(** Seven-bit text is its own encoding. *)
Lemma encode_ascii (s : jsstring) :
  Forall (fun c => 0 <= c < 128) s -> encode s = s.
Proof.
  induction 1 as [|c s Hc _ IH]; [done|]. cbn [encode].
  assert (is_high c = false) as ->
    by (apply not_true_is_false; rewrite is_high_spec; lia).
  assert (is_low c = false) as ->
    by (apply not_true_is_false; rewrite is_low_spec; lia).
  unfold encode_scalar. destruct (Z.ltb_spec c 0x80); [|lia].
  by rewrite IH.
Qed.

Lemma decode_ascii (s : jsstring) :
  Forall (fun c => 0 <= c < 128) s -> decode s = s.
Proof.
  unfold decode. induction 1 as [|c s Hc _ IH]; [done|].
  rewrite scalars_idle, start_1 by lia. cbn [fst snd app flat_map].
  unfold to_utf16 at 1. destruct (Z.ltb_spec c 0x10000); [|lia].
  by rewrite IH.
Qed.

End Utf8Facts.

(** ** Writing a file and reading it back *)

Section RoundTrip.
Local Open Scope Z_scope.

Lemma encode_nonempty (text : jsstring) : text <> [] -> Utf8.encode text <> [].
Proof.
  destruct text as [|c rest]; [done|]. intros _. cbn [Utf8.encode].
  assert (forall cp l, Utf8.encode_scalar cp ++ l <> []) as Hne.
  { intros cp l. unfold Utf8.encode_scalar. by repeat case_match. }
  repeat case_match; try apply Hne.
  rewrite <- (app_nil_r (Utf8.encode_scalar _)). apply Hne.
Qed.

Lemma firstn_min_length {A} (n : Z) (l : list A) :
  0 <= n ->
  firstn (Z.to_nat (Z.min (Z.of_nat (List.length l)) n - 1 + 1 - 0)) l
  = firstn (Z.to_nat n) l.
Proof.
  intros Hn. destruct (Z.le_gt_cases (Z.of_nat (List.length l)) n).
  - rewrite !firstn_all2 by lia. done.
  - f_equal. lia.
Qed.

(** C2, as the code has it.  The budget of [readFile] counts octets of the
    UTF-8 encoding, not characters.  After [writeFile(path, text)] of a
    non-empty [text], [readFile(path)] reports as [size] the full octet
    length of the file, sets [truncated] exactly when that length exceeds
    25 000, and returns the decoding of the first 25 000 octets: that is
    [text] unchanged when its encoding fits in 25 000 octets and its
    surrogates are paired, and for seven-bit text, whose octets are its
    characters, the first 25 000 characters. *)
Theorem writeFile_then_readFile (s : SftpClient.t) (srv : Server.t)
    (path text : jsstring) :
  SftpClient.sftp s = true ->
  text <> [] ->
  let octets := Utf8.encode text in
  let written := SftpClient.writeFile path text srv s in
  exists w r,
    written.1 = Resolved w /\
    write_size w = Z.of_nat (List.length octets) /\
    SftpClient.readFile path CHARACTER_LIMIT written.2 s = Resolved r /\
    read_size r = Z.of_nat (List.length octets) /\
    read_truncated r = (Z.of_nat (List.length octets) >? 25000) /\
    content r = Utf8.decode (firstn (Z.to_nat 25000) octets) /\
    (Z.of_nat (List.length octets) <= 25000 ->
     Utf8.well_formed text = true -> content r = text) /\
    (Forall (fun c => 0 <= c < 128) text ->
     read_size r = Js.length text /\
     content r = firstn (Z.to_nat 25000) text).
Proof.
  intros Hsftp Htext. cbv zeta.
  pose proof (encode_nonempty text Htext) as Hne.
  assert (0 < Z.of_nat (List.length (Utf8.encode text))) as Hpos
    by (destruct (Utf8.encode text); [done|simpl; lia]).
  unfold SftpClient.writeFile, SftpClient.readFile, SftpClient.stat,
    SftpClient.stat_of, SftpClient.ensureSftp, Server.createWriteStream,
    Server.stat, Server.createReadStream.
  rewrite Hsftp. cbn [fst snd]. rewrite !lookup_insert_eq.
  eexists _, _. split; [reflexivity|]. split; [reflexivity|].
  set (f := match srv !! path with Some _ => _ | None => _ end).
  assert (Server.f_data f = Utf8.encode text) as Hdata
    by (subst f; by destruct (srv !! path)).
  cbn [size]. rewrite !Hdata.
  destruct (Z.gtb_spec 0 (Z.min (Z.of_nat (List.length (Utf8.encode text)))
                            CHARACTER_LIMIT - 1)) as [Hbad|_];
    [unfold CHARACTER_LIMIT in Hbad; lia|].
  change (0 <? 0) with false. cbv iota.
  split; [reflexivity|]. cbn [read_size read_truncated content].
  change (Z.to_nat 0) with 0%nat. cbn [skipn concat]. rewrite app_nil_r.
  rewrite (firstn_min_length CHARACTER_LIMIT) by done.
  change CHARACTER_LIMIT with 25000.
  split; [done|]. split; [done|]. split; [done|]. split.
  - intros Hfits Hwf.
    rewrite firstn_all2
      by (apply Nat2Z.inj_le; rewrite Z2Nat.id by done; exact Hfits).
    by apply decode_encode.
  - intros Hascii. rewrite (encode_ascii text Hascii). split; [done|].
    apply decode_ascii. by apply Forall_take.
Qed.

End RoundTrip.

(** C2 as stated fails: a text of 12 501 characters, well within 25 000,
    does not come back unchanged.  Each of its characters takes two octets,
    the file has 25 002 of them, and [readFile] returns the first 12 500
    characters with [truncated] set. *)
Lemma readFile_budget_counts_octets :
  Js.length accented = 12501 /\
  SftpClient.readFile note_path CHARACTER_LIMIT
    (SftpClient.writeFile note_path accented ∅ open_channel).2 open_channel
  = Resolved {| read_path := note_path;
                content := repeat 0xE9 (Z.to_nat 12500);
                read_size := 25002;
                read_truncated := true |}.
Proof.
  split; vm_compute; reflexivity.
Qed.

Lemma writeFile_then_readFile_witness :
  exists w r,
    (SftpClient.writeFile note_path short_text ∅ open_channel).1 = Resolved w /\
    write_size w = Z.of_nat (List.length (Utf8.encode short_text)) /\
    SftpClient.readFile note_path CHARACTER_LIMIT
      (SftpClient.writeFile note_path short_text ∅ open_channel).2 open_channel
    = Resolved r /\
    read_size r = Z.of_nat (List.length (Utf8.encode short_text)) /\
    read_truncated r
    = (Z.of_nat (List.length (Utf8.encode short_text)) >? 25000) /\
    content r = Utf8.decode (firstn (Z.to_nat 25000) (Utf8.encode short_text)) /\
    (Z.of_nat (List.length (Utf8.encode short_text)) <= 25000 ->
     Utf8.well_formed short_text = true -> content r = short_text) /\
    (Forall (fun c => 0 <= c < 128) short_text ->
     read_size r = Js.length short_text /\
     content r = firstn (Z.to_nat 25000) short_text).
Proof.
  exact (writeFile_then_readFile open_channel ∅ note_path short_text eq_refl
           ltac:(discriminate)).
Defined.

(** What the round trip of [short_text] yields. *)
Example readFile_short_text :
  SftpClient.readFile note_path CHARACTER_LIMIT
    (SftpClient.writeFile note_path short_text ∅ open_channel).2 open_channel
  = Resolved {| read_path := note_path; content := short_text;
                read_size := 10; read_truncated := false |}.
Proof. vm_compute. reflexivity. Qed.

(** An empty file is the one that cannot be read back: the last offset
    asked for is [-1], below the first, and the stream is not made. *)
Example readFile_empty_file :
  SftpClient.readFile note_path CHARACTER_LIMIT
    (SftpClient.writeFile note_path [] ∅ open_channel).2 open_channel
  = Rejected (Error (Js.lit "start must be <= end")).
Proof. vm_compute. reflexivity. Qed.

(** ** The order of a directory listing *)

Section SortFacts.
Context {A : Type} (compare : A -> A -> Z).
Hypothesis compare_swap : forall a b, Z.sgn (compare b a) = - Z.sgn (compare a b).
Hypothesis compare_trans :
  forall a b c, compare a b <= 0 -> compare b c <= 0 -> compare a c <= 0.






End SortFacts.


Lemma code_unit_compare_swap (a b : jsstring) :
  Z.sgn (code_unit_compare b a) = - Z.sgn (code_unit_compare a b).
Proof.
  revert b. induction a as [|x a IH]; intros [|y b]; simpl; try done.
  destruct (Z.ltb_spec x y), (Z.ltb_spec y x); try done; try lia.
Qed.

Lemma code_unit_compare_trans (a b c : jsstring) :
  code_unit_compare a b <= 0 -> code_unit_compare b c <= 0 ->
  code_unit_compare a c <= 0.
Proof.
  revert b c. induction a as [|x a IH]; intros [|y b] [|z c]; simpl;
    try done; try lia.
  destruct (Z.ltb_spec x y), (Z.ltb_spec y x), (Z.ltb_spec y z),
    (Z.ltb_spec z y), (Z.ltb_spec x z), (Z.ltb_spec z x);
    try lia; try done.
  apply IH.
Qed.

Lemma code_unit_compare_eq (a b : jsstring) :
  code_unit_compare a b = 0 -> a = b.
Proof.
  revert b. induction a as [|x a IH]; intros [|y b]; simpl; try done.
  destruct (Z.ltb_spec x y), (Z.ltb_spec y x); try done.
  intros Heq. f_equal; [lia|by apply IH].
Qed.


Lemma collate_consistent : consistent collate.
Proof.
  split; intros; unfold collate in *.
  - apply code_unit_compare_swap.
  - by eapply code_unit_compare_trans.
Qed.

Section ListDirectory.
Context (localeCompare : jsstring -> jsstring -> Z).
Hypothesis localeCompare_consistent : consistent localeCompare.





End ListDirectory.


(** The listing of the sample: the two directories by name, then the two
    files by name. *)
Example listDirectory_sample :
  SftpClient.listDirectory code_unit_compare (Answers sample_listing)
    (Js.lit "/srv") open_channel = Resolved sample_result.
Proof. reflexivity. Qed.


(** ** The orchestrator: what a rejected request leaves behind *)

Section Rejections.
Import SshToolHandlers.
Local Arguments Js.lit : simpl never.
Local Arguments Js.of_number : simpl never.

(** Resolving the session identifier reads the fields and writes none. *)
Lemma getEffectiveSessionId_reads (session_id : option jsstring)
    (h : SshToolHandlers.t) :
  (exists id, getEffectiveSessionId session_id h = (Resolved id, h)) \/
  (exists e, getEffectiveSessionId session_id h = (Rejected e, h)).
Proof.
  unfold getEffectiveSessionId, mbind, M_bind, read, throw, mret, M_ret.
  destruct (negb (Js.absent session_id)); [by left; eexists|].
  destruct (negb (Js.absent (defaultSessionId h)));
    [by left; eexists|by right; eexists].
Qed.

Lemma parsed_inr {A} (issues : list zod_issue) (value validated : A) :
  parsed issues value = inr validated -> issues = [] /\ validated = value.
Proof. destruct issues; simpl; [|done]. by intros [= ->]. Qed.

(** C7, as the code has it.  A connect request that supplies no password,
    no private key and no private-key path (or supplies them empty) is
    rejected, and nothing has happened by then: the fields of the handler,
    the trace of transport calls among them, are as they were.  The error
    is the one whose message mentions "authentication" when the request
    passes the parameter schema, which is checked first; otherwise it is
    the schema's error. *)
Theorem connect_requires_authentication (env : connect_env)
    (params : ConnectParams) (h : SshToolHandlers.t) :
  Js.absent (password params) = true ->
  Js.absent (private_key params) = true ->
  Js.absent (private_key_path params) = true ->
  exists e,
    connect env params h = (Rejected e, h) /\
    match ConnectParamsSchema params with
    | inr _ =>
        e = Error (Js.lit
          "At least one authentication method is required (password, private_key, or private_key_path)") /\
        Js.includes (Js.lit "authentication") (error_message e) = true
    | inl refused => e = refused
    end.
Proof.
  intros Hpassword Hkey Hpath.
  unfold connect, mbind, M_bind, lift.
  destruct (ConnectParamsSchema params) as [refused|validated] eqn:Hparse;
    cbn [of_result]; [by eexists|].
  eexists. split; [|split; [reflexivity|by vm_compute]].
  apply parsed_inr in Hparse as [_ ->].
  cbn [password private_key private_key_path].
  by rewrite Hpassword, Hkey, Hpath.
Qed.

Lemma connect_requires_authentication_witness :
  exists e,
    connect test_env (test_params None None) fresh = (Rejected e, fresh) /\
    e = Error (Js.lit
      "At least one authentication method is required (password, private_key, or private_key_path)") /\
    Js.includes (Js.lit "authentication") (error_message e) = true.
Proof.
  exact (connect_requires_authentication test_env (test_params None None)
           fresh eq_refl eq_refl eq_refl).
Defined.

(** C7 as stated fails for a request that the schema refuses: with an empty
    host and no authentication method, [connect] is rejected before any
    transport call, but with the schema's error, whose message speaks of
    the host and not of authentication. *)
Lemma connect_schema_error_first :
  let params :=
    {| host := []; port := Some 2222; username := Js.lit "testuser";
       password := None; private_key := None; private_key_path := None;
       passphrase := None; timeout := None; connect_timeout := None |} in
  let e := ZodError [ZodIssue "host" "host is required"] in
  connect test_env params fresh = (Rejected e, fresh) /\
  Js.includes (Js.lit "authentication") (error_message e) = false.
Proof. vm_compute. split; reflexivity. Qed.

(** C10. An [exec] whose command fails validation is rejected and leaves
    every field of the handler as it was, the registry with the session's
    record and its [lastUsedAt] among them: [touchSession] comes after
    [sanitizeCommand] in the method, and a throw before it ends the
    method. *)
Theorem exec_rejected_command_untouched (now : Date) (answer : exec_reply)
    (params : ExecParams) (h : SshToolHandlers.t) (e : js_error) :
  sanitizeCommand (Js.VString (command params)) = inl e ->
  exists err, exec now answer params h = (Rejected err, h).
Proof.
  intros Hcommand.
  unfold exec, mbind, M_bind, lift.
  destruct (ExecParamsSchema params) as [err|validated] eqn:Hparse;
    cbn [of_result]; [by eexists|].
  apply parsed_inr in Hparse as [_ ->].
  destruct (getEffectiveSessionId_reads (exec_session_id params) h)
    as [[id ->]|[err ->]]; [|by eexists].
  unfold read, throw.
  destruct (SessionRegistry.getSession id (registry h)); [|by eexists].
  destruct (clients h !! id); [|by eexists].
  rewrite Hcommand. by eexists.
Qed.

Lemma exec_rejected_command_untouched_witness :
  exists err,
    exec 1768694460000 (ExecChannel [])
      {| exec_session_id := Some (uuid test_env); command := Js.lit "   ";
         exec_timeout := None |} connected_once
    = (Rejected err, connected_once).
Proof.
  exact (exec_rejected_command_untouched 1768694460000 (ExecChannel [])
           {| exec_session_id := Some (uuid test_env);
              command := Js.lit "   "; exec_timeout := None |}
           connected_once (Error (Js.lit "command cannot be empty")) eq_refl).
Defined.

(** An accepted command does touch the session. *)
Example exec_touches_session :
  let ran :=
    exec 1768694460000
      (ExecChannel [StdoutData (Js.lit "hello"); Exit (Some 0); Close])
      {| exec_session_id := Some (uuid test_env);
         command := Js.lit " echo hello "; exec_timeout := None |}
      connected_once in
  lastUsedAt <$> SessionRegistry.getSession (uuid test_env)
                   (registry connected_once) = Some None /\
  ran.1 = Resolved {| stdout := Js.lit "hello"; stderr := [];
                      exitCode := Some 0; truncated := false |} /\
  lastUsedAt <$> SessionRegistry.getSession (uuid test_env) (registry ran.2)
  = Some (Some 1768694460000) /\
  wire ran.2
  = wire connected_once ++ [WExec 1 (Js.lit "echo hello") 30000].
Proof. vm_compute. repeat split; reflexivity. Qed.

(** *** The connect timeout *)

Lemma connectConfig_readyTimeout readFileSync cfg connectTimeout cc :
  SshClient.connectConfig readFileSync cfg connectTimeout = inr cc ->
  readyTimeout cc = connectTimeout.
Proof.
  unfold SshClient.connectConfig.
  repeat case_match; intros; by simplify_eq.
Qed.

Lemma SshClient_connect_timer readFileSync handshake (s : SshClient.t)
    c cc timer :
  In (WConnect c cc timer) (SshClient.connect readFileSync handshake s).2 ->
  timer = default DEFAULT_CONNECT_TIMEOUT (cfg_connectTimeout (SshClient.config s))
  /\ readyTimeout cc = timer.
Proof.
  unfold SshClient.connect, SshClient.nullish.
  destruct (SshClient.connectConfig _ _ _) as [e|cc'] eqn:Hcc; [done|].
  apply connectConfig_readyTimeout in Hcc.
  destruct (handshake _ _); cbn [snd In]; intros Hin;
    repeat destruct Hin as [Hin|Hin]; by simplify_eq.
Qed.

Lemma in_range_nil (path : string) (lo hi n : Z) :
  in_range path lo hi n = [] <-> lo <= n <= hi.
Proof.
  unfold in_range.
  destruct (Z.ltb_spec n lo), (Z.gtb_spec n hi); simpl; split;
    intros; try done; lia.
Qed.

Lemma ConnectParamsSchema_inr (params validated : ConnectParams) :
  ConnectParamsSchema params = inr validated ->
  connect_timeout validated = connect_timeout params /\
  1000 <= default DEFAULT_CONNECT_TIMEOUT (connect_timeout params) <= 60000.
Proof.
  unfold ConnectParamsSchema. intros [Hnil ->]%parsed_inr. split; [done|].
  repeat apply app_eq_nil in Hnil as [_ Hnil].
  destruct (connect_timeout params) as [t|]; simpl in *.
  - by apply in_range_nil in Hnil.
  - unfold DEFAULT_CONNECT_TIMEOUT; lia.
Qed.

Lemma ConnectParamsSchema_out_of_range (params : ConnectParams) (t : Z) :
  connect_timeout params = Some t -> t < 1000 \/ 60000 < t ->
  exists issues, ConnectParamsSchema params = inl (ZodError issues).
Proof.
  intros Ht Hout.
  destruct (ConnectParamsSchema params) as [e|validated] eqn:Hparse.
  - unfold ConnectParamsSchema, parsed in Hparse.
    case_match; [done|]. injection Hparse as <-. by eexists.
  - apply ConnectParamsSchema_inr in Hparse as [_ Hrange].
    rewrite Ht in Hrange. simpl in Hrange. lia.
Qed.

(** The transport calls of one [connect]: none, or those of the
    [SshClient.connect] it awaits. *)
Lemma connect_wire (env : connect_env) (params : ConnectParams)
    (h : SshToolHandlers.t) :
  exists events,
    wire (connect env params h).2 = wire h ++ events /\
    (events = [] \/
     exists validated,
       ConnectParamsSchema params = inr validated /\
       events = (SshClient.connect (readFileSync env) (handshake env)
                   (SshClient.new (new_client env) (clientConfig validated))).2).
Proof.
  unfold connect, mbind, M_bind, lift.
  destruct (ConnectParamsSchema params) as [e|validated] eqn:Hparse;
    cbn [of_result].
  { exists []. by rewrite app_nil_r; auto. }
  destruct (_ && _).
  { exists []. by rewrite app_nil_r; auto. }
  destruct (SshClient.connect _ _ _) as [[settled client] events] eqn:Hrun.
  exists events. split; [|right; exists validated; by rewrite Hrun].
  unfold write, emit, throw, await, mret, M_ret.
  by destruct settled.
Qed.

(** C3, as the code has it.  The schema does not clamp the connect timeout,
    it refuses a value outside [[1 000, 60 000]]: such a [connect] is
    rejected with the schema's error and nothing is asked of the transport.
    Every handshake that [connect] does start is raced against the
    supplied value unchanged, or against 10 000 ms when none is supplied,
    and that timer lies within [[1 000, 60 000]]. *)
Theorem connect_timeout_validated (env : connect_env) (params : ConnectParams)
    (h : SshToolHandlers.t) :
  (forall t, connect_timeout params = Some t -> t < 1000 \/ 60000 < t ->
     exists issues, connect env params h = (Rejected (ZodError issues), h)) /\
  (exists events,
     wire (connect env params h).2 = wire h ++ events /\
     forall c cc timer, In (WConnect c cc timer) events ->
       timer = default 10000 (connect_timeout params) /\
       readyTimeout cc = timer /\ 1000 <= timer <= 60000).
Proof.
  split.
  - intros t Ht Hout.
    destruct (ConnectParamsSchema_out_of_range params t Ht Hout)
      as [issues Hparse].
    exists issues. unfold connect, mbind, M_bind, lift. by rewrite Hparse.
  - destruct (connect_wire env params h)
      as (events & Hwire & [->|(validated & Hparse & ->)]).
    + by exists [].
    + eexists. split; [exact Hwire|]. intros c cc timer Hin.
      apply SshClient_connect_timer in Hin as [-> Hready].
      apply ConnectParamsSchema_inr in Hparse as [Hsame Hrange].
      cbn [SshClient.config SshClient.new clientConfig cfg_connectTimeout] in *.
      rewrite Hsame in *. done.
Qed.

(** C3 as stated fails: a connect timeout of 500 ms is not raised to
    1 000 ms.  The handler rejects the request and starts no handshake;
    and a transport session configured with 500 ms directly races its
    handshake against 500 ms. *)
Lemma connect_timeout_not_clamped :
  let params := test_params (Some (Js.lit "testpass")) (Some 500) in
  clamp 1000 60000 500 = 1000 /\
  connect test_env params fresh
  = (Rejected (ZodError
       [ZodIssue "connect_timeout"
          "Number must be greater than or equal to 1000"]), fresh) /\
  (SshClient.connect (readFileSync test_env) (handshake test_env)
     (SshClient.new 1 (clientConfig params))).2
  = [WConnect 1
       {| cc_host := Js.lit "127.0.0.1"; cc_port := 2222;
          cc_username := Js.lit "testuser"; readyTimeout := 500;
          cc_password := Some (Js.lit "testpass"); cc_privateKey := None;
          cc_passphrase := None |} 500].
Proof. vm_compute. repeat split; reflexivity. Qed.

(** A supplied timeout within the range, and no timeout supplied. *)
Example connect_timeout_used :
  wire (connect test_env (test_params (Some (Js.lit "testpass")) (Some 5000))
          fresh).2
  = [WConnect 1
       {| cc_host := Js.lit "127.0.0.1"; cc_port := 2222;
          cc_username := Js.lit "testuser"; readyTimeout := 5000;
          cc_password := Some (Js.lit "testpass"); cc_privateKey := None;
          cc_passphrase := None |} 5000] /\
  wire (connect test_env (test_params (Some (Js.lit "wrongpassword")) None)
          fresh).2
  = [WConnect 1
       {| cc_host := Js.lit "127.0.0.1"; cc_port := 2222;
          cc_username := Js.lit "testuser"; readyTimeout := 10000;
          cc_password := Some (Js.lit "wrongpassword"); cc_privateKey := None;
          cc_passphrase := None |} 10000].
Proof. vm_compute. split; reflexivity. Qed.

End Rejections.

(** ** The orchestrator: what every request keeps true *)

Section Triples.
Import SshToolHandlers.
Local Arguments Js.lit : simpl never.
Local Arguments Js.of_number : simpl never.

Section Rules.
Context (always : SshToolHandlers.t -> Prop).

Lemma triple_bind {A B} pre (mid : A -> SshToolHandlers.t -> Prop) post
    (m : M A) (k : A -> M B) :
  triple always pre m mid -> (forall a, triple always (mid a) (k a) post) ->
  triple always pre (m ≫= k) post.
Proof.
  intros Hm Hk h Hpre. destruct (Hm h Hpre) as [Hstep Hmid].
  unfold mbind, M_bind.
  destruct (m h) as [[a|e|] h'] eqn:Hmh; cbn [fst snd] in *; try done.
  apply (Hk a). by apply Hmid.
Qed.

Lemma triple_ret {A} (pre : SshToolHandlers.t -> Prop) post (a : A) :
  (forall h, pre h -> always h /\ post a h) -> triple always pre (mret a) post.
Proof.
  intros H h Hpre. destruct (H h Hpre). split; [done|].
  by intros ? [= <-].
Qed.

Lemma triple_read {A} (pre : SshToolHandlers.t -> Prop) post
    (f : SshToolHandlers.t -> A) :
  (forall h, pre h -> always h /\ post (f h) h) ->
  triple always pre (read f) post.
Proof.
  intros H h Hpre. destruct (H h Hpre). split; [done|].
  by intros ? [= <-].
Qed.

Lemma triple_write (pre : SshToolHandlers.t -> Prop) post
    (f : SshToolHandlers.t -> SshToolHandlers.t) :
  (forall h, pre h -> always (f h) /\ post tt (f h)) ->
  triple always pre (write f) post.
Proof.
  intros H h Hpre. destruct (H h Hpre). split; [done|].
  by intros ? [= <-].
Qed.

Lemma triple_await {A} (pre : SshToolHandlers.t -> Prop) post
    (settled : outcome A) :
  (forall h, pre h ->
     always h /\ forall a, settled = Resolved a -> post a h) ->
  triple always pre (await settled) post.
Proof. intros H h Hpre. exact (H h Hpre). Qed.

Lemma triple_throw {A} (pre : SshToolHandlers.t -> Prop)
    (post : A -> SshToolHandlers.t -> Prop) (e : js_error) :
  (forall h, pre h -> always h) -> triple always pre (throw e) post.
Proof. intros H h Hpre. split; [by apply H|done]. Qed.

Lemma triple_lift {A} (pre : SshToolHandlers.t -> Prop) post (r : result A) :
  (forall h, pre h -> always h /\ forall a, r = inr a -> post a h) ->
  triple always pre (lift r) post.
Proof.
  intros H h Hpre. destruct (H h Hpre) as [? Hpost]. split; [done|].
  unfold lift. destruct r; cbn; [done|]. intros ? [= <-]. by apply Hpost.
Qed.

Lemma triple_try_catch {A} pre post (body : M A) (handler : js_error -> M A) :
  triple always pre body post ->
  (forall e, triple always always (handler e) post) ->
  triple always pre (try_catch body handler) post.
Proof.
  intros Hbody Hhandler h Hpre. destruct (Hbody h Hpre) as [Hstep Hpost].
  unfold try_catch.
  destruct (body h) as [[a|e|] h'] eqn:Hbh; cbn [fst snd] in *; try done.
  by apply Hhandler.
Qed.

End Rules.

Lemma triple_weaken {A} (always always' pre pre' : SshToolHandlers.t -> Prop)
    (post post' : A -> SshToolHandlers.t -> Prop) (m : M A) :
  triple always pre m post ->
  (forall h, always h -> always' h) -> (forall h, pre' h -> pre h) ->
  (forall a h, post a h -> post' a h) -> triple always' pre' m post'.
Proof.
  intros Hm Halways Hpre Hpost h Hh.
  destruct (Hm h (Hpre h Hh)) as [? H].
  split; [by apply Halways|]. intros a Ha. by apply Hpost, H.
Qed.

Lemma keeps_bind {A B} (m : M A) (k : A -> M B) :
  keeps m -> (forall a, keeps (k a)) -> keeps (m ≫= k).
Proof. intros Hm Hk. eapply triple_bind; [exact Hm|exact Hk]. Qed.

Lemma keeps_ret {A} (a : A) : keeps (mret a).
Proof. by apply triple_ret. Qed.

Lemma keeps_read {A} (f : SshToolHandlers.t -> A) : keeps (read f).
Proof. by apply triple_read. Qed.

Lemma keeps_write (f : SshToolHandlers.t -> SshToolHandlers.t) :
  (forall h, in_step h -> in_step (f h)) -> keeps (write f).
Proof. intros H. apply triple_write. intros h Hh. split; by apply H. Qed.

Lemma keeps_await {A} (settled : outcome A) : keeps (await settled).
Proof. by apply triple_await. Qed.

Lemma keeps_throw {A} (e : js_error) : keeps (throw (A := A) e).
Proof. by apply triple_throw. Qed.

Lemma keeps_lift {A} (r : result A) : keeps (lift r).
Proof. by apply triple_lift. Qed.

Lemma keeps_try_catch {A} (body : M A) (handler : js_error -> M A) :
  keeps body -> (forall e, keeps (handler e)) -> keeps (try_catch body handler).
Proof. intros. by apply triple_try_catch. Qed.

Lemma keeps_for_of {A} (l : list A) (body : A -> M unit) :
  (forall x, keeps (body x)) -> keeps (for_of l body).
Proof.
  intros Hbody. induction l as [|x l IH]; simpl.
  - apply keeps_ret.
  - apply keeps_bind; [apply Hbody|by intros].
Qed.

(** *** The registry stays keyed *)

Lemma keyed_set (r : SessionRegistry.t) k v :
  keyed r -> sessionId v = k -> keyed (JsMap.set r k v).
Proof.
  intros Hr Hv. induction Hr as [|[k' v'] r Hkv Hr IH]; simpl.
  - by repeat constructor.
  - destruct (decide (k' = k)) as [->|]; constructor; done.
Qed.

Lemma keyed_delete (r : SessionRegistry.t) k : keyed r -> keyed (JsMap.delete r k).
Proof.
  induction 1 as [|[k' v'] r Hkv Hr IH]; simpl; [constructor|].
  destruct (decide (k' = k)); [done|by constructor].
Qed.

Lemma keyed_get (r : SessionRegistry.t) k v :
  keyed r -> JsMap.get r k = Some v -> sessionId v = k.
Proof.
  induction 1 as [|[k' v'] r Hkv Hr IH]; simpl; [done|].
  destruct (decide (k' = k)) as [<-|]; [|done]. by intros [= <-].
Qed.

Lemma keyed_touch (r : SessionRegistry.t) id now :
  keyed r -> keyed (SessionRegistry.touchSession id now r).
Proof.
  intros Hr. unfold SessionRegistry.touchSession.
  destruct (JsMap.get r id) as [record|] eqn:Hget; [|done].
  apply keyed_set; [done|]. simpl. by eapply keyed_get.
Qed.

Lemma keyed_remove (r : SessionRegistry.t) id :
  keyed r -> keyed (SessionRegistry.removeSession id r).2.
Proof. rewrite removeSession_registry. apply keyed_delete. Qed.

(** *** The methods *)

Lemma keeps_touch now id : keeps (touch now id).
Proof.
  apply keeps_write. intros h [Hdom Hkeyed]. split; [done|].
  by apply keyed_touch.
Qed.

Lemma keeps_getEffectiveSessionId session_id :
  keeps (getEffectiveSessionId session_id).
Proof.
  unfold getEffectiveSessionId.
  destruct (negb _); [apply keeps_ret|].
  apply keeps_bind; [apply keeps_read|]. intros d.
  destruct (negb _); [apply keeps_ret|apply keeps_throw].
Qed.

(** A transfer channel is made only under a key of [clients]. *)
Lemma keeps_getSftpClient opened sessionId :
  keeps (getSftpClient opened sessionId).
Proof.
  intros h Hstep. pose proof Hstep as [Hdom Hkeyed].
  unfold getSftpClient, mbind, M_bind, read, write, throw, await, mret, M_ret.
  destruct (sftpClients h !! sessionId); [by split|].
  destruct (clients h !! sessionId) as [sshClient|] eqn:Hclient; [|by split].
  destruct (SftpClient.init _ _) as [[settled sftpClient] events].
  destruct settled; cbn [fst snd]; try (by split).
  assert (in_step (set_sftpClients
            (<[sessionId:=sftpClient]> (sftpClients (emit events h)))
            (emit events h))); [|by split].
  split; [|done]. simpl.
  rewrite dom_insert_L. apply elem_of_dom_2 in Hclient.
  intros x [->%elem_of_singleton|Hx]%elem_of_union; [done|by apply Hdom].
Qed.

Lemma keeps_with_sftp now opened session_id :
  keeps (with_sftp now opened session_id).
Proof.
  unfold with_sftp.
  apply keeps_bind; [apply keeps_getEffectiveSessionId|]. intros id.
  apply keeps_bind; [apply keeps_getSftpClient|]. intros c.
  apply keeps_bind; [apply keeps_touch|]. intros _. apply keeps_ret.
Qed.

Lemma keeps_connect env params : keeps (connect env params).
Proof.
  unfold connect.
  apply keeps_bind; [apply keeps_lift|]. intros validated.
  destruct (_ && _); [apply keeps_throw|].
  destruct (SshClient.connect _ _ _) as [[settled client] events].
  apply keeps_bind; [by apply keeps_write|]. intros _.
  destruct settled; [|apply keeps_throw|apply keeps_await].
  apply keeps_bind.
  { intros h Hstep. destruct Hstep as [Hdom Hkeyed]. cbn [fst snd].
    assert (in_step (set_registry
              (JsMap.set (registry h) (uuid env)
                 (SessionRegistry.createSession (uuid env) (connect_now env)
                    {| csp_host := host validated;
                       csp_port := default 22 (port validated);
                       csp_username := username validated;
                       csp_client := SshClient.getClient client |}
                    (registry h)).1) h)); [|by split].
    split; [done|]. by apply keyed_set. }
  intros session.
  apply keeps_bind; [|intros _; apply keeps_ret].
  apply keeps_write. intros h [Hdom Hkeyed]. split; [|done]. simpl.
  rewrite dom_insert_L. intros x Hx. apply elem_of_union. right. by apply Hdom.
Qed.

Lemma keeps_exec now answer params : keeps (exec now answer params).
Proof.
  unfold exec.
  apply keeps_bind; [apply keeps_lift|]. intros validated.
  apply keeps_bind; [apply keeps_getEffectiveSessionId|]. intros id.
  apply keeps_bind; [apply keeps_read|]. intros [session|]; [|apply keeps_throw].
  apply keeps_bind; [apply keeps_read|]. intros [client|]; [|apply keeps_throw].
  apply keeps_bind; [apply keeps_lift|]. intros command.
  apply keeps_bind; [apply keeps_touch|]. intros _.
  destruct (SshClient.execCommand _ _ _) as [settled events].
  apply keeps_bind; [by apply keeps_write|]. intros _.
  apply keeps_bind; [apply keeps_await|]. intros result. apply keeps_ret.
Qed.

Lemma keeps_listSessions : keeps listSessions.
Proof.
  unfold listSessions.
  apply keeps_bind; [apply keeps_read|]. intros sessions. apply keeps_ret.
Qed.

(** Closing a client that the map holds changes no key of either map. *)
Lemma close_sftp_keys end_throws id sftpClient (pre : SshToolHandlers.t -> Prop) :
  (forall h events c, pre h ->
     pre (emit events
            (set_sftpClients (alter (fun _ => c) id (sftpClients h)) h))) ->
  triple pre pre (close_sftp end_throws id sftpClient) (fun _ h => pre h).
Proof.
  intros Hpre. unfold close_sftp.
  destruct (SftpClient.close _ _) as [[returned c] events].
  eapply triple_bind with (mid := fun _ h => pre h).
  - apply triple_write. intros h Hh. split; by apply Hpre.
  - intros _. by apply triple_lift.
Qed.

Lemma close_client_keys closed id client (pre : SshToolHandlers.t -> Prop) :
  (forall h events c, pre h ->
     pre (emit events (set_clients (alter (fun _ => c) id (clients h)) h))) ->
  triple pre pre (close_client closed id client) (fun _ h => pre h).
Proof.
  intros Hpre. unfold close_client.
  destruct (SshClient.close _ _) as [[settled c] events].
  eapply triple_bind with (mid := fun _ h => pre h).
  - apply triple_write. intros h Hh. split; by apply Hpre.
  - intros _. by apply triple_await.
Qed.

Lemma in_step_alter_sftp h events c id :
  in_step h ->
  in_step (emit events
             (set_sftpClients (alter (fun _ => c) id (sftpClients h)) h)).
Proof. intros [Hdom Hkeyed]. split; [|done]. simpl. by rewrite dom_alter_L. Qed.

Lemma in_step_alter_client h events c id :
  in_step h ->
  in_step (emit events (set_clients (alter (fun _ => c) id (clients h)) h)).
Proof. intros [Hdom Hkeyed]. split; [|done]. simpl. by rewrite dom_alter_L. Qed.

(** The block of [disconnect] and of [cleanup] that closes and forgets the
    transfer channel of [id]: what follows starts without that channel. *)
Lemma forget_channel {B} id (close : SftpClient.t -> M unit) (rest : M B) post :
  (forall c, keeps (close c)) ->
  triple in_step (channel_gone id) rest post ->
  triple in_step in_step
    (sftpClient ← read (fun h => sftpClients h !! id);
     match sftpClient with
     | Some sftpClient =>
         close sftpClient;;
         write (fun h => set_sftpClients (delete id (sftpClients h)) h)
     | None => mret tt
     end;;
     rest) post.
Proof.
  intros Hclose Hrest.
  eapply triple_bind
    with (mid := fun x h => in_step h /\ x = sftpClients h !! id).
  { by apply triple_read. }
  intros x.
  eapply triple_bind with (mid := fun _ h => channel_gone id h);
    [|intros _; exact Hrest].
  destruct x as [c|].
  - eapply triple_bind with (mid := fun _ h => in_step h).
    + eapply triple_weaken; [apply Hclose|done|by intros h [? _]|done].
    + intros _. apply triple_write. intros h [Hdom Hkeyed].
      assert (channel_gone id (set_sftpClients (delete id (sftpClients h)) h))
        as Hgone; [|split; [apply Hgone|exact Hgone]].
      split; [split; [|done]|]; simpl.
      * rewrite dom_delete_L. intros y [Hy _]%elem_of_difference.
        by apply Hdom.
      * apply lookup_delete_eq.
  - apply triple_ret. intros h [Hstep Hnone].
    split; [done|]. split; [done|]. by symmetry.
Qed.

(** The block that closes and forgets the transport client of [id], run
    when [id] has no transfer channel. *)
Lemma forget_client {B} id (close : SshClient.t -> M unit) (rest : M B) post :
  (forall c, triple (channel_gone id) (channel_gone id) (close c)
               (fun _ h => channel_gone id h)) ->
  triple in_step in_step rest post ->
  triple in_step (channel_gone id)
    (client ← read (fun h => clients h !! id);
     match client with
     | Some client =>
         close client;;
         write (fun h => set_clients (delete id (clients h)) h)
     | None => mret tt
     end;;
     rest) post.
Proof.
  intros Hclose Hrest.
  eapply triple_bind with (mid := fun _ h => channel_gone id h).
  { apply triple_read. by intros h [? ?]. }
  intros x.
  eapply triple_bind with (mid := fun _ h => in_step h);
    [|intros _; exact Hrest].
  destruct x as [c|].
  - eapply triple_bind with (mid := fun _ h => channel_gone id h).
    + eapply triple_weaken; [apply Hclose|by intros h [? ?]|done|done].
    + intros _. apply triple_write. intros h [[Hdom Hkeyed] Hnone].
      assert (in_step (set_clients (delete id (clients h)) h));
        [|by split].
      split; [|done]. simpl. rewrite dom_delete_L.
      intros y Hy. apply elem_of_difference. split; [by apply Hdom|].
      intros ->%elem_of_singleton. apply elem_of_dom in Hy as [? Hy].
      congruence.
  - apply triple_ret. by intros h [? ?].
Qed.

Lemma channel_gone_close_client closed id c :
  triple (channel_gone id) (channel_gone id) (close_client closed id c)
    (fun _ h => channel_gone id h).
Proof.
  apply close_client_keys.
  intros h events c' [Hstep Hnone]. split; [|done].
  by apply in_step_alter_client.
Qed.

Lemma keeps_close_sftp end_throws id c : keeps (close_sftp end_throws id c).
Proof. apply close_sftp_keys. intros. by apply in_step_alter_sftp. Qed.

Lemma keeps_remove id :
  keeps (write (fun h =>
    set_registry (SessionRegistry.removeSession id (registry h)).2 h)).
Proof.
  apply keeps_write. intros h [Hdom Hkeyed]. split; [done|].
  by apply keyed_remove.
Qed.

Lemma keeps_disconnect end_throws closed session_id :
  keeps (disconnect end_throws closed session_id).
Proof.
  unfold disconnect.
  apply keeps_bind; [apply keeps_getEffectiveSessionId|]. intros id.
  apply keeps_bind; [apply keeps_read|]. intros [session|]; [|apply keeps_throw].
  apply forget_channel; [apply keeps_close_sftp|].
  apply forget_client; [apply channel_gone_close_client|].
  apply keeps_bind; [apply keeps_remove|]. intros _.
  apply keeps_bind; [apply keeps_read|]. intros d.
  apply keeps_bind; [|intros _; apply keeps_ret].
  destruct (bool_decide _); [by apply keeps_write|apply keeps_ret].
Qed.

Lemma keeps_cleanup_session end_throws closed session :
  keeps (cleanup_session end_throws closed session).
Proof.
  unfold cleanup_session.
  apply forget_channel.
  { intros c. apply keeps_try_catch; [apply keeps_close_sftp|].
    intros _. apply keeps_ret. }
  apply forget_client; [|apply keeps_remove].
  intros c. apply triple_try_catch; [apply channel_gone_close_client|].
  intros e. by apply triple_ret.
Qed.

Lemma keeps_cleanup end_throws closed : keeps (cleanup end_throws closed).
Proof.
  unfold cleanup.
  apply keeps_bind; [apply keeps_read|]. intros sessions.
  apply keeps_bind; [|intros _; by apply keeps_write].
  apply keeps_for_of. intros session. apply keeps_cleanup_session.
Qed.

Lemma keeps_autoConnect env : keeps (autoConnect env).
Proof.
  unfold autoConnect.
  apply keeps_bind; [apply keeps_read|]. intros config.
  destruct (server config) as [serverConfig|]; [|apply keeps_ret].
  apply keeps_try_catch; [|intros; apply keeps_throw].
  apply keeps_bind; [apply keeps_connect|]. intros result.
  apply keeps_bind; [by apply keeps_write|]. intros _. apply keeps_ret.
Qed.

Lemma keeps_sftp_call {A} now opened session_id (call : SftpClient.t -> M A) :
  (forall c, keeps (call c)) ->
  keeps (sftpClient ← with_sftp now opened session_id; call sftpClient).
Proof. intros. apply keeps_bind; [apply keeps_with_sftp|done]. Qed.

Lemma keeps_serve (r : request) (h : SshToolHandlers.t) :
  in_step h -> in_step (serve r h).
Proof.
  intros Hstep. destruct r; cbn [serve].
  - by apply keeps_connect.
  - by apply keeps_autoConnect.
  - by apply keeps_exec.
  - by apply keeps_listSessions.
  - by apply keeps_disconnect.
  - apply (keeps_bind (lift _)); [apply keeps_lift| |done]. intros v.
    apply keeps_sftp_call. intros c. apply keeps_await.
  - apply (keeps_bind (lift _)); [apply keeps_lift| |done]. intros v.
    apply keeps_sftp_call. intros c. apply keeps_await.
  - apply (keeps_bind (lift _)); [apply keeps_lift| |done]. intros v.
    apply keeps_sftp_call. intros c. apply keeps_await.
  - apply (keeps_bind (lift _)); [apply keeps_lift| |done]. intros v.
    apply keeps_sftp_call. intros c. apply keeps_await.
  - apply (keeps_bind (lift _)); [apply keeps_lift| |done]. intros v.
    apply keeps_sftp_call. intros c. apply keeps_await.
  - apply (keeps_bind (lift _)); [apply keeps_lift| |done]. intros v.
    apply keeps_sftp_call. intros c.
    apply keeps_bind; [apply keeps_await|]. intros stats.
    destruct (negb _); apply keeps_await.
  - apply (keeps_bind (lift _)); [apply keeps_lift| |done]. intros v.
    apply keeps_sftp_call. intros c. apply keeps_await.
  - apply (keeps_bind (lift _)); [apply keeps_lift| |done]. intros v.
    apply keeps_sftp_call. intros c. apply keeps_await.
  - by apply keeps_cleanup.
Qed.

Lemma in_step_new (config : GlobalConfig) : in_step (SshToolHandlers.new config).
Proof. split; simpl; [done|constructor]. Qed.

Lemma in_step_after (config : GlobalConfig) (requests : list request) :
  in_step (after config requests).
Proof.
  unfold after. generalize (in_step_new config).
  generalize (SshToolHandlers.new config).
  induction requests as [|r requests IH]; intros h Hstep; simpl; [done|].
  by apply IH, keeps_serve.
Qed.

End Triples.

(** C9. In the fields of a handler, after any sequence of requests served
    one after the other (each ending as it may: returned, thrown, or left
    at an [await] that never resumes), every session identifier that has
    a transfer channel in [sftpClients] has a transport client in
    [clients].  [connect] adds to [clients] only, [getSftpClient] makes a
    channel only under a key it found in [clients], and [disconnect] and
    [cleanup] drop a session's channel before they drop its client. *)
Theorem channels_have_transport (config : GlobalConfig)
    (requests : list request) :
  dom (SshToolHandlers.sftpClients (after config requests))
  ⊆ dom (SshToolHandlers.clients (after config requests)).
Proof. apply in_step_after. Qed.

(** ** Requests that overlap *)

Section Overlap.
Import SshToolHandlers EventLoop.

(** *** A call that nothing interrupts is the method of [SshToolHandlers] *)

Lemma finish_bind {A B} (k : A -> P B) (s : task A) :
  finish (task_bind k s)
  = match finish s with
    | (Resolved a, h) => finish (k a h)
    | (Rejected e, h) => (Rejected e, h)
    | (Pending, h) => (Pending, h)
    end.
Proof.
  induction s as [[a|e|] h|h rest IH]; simpl; try done.
Qed.

Lemma uninterrupted_bind {A B} (p : P A) (k : A -> P B) h :
  uninterrupted (p ≫= k) h
  = (uninterrupted p ≫= fun a => uninterrupted (k a)) h.
Proof.
  unfold uninterrupted, mbind, P_bind, M_bind. rewrite finish_bind.
  by destruct (finish (p h)) as [[a|e|] h'].
Qed.

Lemma uninterrupted_atomic {A} (m : M A) h : uninterrupted (atomic m) h = m h.
Proof. unfold uninterrupted, atomic. by destruct (m h). Qed.

Lemma uninterrupted_await_event {A} (settled : outcome A) h :
  uninterrupted (await_event settled) h = await settled h.
Proof. by destruct settled. Qed.

Lemma uninterrupted_mret {A} (a : A) h :
  uninterrupted (mret a) h = mret (M := M) a h.
Proof. reflexivity. Qed.

Lemma uninterrupted_step {A B} (p : P A) (k : A -> P B) (m : M A)
    (k' : A -> M B) h :
  uninterrupted p h = m h ->
  (forall a h', (m h) = (Resolved a, h') -> uninterrupted (k a) h' = k' a h') ->
  uninterrupted (p ≫= k) h = (m ≫= k') h.
Proof.
  intros Hp Hk. rewrite uninterrupted_bind.
  unfold mbind, M_bind. rewrite Hp.
  destruct (m h) as [[a|e|] h'] eqn:Hm; try reflexivity. by apply Hk.
Qed.

Lemma uninterrupted_read {A B} (f : t -> A) (k : A -> P B) (k' : A -> M B) h :
  uninterrupted (k (f h)) h = k' (f h) h ->
  uninterrupted (atomic (read f) ≫= k) h = (read f ≫= k') h.
Proof.
  intros Hk. apply uninterrupted_step; [apply uninterrupted_atomic|].
  by intros a h' [= <- <-].
Qed.

(** One statement of the two bodies at a time. *)
Ltac along :=
  first
    [ apply uninterrupted_read
    | apply uninterrupted_step; [try apply uninterrupted_atomic | intros ? ? _]
    | apply uninterrupted_atomic
    | apply uninterrupted_await_event
    | apply uninterrupted_mret ].

Lemma uninterrupted_getSftpClient opened sessionId h :
  uninterrupted (EventLoop.getSftpClient opened sessionId) h
  = SshToolHandlers.getSftpClient opened sessionId h.
Proof.
  unfold EventLoop.getSftpClient, SshToolHandlers.getSftpClient.
  along. destruct (sftpClients h !! sessionId) as [c|]; [along|].
  along. destruct (clients h !! sessionId) as [c|]; [|along].
  destruct (SftpClient.init _ _) as [[settled sftpClient] events].
  repeat along.
Qed.

Lemma uninterrupted_with_sftp now opened session_id h :
  uninterrupted (EventLoop.with_sftp now opened session_id) h
  = SshToolHandlers.with_sftp now opened session_id h.
Proof.
  unfold EventLoop.with_sftp, SshToolHandlers.with_sftp.
  along. along; [apply uninterrupted_getSftpClient|]. repeat along.
Qed.

Lemma uninterrupted_sftpList now opened localeCompare readdir params h :
  uninterrupted (EventLoop.sftpList now opened localeCompare readdir params) h
  = SshToolHandlers.sftpList now opened localeCompare readdir params h.
Proof.
  unfold EventLoop.sftpList, SshToolHandlers.sftpList.
  along. along; [apply uninterrupted_with_sftp|].
  destruct (SftpClient.sftp _); along.
Qed.

(** Writing back the object that the map holds changes nothing. *)
Lemma alter_found {V} (m : gmap jsstring V) id v :
  m !! id = Some v -> alter (fun _ => v) id m = m.
Proof. intros Hv. apply alter_id. intros x Hx. congruence. Qed.

(** [close] is called on the object found under [sessionId]; the map's
    entry changes when the listener clears [connected], and only then. *)
Lemma uninterrupted_close_client closed sessionId client h :
  clients h !! sessionId = Some client ->
  uninterrupted (EventLoop.close_client closed sessionId client) h
  = SshToolHandlers.close_client closed sessionId client h.
Proof.
  intros Hc. unfold EventLoop.close_client, SshToolHandlers.close_client,
    SshClient.close.
  destruct (SshClient.connected client) eqn:Hconn; simpl.
  - destruct closed; unfold uninterrupted, mbind, M_bind, write, await; simpl;
      rewrite ?alter_found by done; reflexivity.
  - unfold uninterrupted, mbind, M_bind, write, await; simpl.
    rewrite alter_found by done. reflexivity.
Qed.

Lemma uninterrupted_disconnect end_throws closed session_id h :
  uninterrupted (EventLoop.disconnect end_throws closed session_id) h
  = SshToolHandlers.disconnect end_throws closed session_id h.
Proof.
  unfold EventLoop.disconnect, SshToolHandlers.disconnect.
  apply uninterrupted_step; [apply uninterrupted_atomic|].
  intros sessionId h1 _. along.
  destruct (SessionRegistry.getSession sessionId (registry h1)) as [session|];
    [|along].
  along. apply uninterrupted_step.
  { destruct (sftpClients h1 !! sessionId) as [c|]; repeat along. }
  intros _ h2 _. along. apply uninterrupted_step.
  { destruct (clients h2 !! sessionId) as [c|] eqn:Hc; [|along].
    apply uninterrupted_step; [by apply uninterrupted_close_client|].
    intros; along. }
  intros _ h3 _. along. along; [|along].
  destruct (bool_decide _); along.
Qed.

(** Let through to its end, the method of a request leaves the fields as
    [serve] does. *)
Lemma uninterrupted_method r h :
  (uninterrupted (method r) h).2 = serve r h.
Proof.
  destruct r; try reflexivity; unfold method, serve.
  - erewrite uninterrupted_step;
      [|apply uninterrupted_disconnect|intros; apply uninterrupted_mret].
    unfold mbind, M_bind. by destruct (SshToolHandlers.disconnect _ _ _ _) as [[?|?|] ?].
  - erewrite uninterrupted_step;
      [|apply uninterrupted_sftpList|intros; apply uninterrupted_mret].
    unfold mbind, M_bind. by destruct (SshToolHandlers.sftpList _ _ _ _ _ _) as [[?|?|] ?].
Qed.

(** *** Requests served one after the other are a run of the loop *)

Lemma idle l n :
  waiting l = [] -> foldl step l (replicate n (Settles 0)) = l.
Proof. intros Hw. induction n as [|n IH]; simpl; [done|]. by rewrite Hw. Qed.

Lemma proceed_within n (p : P unit) h :
  within n (p h) ->
  foldl step (proceed p {| fields := h; waiting := [] |})
    (replicate n (Settles 0))
  = {| fields := (finish (p h)).2; waiting := [] |}.
Proof.
  revert p h. induction n as [|n IH]; intros p h Hn; unfold proceed; simpl.
  - by destruct (p h).
  - destruct (p h) as [o h'|h' rest] eqn:Hp; simpl.
    + by rewrite idle.
    + apply (IH rest h' Hn).
Qed.

Lemma within_mono {A} (s : task A) n m :
  within n s -> (n <= m)%nat -> within m s.
Proof.
  revert n m. induction s as [o h|h rest IH]; intros n m Hs Hle; [exact I|].
  destruct n as [|n]; [destruct Hs|]. destruct m as [|m]; [lia|].
  simpl in *. apply (IH h n m Hs). lia.
Qed.

Lemma within_bind {A B} n m (k : A -> P B) (s : task A) :
  within n s ->
  (forall a h, finish s = (Resolved a, h) -> within m (k a h)) ->
  within (n + m) (task_bind k s).
Proof.
  revert n. induction s as [[a|e|] h|h rest IH]; intros n Hs Hk;
    try exact I.
  - apply (within_mono _ m); [by apply Hk|lia].
  - destruct n as [|n]; [destruct Hs|]. simpl in *. by apply IH.
Qed.

Lemma within_atomic {A} (m : M A) h n : within n (atomic m h).
Proof. unfold atomic. by destruct (m h). Qed.

Lemma within_await_event {A} (settled : outcome A) h n :
  within (S n) (await_event settled h).
Proof. by destruct settled. Qed.

Lemma getSftpClient_within opened sessionId h :
  within 1 (EventLoop.getSftpClient opened sessionId h).
Proof.
  unfold EventLoop.getSftpClient.
  apply (within_bind 0 1); [apply within_atomic|]. intros existing h1 _.
  destruct existing; [exact I|].
  apply (within_bind 0 1); [apply within_atomic|]. intros sshClient h2 _.
  destruct sshClient; [|apply within_atomic].
  destruct (SftpClient.init _ _) as [[settled sftpClient] events].
  apply (within_bind 0 1); [apply within_atomic|]. intros _ h3 _.
  apply (within_bind 1 0); [apply within_await_event|]. intros _ h4 _.
  apply (within_bind 0 0); [apply within_atomic|]. intros; exact I.
Qed.

Lemma sftpList_within now opened localeCompare readdir params h :
  within 2 (EventLoop.sftpList now opened localeCompare readdir params h).
Proof.
  unfold EventLoop.sftpList, EventLoop.with_sftp.
  apply (within_bind 0 2); [apply within_atomic|]. intros validated h1 _.
  apply (within_bind 1 1).
  - apply (within_bind 0 1); [apply within_atomic|]. intros sessionId h2 _.
    apply (within_bind 1 0); [apply getSftpClient_within|].
    intros sftpClient h3 _.
    apply (within_bind 0 0); [apply within_atomic|]. intros; exact I.
  - intros sftpClient h2 _.
    destruct (SftpClient.sftp sftpClient);
      [apply within_await_event|apply within_atomic].
Qed.

Lemma disconnect_within end_throws closed session_id h :
  within 1 (EventLoop.disconnect end_throws closed session_id h).
Proof.
  unfold EventLoop.disconnect.
  apply (within_bind 0 1); [apply within_atomic|]. intros sessionId h1 _.
  apply (within_bind 0 1); [apply within_atomic|]. intros session h2 _.
  destruct session as [session|]; [|apply within_atomic].
  apply (within_bind 0 1); [apply within_atomic|]. intros sftpClient h3 _.
  apply (within_bind 0 1).
  { destruct sftpClient; [|exact I].
    apply (within_bind 0 0); apply within_atomic || (intros; apply within_atomic). }
  intros _ h4 _.
  apply (within_bind 0 1); [apply within_atomic|]. intros client h5 _.
  apply (within_bind 1 0).
  { destruct client as [client|]; [|exact I].
    apply (within_bind 1 0); [|intros; apply within_atomic].
    unfold EventLoop.close_client.
    destruct (SshClient.close closed client) as [[settled client'] events].
    apply (within_bind 0 1); [apply within_atomic|]. intros _ h6 _.
    destruct settled; try apply within_atomic.
    destruct (SshClient.connected client); [|exact I].
    apply (within_bind 1 0); [apply within_await_event|].
    intros; apply within_atomic. }
  intros _ h6 _.
  apply (within_bind 0 0); [apply within_atomic|]. intros _ h7 _.
  apply (within_bind 0 0); [apply within_atomic|]. intros d h8 _.
  apply (within_bind 0 0); [|intros; exact I].
  destruct (bool_decide _); [apply within_atomic|exact I].
Qed.

Lemma method_within r h : within 2 (method r h).
Proof.
  destruct r; try apply within_atomic; unfold method.
  - apply (within_bind 1 1); [apply disconnect_within|intros; exact I].
  - apply (within_bind 2 0); [apply sftpList_within|intros; exact I].
Qed.

Lemma served_in_turn r h :
  foldl step {| fields := h; waiting := [] |} [Arrives r; Settles 0; Settles 0]
  = {| fields := serve r h; waiting := [] |}.
Proof.
  rewrite <- uninterrupted_method.
  apply (proceed_within 2 (method r) h), method_within.
Qed.

(** [after] is the run of the loop in which every call is followed through
    before the next request arrives. *)
Lemma run_in_turn config requests :
  run config (in_turn requests)
  = {| fields := after config requests; waiting := [] |}.
Proof.
  unfold run, after, in_turn. generalize (SshToolHandlers.new config).
  induction requests as [|r requests IH]; intros h; [done|].
  cbn [mbind list_bind]. rewrite foldl_app, served_in_turn. apply IH.
Qed.

End Overlap.

(** The turns of [overlapping], one by one.  With the listing and the
    disconnect both waiting, the session has its client and no channel, and
    the transport was asked for the channel and then to end.  The answer
    to the channel's opening stores the channel beside the client, and the
    touch finds the session's record.  The listing ends.  The [close]
    event removes the client and the record, and leaves the channel. *)
Example overlapping_turns :
  let id := SshToolHandlers.uuid test_env in
  let channel l :=
    SftpClient.sftp <$>
      SshToolHandlers.sftpClients (EventLoop.fields l) !! id in
  let client l :=
    SshClient.connected <$>
      SshToolHandlers.clients (EventLoop.fields l) !! id in
  let calls l := List.length (EventLoop.waiting l) in
  let size l :=
    SessionRegistry.size (SshToolHandlers.registry (EventLoop.fields l)) in
  (calls (overlapped 1), client (overlapped 1), channel (overlapped 1))
  = (0%nat, Some true, None) /\
  (calls (overlapped 2), client (overlapped 2), channel (overlapped 2))
  = (1%nat, Some true, None) /\
  (calls (overlapped 3), client (overlapped 3), channel (overlapped 3))
  = (2%nat, Some true, None) /\
  drop 1 (SshToolHandlers.wire (EventLoop.fields (overlapped 3)))
  = [WSftpOpen 1; WEnd 1] /\
  (calls (overlapped 4), client (overlapped 4), channel (overlapped 4))
  = (2%nat, Some true, Some true) /\
  (calls (overlapped 5), client (overlapped 5), channel (overlapped 5))
  = (1%nat, Some true, Some true) /\
  (calls (overlapped 6), client (overlapped 6), channel (overlapped 6))
  = (0%nat, None, Some true) /\
  size (overlapped 5) = 1 /\ size (overlapped 6) = 0 /\
  SshToolHandlers.wire (EventLoop.fields (overlapped 6))
  = SshToolHandlers.wire (EventLoop.fields (overlapped 3)).
Proof. vm_compute. repeat split; reflexivity. Qed.

(** C9 as stated fails when two requests on a session overlap, which
    nothing in the handlers prevents.  A listing is called on a connected
    session and waits at [await sftpClient.init()] in [getSftpClient],
    after it found the session's client.  A disconnect of the session
    arrives: it finds no channel in [sftpClients], so that it closes none,
    asks the transport to end and waits at [await client.close()].  The
    channel's opening is answered and [getSftpClient] stores the channel;
    the [close] event comes and [disconnect] removes the client.  When
    both calls have ended, the session has a transfer channel in
    [sftpClients] and no client in [clients]. *)
Lemma channel_outlives_client :
  let h := EventLoop.fields (overlapped 6) in
  let id := SshToolHandlers.uuid test_env in
  EventLoop.waiting (overlapped 6) = [] /\
  SftpClient.sftp <$> SshToolHandlers.sftpClients h !! id = Some true /\
  SshToolHandlers.clients h !! id = None /\
  ~ dom (SshToolHandlers.sftpClients h) ⊆ dom (SshToolHandlers.clients h).
Proof.
  cbv zeta.
  assert (SftpClient.sftp <$>
            SshToolHandlers.sftpClients (EventLoop.fields (overlapped 6))
            !! SshToolHandlers.uuid test_env = Some true) as Hchannel
    by (vm_compute; reflexivity).
  assert (SshToolHandlers.clients (EventLoop.fields (overlapped 6))
            !! SshToolHandlers.uuid test_env = None) as Hclient
    by (vm_compute; reflexivity).
  split; [vm_compute; reflexivity|]. split; [done|]. split; [done|].
  intros Hsub.
  apply eq_None_not_Some in Hclient. apply Hclient.
  apply elem_of_dom, Hsub, elem_of_dom.
  destruct (SshToolHandlers.sftpClients _ !! _); [done|discriminate].
Qed.

(** The connect, a listing and the disconnect served one after the other:
    the disconnect finds the channel and closes it before the client. *)
Example overlapping_in_turn :
  let h :=
    after {| server := None; global_timeout := None;
             global_connectTimeout := None |}
      [Connect test_env (test_params (Some (Js.lit "testpass")) None);
       SftpList 1768694402000 (Answers tt) code_unit_compare
         (Answers sample_listing)
         {| list_session_id := Some (SshToolHandlers.uuid test_env);
            path := None |};
       Disconnect None Closes (Some (SshToolHandlers.uuid test_env))] in
  SshToolHandlers.sftpClients h = ∅ /\
  SshToolHandlers.clients h = ∅ /\
  drop 1 (SshToolHandlers.wire h) = [WSftpOpen 1; WSftpEnd 1; WEnd 1].
Proof. vm_compute. repeat split; reflexivity. Qed.

(** ** [cleanup] *)

Section Cleanup.
Import SshToolHandlers.
Local Arguments Js.lit : simpl never.

(** One turn of the loop never throws; it is left waiting only by a
    transport [close] that never settles; and when it returns it has
    removed the session from the registry and left the default alone. *)
Lemma cleanup_session_spec end_throws closed session (h : SshToolHandlers.t) :
  let id := info_sessionId session in
  let ran := cleanup_session end_throws closed session h in
  (ran.1 = Resolved tt /\
   registry ran.2 = JsMap.delete (registry h) id /\
   defaultSessionId ran.2 = defaultSessionId h) \/
  (ran.1 = Pending /\ closed id = NeverCloses).
Proof.
  cbv zeta.
  unfold cleanup_session, close_sftp, close_client, try_ignore, try_catch,
    mbind, M_bind, read, write, lift, await, mret, M_ret,
    SftpClient.close, SshClient.close.
  set (id := info_sessionId session).
  destruct (sftpClients h !! id) as [sftpClient|];
    [destruct (SftpClient.sftp sftpClient); [destruct (end_throws id)|]|];
    cbn [of_result fst snd sftpClients clients set_sftpClients emit set_clients
         registry defaultSessionId set_registry];
    (match goal with
     | |- context [?m !! id] =>
         destruct (m !! id) as [client|];
           [destruct (negb (SshClient.connected client));
              [|destruct (closed id) eqn:Hclosed]|]
     end);
    cbn [of_result fst snd sftpClients clients set_sftpClients emit set_clients
         registry defaultSessionId set_registry];
    rewrite ?removeSession_registry; auto.
Qed.

Lemma cleanup_loop_spec end_throws closed sessions (h : SshToolHandlers.t) :
  let ran := for_of sessions (cleanup_session end_throws closed) h in
  (ran.1 = Resolved tt /\
   registry ran.2
   = foldl JsMap.delete (registry h) (map info_sessionId sessions) /\
   defaultSessionId ran.2 = defaultSessionId h) \/
  (ran.1 = Pending /\ exists id, closed id = NeverCloses).
Proof.
  cbv zeta. revert h. induction sessions as [|session sessions IH]; intros h.
  { left. by repeat split. }
  cbn [for_of map foldl]. unfold mbind, M_bind.
  destruct (cleanup_session_spec end_throws closed session h)
    as [(Hran & Hregistry & Hdefault)|[Hran Hnever]];
    destruct (cleanup_session _ _ _ h) as [o h1]; cbn [fst snd] in *; subst o.
  - destruct (IH h1) as [(? & Hregistry' & Hdefault')|?]; [left|by right].
    by rewrite Hregistry', Hdefault', Hregistry, Hdefault.
  - right. eauto.
Qed.

Lemma keyed_identifiers (r : SessionRegistry.t) :
  keyed r -> map info_sessionId (SessionRegistry.listSessions r) = JsMap.keys r.
Proof.
  unfold SessionRegistry.listSessions, JsMap.values, JsMap.keys.
  rewrite !map_map. induction 1 as [|[k v] r Hkv Hr IH]; simpl; [done|].
  by f_equal.
Qed.

Lemma keys_delete_ne {V} (m : JsMap.t V) k : k ∉ JsMap.keys (JsMap.delete m k).
Proof. apply JsMapFacts.get_None_keys, JsMapFacts.get_delete_eq. Qed.

Lemma delete_all {V} (m : JsMap.t V) (ks : list jsstring) :
  (forall k, k ∈ JsMap.keys m -> k ∈ ks) -> foldl JsMap.delete m ks = [].
Proof.
  revert m. induction ks as [|k ks IH]; intros m Hall; simpl.
  - destruct m as [|[k v] m]; [done|].
    specialize (Hall k ltac:(simpl; left)). by apply elem_of_nil in Hall.
  - apply IH. intros k' Hk'.
    destruct (decide (k' = k)) as [->|Hne].
    + by apply keys_delete_ne in Hk'.
    + apply JsMapFacts.keys_delete, Hall in Hk'.
      by apply elem_of_cons in Hk' as [?|?].
Qed.

(** [cleanup] on a keyed registry: it never throws; it returns unless some
    transport [close] never settles; and when it returns the registry is
    empty and the default cleared. *)
Lemma cleanup_spec end_throws closed (h : SshToolHandlers.t) :
  keyed (registry h) ->
  match cleanup end_throws closed h with
  | (Resolved _, h') => registry h' = [] /\ defaultSessionId h' = None
  | (Rejected _, _) => False
  | (Pending, _) => exists id, closed id = NeverCloses
  end.
Proof.
  intros Hkeyed. unfold cleanup, mbind, M_bind, read, write.
  destruct (cleanup_loop_spec end_throws closed
              (SessionRegistry.listSessions (registry h)) h)
    as [(Hran & Hregistry & Hdefault)|[Hran Hnever]];
    destruct (for_of _ _ h) as [o h1]; cbn [fst snd] in *; subst o; [|done].
  split; [|done]. simpl. rewrite Hregistry, keyed_identifiers by done.
  by apply delete_all.
Qed.

End Cleanup.


Example cleanup_two_sessions :
  let h := after {| server := None; global_timeout := None;
                    global_connectTimeout := None |} two_sessions in
  let cleaned :=
    SshToolHandlers.cleanup first_close_throws first_end_throws h in
  SessionRegistry.size (SshToolHandlers.registry h) = 2 /\
  SftpClient.sftp <$>
    SshToolHandlers.sftpClients h !! SshToolHandlers.uuid test_env
  = Some true /\
  cleaned.1 = Resolved tt /\
  SshToolHandlers.registry cleaned.2 = [] /\
  SshToolHandlers.clients cleaned.2 = ∅ /\
  SshToolHandlers.sftpClients cleaned.2 = ∅ /\
  SshToolHandlers.defaultSessionId cleaned.2 = None /\
  SshToolHandlers.wire cleaned.2
  = SshToolHandlers.wire h ++ [WSftpEnd 1; WEnd 1; WEnd 2].
Proof. vm_compute. repeat split; reflexivity. Qed.

(** A [disconnect] whose transport [close] throws stops between the two
    removals: the channel is gone, the client is still there. *)
Example disconnect_stops_between :
  let h := after {| server := None; global_timeout := None;
                    global_connectTimeout := None |} two_sessions in
  let stopped :=
    SshToolHandlers.disconnect None (EndThrows (Error (Js.lit "socket hang up")))
      (Some (SshToolHandlers.uuid test_env)) h in
  stopped.1 = Rejected (Error (Js.lit "socket hang up")) /\
  SshToolHandlers.sftpClients stopped.2 = ∅ /\
  SshClient.connected <$>
    SshToolHandlers.clients stopped.2 !! SshToolHandlers.uuid test_env
  = Some true /\
  SessionRegistry.size (SshToolHandlers.registry stopped.2) = 2.
Proof. vm_compute. repeat split; reflexivity. Qed.

(** * Further properties *)

(** ** The session registry as a map *)

Section RegistryFacts.
Context {V : Type}.
Implicit Types (m : JsMap.t V) (k : jsstring) (v : V).

Lemma size_set m k v :
  JsMap.size (JsMap.set m k v)
  = match JsMap.get m k with
    | Some _ => JsMap.size m
    | None => JsMap.size m + 1
    end.
Proof.
  unfold JsMap.size. induction m as [|[k' v'] m IH]; simpl; [done|].
  destruct (decide (k' = k)); simpl; [done|].
  destruct (JsMap.get m k); simpl in *; lia.
Qed.

Lemma keys_set_present m k v :
  is_Some (JsMap.get m k) -> JsMap.keys (JsMap.set m k v) = JsMap.keys m.
Proof.
  induction m as [|[k' v'] m IH]; simpl; [by intros [? ?]|].
  destruct (decide (k' = k)); simpl; [done|]. intros H. by rewrite IH.
Qed.

Lemma set_fresh m k v : JsMap.get m k = None -> JsMap.set m k v = m ++ [(k, v)].
Proof.
  induction m as [|[k' v'] m IH]; simpl; [done|].
  destruct (decide (k' = k)); [done|]. intros H. by rewrite IH.
Qed.

Lemma distinct_keys_set m k v : distinct_keys m -> distinct_keys (JsMap.set m k v).
Proof.
  unfold distinct_keys. intros Hm.
  destruct (JsMap.get m k) as [x|] eqn:Hget.
  - by rewrite keys_set_present.
  - rewrite set_fresh by done. unfold JsMap.keys. rewrite map_app. simpl.
    apply NoDup_app. split; [done|]. split; [|apply NoDup_singleton].
    intros x Hx ->%list_elem_of_singleton.
    by apply JsMapFacts.get_None_keys in Hget.
Qed.

Lemma distinct_keys_delete m k : distinct_keys m -> distinct_keys (JsMap.delete m k).
Proof.
  unfold distinct_keys. induction m as [|[k' v'] m IH]; simpl; [done|].
  intros [Hk' Hm]%NoDup_cons. destruct (decide (k' = k)); [by apply IH|].
  simpl. apply NoDup_cons. split; [|by apply IH].
  intros Hin. by apply JsMapFacts.keys_delete in Hin.
Qed.

Lemma size_delete m k :
  distinct_keys m -> is_Some (JsMap.get m k) ->
  JsMap.size (JsMap.delete m k) = JsMap.size m - 1.
Proof.
  unfold distinct_keys, JsMap.size.
  induction m as [|[k' v'] m IH]; simpl; [by intros _ [? ?]|].
  intros [Hk' Hm]%NoDup_cons. destruct (decide (k' = k)) as [->|Hne].
  - intros _. apply JsMapFacts.get_None_keys in Hk'.
    rewrite JsMapFacts.delete_absent by done. lia.
  - intros Hget. simpl. specialize (IH Hm Hget). lia.
Qed.

End RegistryFacts.

(** X1. A session that [createSession] has just made is the one
    [getSession] finds under the new identifier: it carries the four
    parameters, the instant of its creation and no instant of use.  Every
    other identifier finds what it found before, and the registry has one
    entry more (or as many, had the identifier been there already). *)
Theorem createSession_then_getSession (uuid : jsstring) (now : Date)
    (params : CreateSessionParams) (r : SessionRegistry.t) :
  let created := SessionRegistry.createSession uuid now params r in
  SessionRegistry.getSession uuid created.2 = Some created.1 /\
  created.1 = {| sessionId := uuid;
                 rec_host := csp_host params;
                 rec_port := csp_port params;
                 rec_username := csp_username params;
                 rec_client := csp_client params;
                 createdAt := now;
                 lastUsedAt := None |} /\
  (forall id, id <> uuid ->
     SessionRegistry.getSession id created.2 = SessionRegistry.getSession id r) /\
  SessionRegistry.size created.2
  = match SessionRegistry.getSession uuid r with
    | Some _ => SessionRegistry.size r
    | None => SessionRegistry.size r + 1
    end.
Proof.
  cbv zeta. unfold SessionRegistry.createSession, SessionRegistry.getSession,
    SessionRegistry.size. cbn [fst snd].
  split; [apply JsMapFacts.get_set_eq|]. split; [done|]. split.
  - intros id Hid. by apply JsMapFacts.get_set_ne.
  - apply size_set.
Qed.

(** X2. A session made under an identifier that the registry does not hold
    is listed last, after the sessions that were there, which are listed
    as before. *)
Theorem createSession_listed_last (uuid : jsstring) (now : Date)
    (params : CreateSessionParams) (r : SessionRegistry.t) :
  SessionRegistry.getSession uuid r = None ->
  let created := SessionRegistry.createSession uuid now params r in
  SessionRegistry.listSessions created.2
  = SessionRegistry.listSessions r ++ [info_of created.1].
Proof.
  intros Hfresh. cbv zeta.
  unfold SessionRegistry.createSession, SessionRegistry.listSessions,
    JsMap.values. cbn [fst snd].
  rewrite set_fresh by done. by rewrite !map_app.
Qed.

Lemma createSession_listed_last_witness :
  SessionRegistry.listSessions two_records
  = [ {| info_sessionId := Js.lit "id-1"; info_host := Js.lit "10.0.0.1";
         info_port := 22; info_username := Js.lit "root";
         info_createdAt := ISO 10; info_lastUsedAt := None |};
      {| info_sessionId := Js.lit "id-2"; info_host := Js.lit "10.0.0.2";
         info_port := 2222; info_username := Js.lit "deploy";
         info_createdAt := ISO 20; info_lastUsedAt := None |} ].
Proof.
  exact (createSession_listed_last (Js.lit "id-2") 20
           {| csp_host := Js.lit "10.0.0.2"; csp_port := 2222;
              csp_username := Js.lit "deploy"; csp_client := 2 |}
           (SessionRegistry.createSession (Js.lit "id-1") 10
              {| csp_host := Js.lit "10.0.0.1"; csp_port := 22;
                 csp_username := Js.lit "root"; csp_client := 1 |}
              SessionRegistry.new).2 eq_refl).
Defined.

(** X3. [touchSession] sets the instant of last use of the session it
    names and nothing else: the record's other fields, the other sessions
    and the order of the listing stay.  For an identifier that the
    registry does not hold it does nothing. *)
Theorem touchSession_sets_lastUsedAt (id : jsstring) (now : Date)
    (r : SessionRegistry.t) :
  let touched := SessionRegistry.touchSession id now r in
  SessionRegistry.getSession id touched
  = used_at now <$> SessionRegistry.getSession id r /\
  (forall id', id' <> id ->
     SessionRegistry.getSession id' touched = SessionRegistry.getSession id' r) /\
  JsMap.keys touched = JsMap.keys r /\
  (SessionRegistry.getSession id r = None -> touched = r).
Proof.
  cbv zeta. unfold SessionRegistry.touchSession, SessionRegistry.getSession.
  destruct (JsMap.get r id) as [record|] eqn:Hget; simpl.
  - split; [apply JsMapFacts.get_set_eq|]. split.
    + intros id' Hne. by apply JsMapFacts.get_set_ne.
    + split; [|done]. apply keys_set_present. by rewrite Hget.
  - by rewrite Hget.
Qed.

(** X4. Removing a session that the registry holds returns its record and
    takes exactly that entry away: the registry has one entry less, and
    every other identifier finds what it found before. *)
Theorem removeSession_takes_one (id : jsstring) (record : SessionRecord)
    (r : SessionRegistry.t) :
  distinct_keys r ->
  SessionRegistry.getSession id r = Some record ->
  let removed := SessionRegistry.removeSession id r in
  removed.1 = Some record /\
  SessionRegistry.size removed.2 = SessionRegistry.size r - 1 /\
  (forall id', id' <> id ->
     SessionRegistry.getSession id' removed.2
     = SessionRegistry.getSession id' r) /\
  distinct_keys removed.2.
Proof.
  intros Hdistinct Hget. cbv zeta. rewrite removeSession_registry.
  unfold SessionRegistry.removeSession, SessionRegistry.getSession,
    SessionRegistry.size in *.
  rewrite Hget. cbn [fst]. split; [done|]. split; [|split].
  - apply size_delete; [done|by rewrite Hget].
  - intros id' Hne. by apply JsMapFacts.get_delete_ne.
  - by apply distinct_keys_delete.
Qed.

Lemma removeSession_takes_one_witness :
  let removed := SessionRegistry.removeSession (Js.lit "id-1") two_records in
  removed.1
  = Some {| sessionId := Js.lit "id-1"; rec_host := Js.lit "10.0.0.1";
            rec_port := 22; rec_username := Js.lit "root"; rec_client := 1;
            createdAt := 10; lastUsedAt := None |} /\
  SessionRegistry.size removed.2 = SessionRegistry.size two_records - 1 /\
  (forall id', id' <> Js.lit "id-1" ->
     SessionRegistry.getSession id' removed.2
     = SessionRegistry.getSession id' two_records) /\
  distinct_keys removed.2.
Proof.
  apply (removeSession_takes_one (Js.lit "id-1")).
  - unfold distinct_keys. simpl.
    apply NoDup_cons. split; [|apply NoDup_singleton].
    intros Hin%list_elem_of_singleton. by vm_compute in Hin.
  - reflexivity.
Defined.

(** The operations of the registry keep the keys distinct. *)
Lemma distinct_keys_operations (r : SessionRegistry.t) uuid id now params :
  distinct_keys r ->
  distinct_keys (SessionRegistry.createSession uuid now params r).2 /\
  distinct_keys (SessionRegistry.touchSession id now r) /\
  distinct_keys (SessionRegistry.removeSession id r).2 /\
  distinct_keys (SessionRegistry.clear r).
Proof.
  intros Hr. split; [by apply distinct_keys_set|]. split; [|split].
  - unfold SessionRegistry.touchSession.
    destruct (JsMap.get r id); [by apply distinct_keys_set|done].
  - rewrite removeSession_registry. by apply distinct_keys_delete.
  - apply NoDup_nil_2.
Qed.

(** ** The transport session: how a command ends *)

Section Execution.
Local Arguments Js.lit : simpl never.
Local Arguments Js.of_number : simpl never.

(** While the channel only writes, the promise stays unsettled, the timer
    stays armed, and the exit code is the last one reported. *)
Lemma run_events_output_only (T : Z) (before : list channel_event) st :
  forallb output_only before = true ->
  SshClient.st_settled st = None -> SshClient.st_timedOut st = false ->
  let st' := SshClient.run_events T before st in
  SshClient.st_settled st' = None /\ SshClient.st_timedOut st' = false /\
  SshClient.st_timer st' = SshClient.st_timer st /\
  SshClient.st_exitCode st'
  = foldl (fun code ev => match ev with Exit c => c | _ => code end)
      (SshClient.st_exitCode st) before.
Proof.
  cbv zeta. revert st.
  induction before as [|ev before IH]; intros st Hbefore Hs Ht; [done|].
  simpl in Hbefore. apply andb_true_iff in Hbefore as [Hev Hbefore].
  unfold SshClient.run_events in *. simpl.
  destruct ev; try discriminate; simpl; rewrite ?Ht;
    try destruct (SshClient.capture _ _) as [text overflow];
    match goal with
    | |- context [foldl _ ?st' before] => by apply (IH st')
    end.
Qed.

(** The event that decides: the promise is settled by what the listeners
    do with the first event that is not output. *)
Lemma run_events_decided (T : Z) (before rest : list channel_event) ev :
  forallb output_only before = true ->
  let st := SshClient.run_events T before SshClient.exec_start in
  SshClient.st_settled
    (SshClient.run_events T (before ++ ev :: rest) SshClient.exec_start)
  = match SshClient.st_settled (SshClient.on_event T ev st) with
    | Some r => Some r
    | None =>
        SshClient.st_settled
          (SshClient.run_events T rest (SshClient.on_event T ev st))
    end.
Proof.
  intros Hbefore. cbv zeta. unfold SshClient.run_events at 1.
  rewrite foldl_app. simpl.
  change (foldl _ ?a rest) with (SshClient.run_events T rest a).
  change (foldl _ SshClient.exec_start before)
    with (SshClient.run_events T before SshClient.exec_start).
  destruct (SshClient.st_settled (SshClient.on_event T ev _)) eqn:Hev; [|done].
  by apply settled_stays.
Qed.

End Execution.

(** X5. When the execution timer fires before the channel has closed,
    [execCommand] rejects with the timeout error, which names the
    configured timeout (30 000 ms when none is configured).  Whatever the
    channel emits afterwards, a [close] included, changes nothing. *)
Theorem execCommand_timer_first (s : SshClient.t) (command : jsstring)
    (before rest : list channel_event) :
  SshClient.connected s = true ->
  forallb output_only before = true ->
  (SshClient.execCommand (ExecChannel (before ++ Timer :: rest)) command s).1
  = Rejected (exec_timeout_error s).
Proof.
  intros Hconn Hbefore. unfold SshClient.execCommand. rewrite Hconn. simpl.
  rewrite run_events_decided by done.
  destruct (run_events_output_only
              (SshClient.nullish (cfg_timeout (SshClient.config s))
                 DEFAULT_EXEC_TIMEOUT)
              before SshClient.exec_start Hbefore eq_refl eq_refl)
    as (Hs & Ht & Htimer & _).
  simpl. rewrite Htimer. simpl. by rewrite Hs.
Qed.

Lemma execCommand_timer_first_witness :
  (SshClient.execCommand
     (ExecChannel ([StdoutData (Js.lit "partial")]
                   ++ Timer :: [StdoutData (Js.lit " late"); Exit (Some 0);
                                Close]))
     (Js.lit "sleep 60") overflowing_client).1
  = Rejected (Error (Js.lit "Command execution timeout after 30000ms")).
Proof.
  exact (execCommand_timer_first overflowing_client (Js.lit "sleep 60")
           [StdoutData (Js.lit "partial")]
           [StdoutData (Js.lit " late"); Exit (Some 0); Close]
           eq_refl eq_refl).
Defined.

(** X6. A command whose output stays within the budget on both streams
    comes back whole: each stream holds all that the channel wrote on it,
    in order, [truncated] is false, and the exit code is the last one the
    channel reported, or absent when the channel closed without one. *)
Theorem execCommand_within_budget (s : SshClient.t) (command : jsstring)
    (before rest : list channel_event) :
  SshClient.connected s = true ->
  forallb output_only before = true ->
  Js.length (emitted_stdout before) <= 25000 ->
  Js.length (emitted_stderr before) <= 25000 ->
  (SshClient.execCommand (ExecChannel (before ++ Close :: rest)) command s).1
  = Resolved {| stdout := emitted_stdout before;
                stderr := emitted_stderr before;
                exitCode := exit_reported before;
                truncated := false |}.
Proof.
  intros Hconn Hbefore Hout Herr.
  destruct (execCommand_resolves s command before rest Hconn Hbefore)
    as [r Hrun].
  destruct (execCommand_captures s command _ r Hrun) as (Hso & Hse & Htrunc).
  rewrite emitted_stdout_before in Hso, Htrunc by done.
  rewrite emitted_stderr_before in Hse, Htrunc by done.
  rewrite Hrun. f_equal.
  assert (exitCode r = exit_reported before) as Hexit.
  { revert Hrun. unfold SshClient.execCommand. rewrite Hconn. simpl.
    rewrite run_events_decided by done.
    destruct (run_events_output_only
                (SshClient.nullish (cfg_timeout (SshClient.config s))
                   DEFAULT_EXEC_TIMEOUT)
                before SshClient.exec_start Hbefore eq_refl eq_refl)
      as (Hs & Ht & _ & Hcode).
    simpl. rewrite Ht. simpl. rewrite Hs. simpl. intros [= <-]. simpl.
    exact Hcode. }
  destruct r as [so se code trunc]. simpl in *. subst so se code.
  rewrite !firstn_all2 by (unfold Js.length, CHARACTER_LIMIT in *; lia).
  f_equal. destruct trunc; [|done].
  destruct (proj1 Htrunc eq_refl); unfold CHARACTER_LIMIT in *; lia.
Qed.

Lemma execCommand_within_budget_witness :
  (SshClient.execCommand (ExecChannel (failing_output ++ Close :: []))
     (Js.lit "make") overflowing_client).1
  = Resolved {| stdout := Js.lit "building...";
                stderr := Js.lit "error: no such file";
                exitCode := Some 3;
                truncated := false |}.
Proof.
  exact (execCommand_within_budget overflowing_client (Js.lit "make")
           failing_output [] eq_refl eq_refl
           ltac:(vm_compute; discriminate) ltac:(vm_compute; discriminate)).
Defined.

(** X7. When the channel emits [error] before it has closed and before the
    timer has fired, [execCommand] rejects with the channel's message
    behind "Channel error: ", and a later [close] does not resolve it. *)
Theorem execCommand_channel_error (s : SshClient.t) (command : jsstring)
    (before rest : list channel_event) (message : jsstring) :
  SshClient.connected s = true ->
  forallb output_only before = true ->
  (SshClient.execCommand
     (ExecChannel (before ++ ChannelError message :: rest)) command s).1
  = Rejected (Error (Js.lit "Channel error: " ++ message)).
Proof.
  intros Hconn Hbefore. unfold SshClient.execCommand. rewrite Hconn. simpl.
  rewrite run_events_decided by done.
  destruct (run_events_output_only
              (SshClient.nullish (cfg_timeout (SshClient.config s))
                 DEFAULT_EXEC_TIMEOUT)
              before SshClient.exec_start Hbefore eq_refl eq_refl)
    as (Hs & Ht & _ & _).
  simpl. rewrite Ht. simpl. by rewrite Hs.
Qed.

Lemma execCommand_channel_error_witness :
  (SshClient.execCommand
     (ExecChannel ([StdoutData (Js.lit "partial")]
                   ++ ChannelError (Js.lit "read ECONNRESET") :: [Close]))
     (Js.lit "tail -f log") overflowing_client).1
  = Rejected (Error (Js.lit "Channel error: read ECONNRESET")).
Proof.
  exact (execCommand_channel_error overflowing_client (Js.lit "tail -f log")
           [StdoutData (Js.lit "partial")] [Close]
           (Js.lit "read ECONNRESET") eq_refl eq_refl).
Defined.

(** ** The transport session: connecting and closing *)

(** X8. When the configuration names a key file and holds no key content,
    and the file cannot be read, [connect] rejects with the reading error
    behind "Failed to read private key: "; nothing has been asked of the
    transport, and the client is as it was. *)
Theorem connect_unreadable_key (readFileSync : jsstring -> result (list Z))
    (handshake : ConnectConfig -> Z -> handshake_reply) (s : SshClient.t)
    (path : jsstring) (err : js_error) :
  SshClient.truthy_key (cfg_privateKey (SshClient.config s)) = false ->
  cfg_privateKeyPath (SshClient.config s) = Some path ->
  path <> [] ->
  readFileSync path = inl err ->
  SshClient.connect readFileSync handshake s
  = (Rejected (Error (Js.lit "Failed to read private key: "
                      ++ error_message err)), s, []).
Proof.
  intros Hkey Hpath Hne Hread.
  unfold SshClient.connect, SshClient.connectConfig.
  rewrite Hkey, Hpath. simpl. destruct path; [done|]. simpl.
  by rewrite Hread.
Qed.

Lemma connect_unreadable_key_witness :
  SshClient.connect no_such_file (fun _ _ => Ready)
    (SshClient.new 1 key_path_config)
  = (Rejected (Error (Js.lit
       "Failed to read private key: ENOENT: no such file or directory")),
     SshClient.new 1 key_path_config, []).
Proof.
  exact (connect_unreadable_key no_such_file (fun _ _ => Ready)
           (SshClient.new 1 key_path_config)
           (Js.lit "/home/deploy/.ssh/id_ed25519")
           (Error (Js.lit "ENOENT: no such file or directory"))
           eq_refl eq_refl ltac:(discriminate) eq_refl).
Defined.

(** X9. Key content takes precedence over a key file: when the
    configuration holds key content, the transport is handed that content
    and the file system is not consulted, so that what [connect] does is
    the same whatever the key file holds. *)
Theorem connect_key_content_first
    (readFileSync readFileSync' : jsstring -> result (list Z))
    (handshake : ConnectConfig -> Z -> handshake_reply) (s : SshClient.t) :
  SshClient.truthy_key (cfg_privateKey (SshClient.config s)) = true ->
  SshClient.connect readFileSync handshake s
  = SshClient.connect readFileSync' handshake s /\
  exists cc,
    SshClient.connectConfig readFileSync (SshClient.config s)
      (default 10000 (cfg_connectTimeout (SshClient.config s))) = inr cc /\
    cc_privateKey cc = cfg_privateKey (SshClient.config s) /\
    head (SshClient.connect readFileSync handshake s).2
    = Some (WConnect (SshClient.client s) cc
              (default 10000 (cfg_connectTimeout (SshClient.config s)))).
Proof.
  intros Hkey. unfold SshClient.connect, SshClient.connectConfig.
  rewrite Hkey. split; [done|]. eexists. split; [reflexivity|].
  split; [done|]. simpl. by destruct (handshake _ _).
Qed.

Lemma connect_key_content_first_witness :
  let config :=
    {| cfg_host := Js.lit "10.0.0.1"; cfg_port := 22;
       cfg_username := Js.lit "deploy"; cfg_password := None;
       cfg_privateKey := Some (KeyString (Js.lit "-----BEGIN KEY-----"));
       cfg_privateKeyPath := Some (Js.lit "/home/deploy/.ssh/id_ed25519");
       cfg_passphrase := None; cfg_timeout := None;
       cfg_connectTimeout := None |} in
  SshClient.connect no_such_file (fun _ _ => Ready) (SshClient.new 1 config)
  = SshClient.connect key_file (fun _ _ => Ready) (SshClient.new 1 config).
Proof.
  exact (proj1 (connect_key_content_first no_such_file key_file
                  (fun _ _ => Ready)
                  (SshClient.new 1
                     {| cfg_host := Js.lit "10.0.0.1"; cfg_port := 22;
                        cfg_username := Js.lit "deploy"; cfg_password := None;
                        cfg_privateKey :=
                          Some (KeyString (Js.lit "-----BEGIN KEY-----"));
                        cfg_privateKeyPath :=
                          Some (Js.lit "/home/deploy/.ssh/id_ed25519");
                        cfg_passphrase := None; cfg_timeout := None;
                        cfg_connectTimeout := None |})
                  eq_refl)).
Defined.

(** X10. What the transport is handed never holds a passphrase without a
    key: the passphrase of the configuration is passed on only together
    with key content or with the octets of the key file. *)
Theorem connectConfig_passphrase_with_key
    (readFileSync : jsstring -> result (list Z)) (config : SshClientConfig)
    (connectTimeout : Z) (cc : ConnectConfig) :
  SshClient.connectConfig readFileSync config connectTimeout = inr cc ->
  is_Some (cc_passphrase cc) ->
  is_Some (cc_privateKey cc) /\ cc_passphrase cc = cfg_passphrase config.
Proof.
  unfold SshClient.connectConfig.
  destruct (SshClient.truthy_key (cfg_privateKey config)) eqn:Hkey.
  - intros [= <-]. simpl. destruct (cfg_privateKey config); [|done].
    destruct (Js.absent (cfg_passphrase config)); [by intros [? ?]|].
    by split.
  - destruct (Js.absent (cfg_privateKeyPath config)).
    { intros [= <-]. simpl. by intros [? ?]. }
    destruct (readFileSync _); [done|]. intros [= <-]. simpl.
    destruct (Js.absent (cfg_passphrase config)); [by intros [? ?]|].
    by split.
Qed.

Lemma connectConfig_passphrase_with_key_witness :
  let cc :=
    {| cc_host := Js.lit "10.0.0.1"; cc_port := 22;
       cc_username := Js.lit "deploy"; readyTimeout := 10000;
       cc_password := None; cc_privateKey := Some (KeyBuffer [45; 45; 45]);
       cc_passphrase := Some (Js.lit "secret") |} in
  is_Some (cc_privateKey cc) /\
  cc_passphrase cc = cfg_passphrase key_path_config.
Proof.
  exact (connectConfig_passphrase_with_key key_file key_path_config 10000
           {| cc_host := Js.lit "10.0.0.1"; cc_port := 22;
              cc_username := Js.lit "deploy"; readyTimeout := 10000;
              cc_password := None;
              cc_privateKey := Some (KeyBuffer [45; 45; 45]);
              cc_passphrase := Some (Js.lit "secret") |}
           eq_refl (ex_intro _ (Js.lit "secret") eq_refl)).
Defined.

(** X11. A client is connected exactly when its [connect] has resolved,
    and [connect] resolves exactly when the transport reports [ready]
    before an error and before the timer; when the timer comes first, the
    transport is asked to end the handshake it was asked to start. *)
Theorem connect_connected_iff_ready
    (readFileSync : jsstring -> result (list Z))
    (handshake : ConnectConfig -> Z -> handshake_reply) (s : SshClient.t) :
  SshClient.connected s = false ->
  let ran := SshClient.connect readFileSync handshake s in
  let timer := default 10000 (cfg_connectTimeout (SshClient.config s)) in
  (SshClient.isConnected ran.1.2 = true <-> ran.1.1 = Resolved tt) /\
  (ran.1.1 = Resolved tt <->
   exists cc,
     SshClient.connectConfig readFileSync (SshClient.config s) timer = inr cc /\
     handshake cc timer = Ready) /\
  (forall cc,
     SshClient.connectConfig readFileSync (SshClient.config s) timer = inr cc ->
     handshake cc timer = TimerFirst ->
     ran.2 = [WConnect (SshClient.client s) cc timer;
              WEnd (SshClient.client s)]).
Proof.
  intros Hconn. cbv zeta. unfold SshClient.connect, SshClient.isConnected.
  change (SshClient.nullish ?a DEFAULT_CONNECT_TIMEOUT) with (default 10000 a).
  destruct (SshClient.connectConfig _ _ _) as [e|cc]; simpl.
  - rewrite Hconn. split; [done|]. split; [|done].
    split; [done|]. by intros (? & ? & _).
  - destruct (handshake cc _) eqn:Hhs; simpl; rewrite ?Hconn.
    + split; [done|]. split; [|intros ? [= <-] ?; congruence].
      split; [|done]. intros _. by exists cc.
    + split; [done|]. split; [|intros ? [= <-] ?; congruence].
      split; [done|]. intros (? & [= <-] & ?). congruence.
    + split; [done|]. split; [|by intros ? [= <-] _].
      split; [done|]. intros (? & [= <-] & ?). congruence.
    + split; [done|]. split; [|intros ? [= <-] ?; congruence].
      split; [done|]. intros (? & [= <-] & ?). congruence.
Qed.

Lemma connect_connected_iff_ready_witness :
  let s := SshClient.new 1 key_path_config in
  let handshake := fun (_ : ConnectConfig) (_ : Z) => TimerFirst in
  let ran := SshClient.connect key_file handshake s in
  let timer := default 10000 (cfg_connectTimeout (SshClient.config s)) in
  (SshClient.isConnected ran.1.2 = true <-> ran.1.1 = Resolved tt) /\
  (ran.1.1 = Resolved tt <->
   exists cc,
     SshClient.connectConfig key_file (SshClient.config s) timer = inr cc /\
     handshake cc timer = Ready) /\
  (forall cc,
     SshClient.connectConfig key_file (SshClient.config s) timer = inr cc ->
     handshake cc timer = TimerFirst ->
     ran.2 = [WConnect (SshClient.client s) cc timer;
              WEnd (SshClient.client s)]).
Proof.
  exact (connect_connected_iff_ready key_file (fun _ _ => TimerFirst)
           (SshClient.new 1 key_path_config) eq_refl).
Defined.

(** X12. Closing is idempotent: once a [close] has resolved, the client
    is not connected, a second [close] resolves at once without asking
    anything of the transport, and [execCommand] rejects with "Not
    connected", again without asking anything. *)
Theorem close_then_closed (s : SshClient.t) (reply reply' : close_reply)
    (answer : exec_reply) (command : jsstring) :
  let closed := SshClient.close reply s in
  closed.1.1 = Resolved tt ->
  SshClient.isConnected closed.1.2 = false /\
  SshClient.close reply' closed.1.2 = (Resolved tt, closed.1.2, []) /\
  SshClient.execCommand answer command closed.1.2
  = (Rejected (Error (Js.lit "Not connected")), []).
Proof.
  cbv zeta. unfold SshClient.close, SshClient.execCommand, SshClient.isConnected.
  destruct (SshClient.connected s) eqn:Hconn; simpl.
  - by destruct reply.
  - intros _. by rewrite Hconn.
Qed.

Lemma close_then_closed_witness :
  let closed := SshClient.close Closes overflowing_client in
  SshClient.isConnected closed.1.2 = false /\
  SshClient.close NeverCloses closed.1.2 = (Resolved tt, closed.1.2, []) /\
  SshClient.execCommand (ExecChannel [Close]) (Js.lit "ls") closed.1.2
  = (Rejected (Error (Js.lit "Not connected")), []).
Proof.
  exact (close_then_closed overflowing_client Closes NeverCloses
           (ExecChannel [Close]) (Js.lit "ls") eq_refl).
Defined.

(** ** The transfer channel *)

Ltac dlia := Z.div_mod_to_equations; lia.

Section ModeBits.

Lemma land_7 (a : Z) : Z.land a 7 = a mod 8.
Proof. change 7 with (Z.ones 3). by rewrite Z.land_ones. Qed.

Lemma testbit_div (a n : Z) :
  0 <= n -> Z.testbit a n = ((a / 2 ^ n) mod 2 =? 1).
Proof.
  intros Hn. pose proof (Z.testbit_spec' a n Hn) as H.
  destruct (Z.testbit a n); simpl in H; rewrite <- H; reflexivity.
Qed.

Lemma land_pow2 (a n : Z) :
  0 <= n -> (Z.land a (2 ^ n) =? 0) = negb (Z.testbit a n).
Proof.
  intros Hn.
  assert (Z.land a (2 ^ n) = if Z.testbit a n then 2 ^ n else 0) as ->.
  { apply Z.bits_inj'. intros m Hm.
    rewrite Z.land_spec, Z.pow2_bits_eqb by done.
    destruct (Z.eqb_spec n m) as [->|Hne].
    - rewrite andb_true_r. destruct (Z.testbit a m) eqn:Ha.
      + by rewrite Z.pow2_bits_true.
      + by rewrite Z.bits_0.
    - rewrite andb_false_r. destruct (Z.testbit a n).
      + by rewrite Z.pow2_bits_false.
      + by rewrite Z.bits_0. }
  destruct (Z.testbit a n); [|done].
  apply Z.eqb_neq. lia.
Qed.

Lemma testbit_toInt32 (a n : Z) :
  0 <= n < 32 -> Z.testbit (toInt32 a) n = Z.testbit a n.
Proof.
  intros Hn. unfold toInt32.
  rewrite <- (Z.mod_pow2_bits_low ((a + 2 ^ 31) mod 2 ^ 32 - 2 ^ 31) 32 n)
    by lia.
  rewrite <- (Z.mod_pow2_bits_low a 32 n) by lia.
  f_equal. dlia.
Qed.

End ModeBits.

(** X13. For every mode, [modeToPermissions] gives nine characters: the
    letters [r], [w], [x] for the owner, the group and the others, each in
    its place when the corresponding bit of the mode (bit 8 down to bit 0)
    is set, and [-] when it is clear.  The other bits of the mode, the
    file type among them, have no effect. *)
Theorem modeToPermissions_bits (mode : Z) :
  modeToPermissions mode = permission_bits mode.
Proof.
  unfold modeToPermissions, js_and, js_shr, permission_bits.
  change (toInt32 7) with 7. rewrite !land_7.
  change (6 mod 32) with 6. change (3 mod 32) with 3.
  rewrite !Z.shiftr_div_pow2 by lia.
  cbn [map].
  rewrite !testbit_div by lia.
  unfold toInt32.
  change (2 ^ 31) with 2147483648. change (2 ^ 32) with 4294967296.
  change (2 ^ 6) with 64. change (2 ^ 3) with 8.
  change (2 ^ 8) with 256. change (2 ^ 7) with 128.
  change (2 ^ 5) with 32. change (2 ^ 4) with 16.
  change (2 ^ 2) with 4. change (2 ^ 1) with 2. change (2 ^ 0) with 1.
  assert (forall a, 0 <= a mod 2 < 2) as Hbit by (intros; dlia).
  pose proof (Hbit (mode / 256)). pose proof (Hbit (mode / 128)).
  pose proof (Hbit (mode / 64)). pose proof (Hbit (mode / 32)).
  pose proof (Hbit (mode / 16)). pose proof (Hbit (mode / 8)).
  pose proof (Hbit (mode / 4)). pose proof (Hbit (mode / 2)).
  pose proof (Hbit (mode / 1)).
  replace (((((mode + 2147483648) mod 4294967296 - 2147483648) / 64
            + 2147483648) mod 4294967296 - 2147483648) mod 8)
    with (4 * ((mode / 256) mod 2) + 2 * ((mode / 128) mod 2)
          + (mode / 64) mod 2) by dlia.
  replace (((((mode + 2147483648) mod 4294967296 - 2147483648) / 8
            + 2147483648) mod 4294967296 - 2147483648) mod 8)
    with (4 * ((mode / 32) mod 2) + 2 * ((mode / 16) mod 2)
          + (mode / 8) mod 2) by dlia.
  replace (((mode + 2147483648) mod 4294967296 - 2147483648) mod 8)
    with (4 * ((mode / 4) mod 2) + 2 * ((mode / 2) mod 2)
          + (mode / 1) mod 2) by dlia.
  repeat match goal with
  | H : 0 <= ?b < 2 |- context [?b =? 1] =>
      let E := fresh in
      assert (b = 0 \/ b = 1) as [E|E] by lia; rewrite E; clear H E
  end; reflexivity.
Qed.

(** The modes of the tests' fixtures: a directory [0o40755] and a regular
    file [0o100644]. *)
Example modeToPermissions_fixtures :
  modeToPermissions 16877 = Js.lit "rwxr-xr-x" /\
  modeToPermissions 33188 = Js.lit "rw-r--r--" /\
  modeToPermissions 0 = Js.lit "---------".
Proof. repeat split; reflexivity. Qed.

(** X14. What [listDirectory] reports of an entry is read off its mode:
    [isDirectory] is bit 14 and [isFile] is bit 15 (so that an entry whose
    type has both bits, a socket, is reported as both, and a symbolic
    link, which has bit 15, as a file); the permissions are those of
    [modeToPermissions]; name, owner, group and size are the entry's
    own. *)
Theorem fileInfo_mode_bits (item : DirEntry) :
  let info := SftpClient.fileInfo item in
  let mode := mode (entry_attrs item) in
  isDirectory info = Z.testbit mode 14 /\
  isFile info = Z.testbit mode 15 /\
  permissions info = modeToPermissions mode /\
  filename info = entry_filename item /\
  owner info = uid (entry_attrs item) /\
  group info = gid (entry_attrs item) /\
  file_size info = size (entry_attrs item).
Proof.
  cbv zeta. unfold SftpClient.fileInfo. cbn [isDirectory isFile permissions
    filename owner group file_size].
  unfold js_and. change (toInt32 16384) with (2 ^ 14).
  change (toInt32 32768) with (2 ^ 15).
  by rewrite !land_pow2, !negb_involutive, !testbit_toInt32 by lia.
Qed.

Section ChannelNotOpen.
Local Arguments Js.lit : simpl never.

(** X15. On a transfer channel that is not open (never initialised, or
    closed) every operation is rejected with "SFTP not initialized. Call
    init() first." and nothing is written, remotely or locally; [exists]
    alone answers, with false, and [close] does nothing. *)
Theorem channel_not_open_rejects (s : SftpClient.t) (srv : Server.t)
    (files : LocalFiles.t) (path other : jsstring)
    (localeCompare : jsstring -> jsstring -> Z)
    (readdir : reply (list DirEntry)) (answer : reply unit)
    (basename : jsstring -> jsstring) (piped : pipe_reply)
    (end_throws : option js_error) :
  SftpClient.sftp s = false ->
  SftpClient.listDirectory localeCompare readdir path s
  = Rejected not_initialized /\
  SftpClient.stat path srv s = Rejected not_initialized /\
  SftpClient.readFile path CHARACTER_LIMIT srv s = Rejected not_initialized /\
  SftpClient.writeFile path other srv s = (Rejected not_initialized, srv) /\
  SftpClient.uploadFile basename piped path other files srv s
  = (Rejected not_initialized, srv) /\
  SftpClient.downloadFile basename piped path other files srv s
  = (Rejected not_initialized, files) /\
  SftpClient.deleteFile answer path s = Rejected not_initialized /\
  SftpClient.deleteDirectory answer path s = Rejected not_initialized /\
  SftpClient.createDirectory answer path s = Rejected not_initialized /\
  SftpClient.rename answer path other s = Rejected not_initialized /\
  SftpClient.exists_ path srv s = Resolved false /\
  SftpClient.close end_throws s = (inr tt, s, []).
Proof.
  intros Hclosed.
  unfold SftpClient.listDirectory, SftpClient.exists_, SftpClient.stat,
    SftpClient.stat_of, SftpClient.readFile, SftpClient.writeFile,
    SftpClient.uploadFile, SftpClient.downloadFile, SftpClient.deleteFile,
    SftpClient.deleteDirectory, SftpClient.createDirectory, SftpClient.rename,
    SftpClient.request, SftpClient.close, SftpClient.ensureSftp.
  rewrite Hclosed. by repeat split.
Qed.

End ChannelNotOpen.

Lemma channel_not_open_rejects_witness :
  let s := (SftpClient.close None open_channel).1.2 in
  SftpClient.listDirectory code_unit_compare (Answers sample_listing)
    (Js.lit "/srv") s = Rejected not_initialized /\
  SftpClient.writeFile note_path short_text ∅ s
  = (Rejected not_initialized, ∅).
Proof.
  pose proof (channel_not_open_rejects
                (SftpClient.close None open_channel).1.2 ∅ ∅ (Js.lit "/srv")
                [] code_unit_compare (Answers sample_listing) Silent
                (fun p => p) PipeStalls None eq_refl) as (Hlist & _).
  pose proof (channel_not_open_rejects
                (SftpClient.close None open_channel).1.2 ∅ ∅ note_path
                short_text code_unit_compare Silent Silent
                (fun p => p) PipeStalls None eq_refl)
    as (_ & _ & _ & Hwrite & _).
  exact (conj Hlist Hwrite).
Defined.

Section Transfers.
Local Arguments Js.lit : simpl never.
Local Arguments Js.of_number : simpl never.

(** X16. Uploading a local file that does not exist is rejected with
    "Local file not found: " and the path, whatever the streams would have
    done, and the remote end is not written. *)
Theorem uploadFile_missing_local (basename : jsstring -> jsstring)
    (piped : pipe_reply) (localPath remotePath : jsstring)
    (files : LocalFiles.t) (srv : Server.t) (s : SftpClient.t) :
  SftpClient.sftp s = true ->
  files !! localPath = None ->
  SftpClient.uploadFile basename piped localPath remotePath files srv s
  = (Rejected (Error (Js.lit "Local file not found: " ++ localPath)), srv).
Proof.
  intros Hopen Hmissing.
  unfold SftpClient.uploadFile, SftpClient.ensureSftp, LocalFiles.statSync.
  by rewrite Hopen, Hmissing.
Qed.

(** X17. An upload followed by a download of the same remote path brings
    the octets of the local file back under the path of the download, and
    both results report the length of those octets as their size. *)
Theorem uploadFile_then_downloadFile (basename : jsstring -> jsstring)
    (localPath remotePath copyPath : jsstring) (data : list Z)
    (files : LocalFiles.t) (srv : Server.t) (s : SftpClient.t) :
  SftpClient.sftp s = true ->
  files !! localPath = Some data ->
  let up :=
    SftpClient.uploadFile basename SinkCloses localPath remotePath files srv s in
  let down :=
    SftpClient.downloadFile basename SinkCloses remotePath copyPath files
      up.2 s in
  exists u d,
    up.1 = Resolved u /\ down.1 = Resolved d /\
    transfer_size u = Z.of_nat (List.length data) /\
    transfer_size d = Z.of_nat (List.length data) /\
    down.2 !! copyPath = Some data /\
    (forall other, other <> copyPath -> down.2 !! other = files !! other).
Proof.
  intros Hopen Hlocal. cbv zeta.
  unfold SftpClient.uploadFile, SftpClient.downloadFile, SftpClient.stat,
    SftpClient.stat_of, SftpClient.ensureSftp, LocalFiles.statSync,
    Server.stat, Server.createWriteStream.
  rewrite Hopen, Hlocal. cbn [fst snd default].
  rewrite !lookup_insert_eq. cbn [fst snd fmap option_fmap option_map default].
  eexists _, _. split; [reflexivity|]. split; [reflexivity|].
  cbn [transfer_size size].
  assert (forall f : option Server.file,
    Server.f_data
      match f with
      | Some f => Server.mkFile (Server.f_mode f) (Server.f_uid f)
                    (Server.f_gid f) (Server.f_atime f) (Server.f_mtime f) data
      | None => Server.mkFile 33188 0 0 0 0 data
      end = data) as Hdata by (by intros [?|]).
  rewrite !Hdata. split; [done|]. split; [done|]. split.
  - apply lookup_insert_eq.
  - intros other Hne. by apply lookup_insert_ne.
Qed.

End Transfers.

Lemma uploadFile_missing_local_witness :
  SftpClient.uploadFile after_last_slash SinkCloses report_copy remote_report
    local_files ∅ open_channel
  = (Rejected (Error (Js.lit "Local file not found: /tmp/report-copy.csv")),
     ∅).
Proof.
  exact (uploadFile_missing_local after_last_slash SinkCloses report_copy
           remote_report local_files ∅ open_channel eq_refl eq_refl).
Defined.

Lemma uploadFile_then_downloadFile_witness :
  let up :=
    SftpClient.uploadFile after_last_slash SinkCloses report_path
      remote_report local_files ∅ open_channel in
  let down :=
    SftpClient.downloadFile after_last_slash SinkCloses remote_report
      report_copy local_files up.2 open_channel in
  exists u d,
    up.1 = Resolved u /\ down.1 = Resolved d /\
    transfer_size u = 9 /\ transfer_size d = 9 /\
    down.2 !! report_copy = Some [105; 100; 44; 110; 10; 49; 44; 97; 10] /\
    (forall other, other <> report_copy ->
       down.2 !! other = local_files !! other).
Proof.
  exact (uploadFile_then_downloadFile after_last_slash report_path
           remote_report report_copy [105; 100; 44; 110; 10; 49; 44; 97; 10]
           local_files ∅ open_channel eq_refl eq_refl).
Defined.

(** ** The orchestrator: sessions and their clients *)

Section Sessions.
Import SshToolHandlers.
Local Arguments Js.lit : simpl never.
Local Arguments Js.of_number : simpl never.

Lemma ConnectParamsSchema_validated (params validated : ConnectParams) :
  ConnectParamsSchema params = inr validated ->
  host validated = host params /\ username validated = username params /\
  port validated = Some (default 22 (port params)) /\
  password validated = password params /\
  private_key validated = private_key params /\
  private_key_path validated = private_key_path params.
Proof. unfold ConnectParamsSchema. by intros [_ ->]%parsed_inr. Qed.

Lemma SshClient_connect_resolved readFileSync handshake s client events :
  SshClient.connect readFileSync handshake s = (Resolved tt, client, events) ->
  client = SshClient.set_connected true s.
Proof.
  unfold SshClient.connect.
  destruct (SshClient.connectConfig _ _ _); [done|].
  destruct (handshake _ _); by intros [= <- <-].
Qed.

(** What a [connect] does to the fields: when it resolves, the session is
    in the registry and its client in [clients]; when it does not, only
    the trace of transport calls has grown. *)
Lemma connect_outcome (env : connect_env) (params : ConnectParams)
    (h : SshToolHandlers.t) :
  let ran := connect env params h in
  (sftpClients ran.2 = sftpClients h /\
   defaultSessionId ran.2 = defaultSessionId h /\
   globalConfig ran.2 = globalConfig h) /\
  ((exists validated events,
      ConnectParamsSchema params = inr validated /\
      ran.1 = Resolved
        {| session_id := uuid env;
           connect_message :=
             Js.lit "Connected to " ++ username params ++ Js.lit "@"
             ++ host params ++ Js.lit ":"
             ++ Js.of_number (default 22 (port params)) |} /\
      registry ran.2
      = JsMap.set (registry h) (uuid env) (connected_record env params) /\
      clients ran.2
      = <[uuid env := SshClient.set_connected true
                        (SshClient.new (new_client env)
                           (clientConfig validated))]> (clients h) /\
      wire ran.2 = wire h ++ events) \/
   ((forall result, ran.1 <> Resolved result) /\
    registry ran.2 = registry h /\ clients ran.2 = clients h)).
Proof.
  cbv zeta. unfold connect, mbind, M_bind, lift.
  destruct (ConnectParamsSchema params) as [e|validated] eqn:Hparse;
    cbn [of_result]; [by split; [|right]|].
  destruct (ConnectParamsSchema_validated _ _ Hparse)
    as (Hhost & Huser & Hport & _).
  destruct (_ && _); [by split; [|right]|].
  destruct (SshClient.connect _ _ _) as [[settled client] events] eqn:Hrun.
  unfold write, emit, throw, await, mret, M_ret.
  destruct settled as [[]|e|]; cbn; [|by split; [|right]..].
  apply SshClient_connect_resolved in Hrun as ->.
  split; [done|]. left. exists validated, events.
  rewrite Hhost, Huser, Hport. done.
Qed.

(** X18. When [connect] resolves, the identifier it returns is the one
    drawn for the session; the registry holds the session's record under
    it, with the host, the port (22 when none was given) and the user of
    the request, the instant of the connection and no instant of use; and
    [clients] holds its connected client.  Every other session, the
    transfer channels and the default session are as they were. *)
Theorem connect_registers (env : connect_env) (params : ConnectParams)
    (h : SshToolHandlers.t) (result : ConnectResult) :
  (connect env params h).1 = Resolved result ->
  let h' := (connect env params h).2 in
  session_id result = uuid env /\
  SessionRegistry.getSession (uuid env) (registry h')
  = Some (connected_record env params) /\
  (exists client,
     clients h' !! uuid env = Some client /\
     SshClient.isConnected client = true /\
     SshClient.getClient client = new_client env) /\
  (forall id, id <> uuid env ->
     SessionRegistry.getSession id (registry h')
     = SessionRegistry.getSession id (registry h) /\
     clients h' !! id = clients h !! id) /\
  sftpClients h' = sftpClients h /\
  defaultSessionId h' = defaultSessionId h.
Proof.
  intros Hrun. cbv zeta.
  destruct (connect_outcome env params h)
    as ((Hsftp & Hdefault & _) &
        [(validated & events & _ & Hres & Hregistry & Hclients & _)
        |(Hnot & _)]); [|by destruct (Hnot result)].
  rewrite Hrun in Hres. injection Hres as ->.
  rewrite Hregistry, Hclients. unfold SessionRegistry.getSession.
  split; [done|]. split; [apply JsMapFacts.get_set_eq|]. split.
  { eexists. split; [apply lookup_insert_eq|done]. }
  split; [|done]. intros id Hne.
  split; [by apply JsMapFacts.get_set_ne|by apply lookup_insert_ne].
Qed.

(** X19. A [connect] that does not resolve (refused parameters, no
    authentication method, a failed or timed-out handshake, a handshake
    that never ends) registers nothing: the registry, the clients, the
    transfer channels and the default session are as they were. *)
Theorem connect_failure_registers_nothing (env : connect_env)
    (params : ConnectParams) (h : SshToolHandlers.t) :
  (forall result, (connect env params h).1 <> Resolved result) ->
  let h' := (connect env params h).2 in
  registry h' = registry h /\ clients h' = clients h /\
  sftpClients h' = sftpClients h /\
  defaultSessionId h' = defaultSessionId h.
Proof.
  intros Hnot. cbv zeta.
  destruct (connect_outcome env params h)
    as ((Hsftp & Hdefault & _) &
        [(validated & events & _ & Hres & _)|(_ & Hregistry & Hclients)]);
    [by destruct (Hnot _ Hres)|done].
Qed.

Lemma min1_nonempty (path message : string) (s : jsstring) :
  s <> [] -> min1 path message s = [].
Proof.
  intros Hs. unfold min1. destruct (Z.ltb_spec (Js.length s) 1); [|done].
  destruct s; [done|]. unfold Js.length in *. simpl in *. lia.
Qed.

Lemma sanitizeCommand_nonempty (s command : jsstring) :
  sanitizeCommand (Js.VString s) = inr command -> s <> [].
Proof. by intros H ->. Qed.

Lemma getEffectiveSessionId_explicit (id : jsstring) (h : SshToolHandlers.t) :
  id <> [] -> getEffectiveSessionId (Some id) h = (Resolved id, h).
Proof. by destruct id. Qed.

Lemma getEffectiveSessionId_default (session_id : option jsstring)
    (id : jsstring) (h : SshToolHandlers.t) :
  Js.absent session_id = true -> defaultSessionId h = Some id -> id <> [] ->
  getEffectiveSessionId session_id h = (Resolved id, h).
Proof.
  intros Habsent Hdefault Hid. unfold getEffectiveSessionId.
  rewrite Habsent. cbn. unfold mbind, M_bind, read. rewrite Hdefault.
  by destruct id.
Qed.

Lemma getEffectiveSessionId_none (session_id : option jsstring)
    (h : SshToolHandlers.t) :
  Js.absent session_id = true -> Js.absent (defaultSessionId h) = true ->
  getEffectiveSessionId session_id h
  = (Rejected (Error (Js.lit
       "No session_id provided and no default session available. Please connect first or configure server in environment variables.")),
     h).
Proof.
  intros Habsent Hdefault. unfold getEffectiveSessionId.
  rewrite Habsent. cbn. unfold mbind, M_bind, read. by rewrite Hdefault.
Qed.

Lemma touchSession_lookup (id : jsstring) (now : Date) (r : SessionRegistry.t)
    (record : SessionRecord) :
  SessionRegistry.getSession id r = Some record ->
  SessionRegistry.getSession id (SessionRegistry.touchSession id now r)
  = Some (used_at now record) /\
  forall id', id' <> id ->
    SessionRegistry.getSession id' (SessionRegistry.touchSession id now r)
    = SessionRegistry.getSession id' r.
Proof.
  unfold SessionRegistry.touchSession, SessionRegistry.getSession.
  intros ->. split; [apply JsMapFacts.get_set_eq|].
  intros id' Hne. by apply JsMapFacts.get_set_ne.
Qed.

(** X20. For a registered session with a client and a command that
    passes validation, [exec] ends as [execCommand] on the trimmed command
    ends, and the session is marked as used at the instant of the call
    whatever that end is (a rejection or a timeout included), the mark
    being set before the command is sent.  The other sessions, the
    clients, the channels and the default session are as they were. *)
Theorem exec_marks_session_used (now : Date) (answer : exec_reply)
    (id text cleaned : jsstring) (record : SessionRecord)
    (client : SshClient.t) (h : SshToolHandlers.t) :
  id <> [] ->
  SessionRegistry.getSession id (registry h) = Some record ->
  clients h !! id = Some client ->
  sanitizeCommand (Js.VString text) = inr cleaned ->
  let ran :=
    exec now answer
      {| exec_session_id := Some id; command := text; exec_timeout := None |}
      h in
  ran.1 = (SshClient.execCommand answer cleaned client).1 /\
  wire ran.2 = wire h ++ (SshClient.execCommand answer cleaned client).2 /\
  SessionRegistry.getSession id (registry ran.2) = Some (used_at now record) /\
  (forall id', id' <> id ->
     SessionRegistry.getSession id' (registry ran.2)
     = SessionRegistry.getSession id' (registry h)) /\
  clients ran.2 = clients h /\ sftpClients ran.2 = sftpClients h /\
  defaultSessionId ran.2 = defaultSessionId h.
Proof.
  intros Hid Hsession Hclient Hcommand. cbv zeta.
  pose proof (sanitizeCommand_nonempty _ _ Hcommand) as Htext.
  unfold exec, ExecParamsSchema, mbind, M_bind, lift.
  cbn [exec_session_id command exec_timeout].
  rewrite min1_nonempty by done.
  cbn [app opt_in_range parsed of_result exec_session_id command].
  rewrite getEffectiveSessionId_explicit by done.
  unfold read. rewrite Hsession, Hclient, Hcommand. cbn [of_result].
  unfold touch, write.
  destruct (SshClient.execCommand answer cleaned client) as [settled events].
  unfold emit, await, mret, M_ret. cbn [fst snd].
  destruct (touchSession_lookup id now (registry h) record Hsession)
    as [Htouched Hothers].
  destruct settled as [[]| |]; cbn; by repeat split.
Qed.

Lemma opt_in_range_nil (path : string) (lo hi : Z) (n : option Z) :
  opt_in_range path lo hi n = []
  <-> match n with Some n => lo <= n <= hi | None => True end.
Proof. destruct n; simpl; [apply in_range_nil|done]. Qed.

(** X21. The [timeout] parameter of [exec] is checked by the schema and
    then not used: with any two accepted values (or none), [exec] does
    the same and ends the same.  The timeout of the execution is the one
    the session was connected with. *)
Theorem exec_ignores_timeout (now : Date) (answer : exec_reply)
    (session_id : option jsstring) (text : jsstring) (t t' : option Z)
    (h : SshToolHandlers.t) :
  accepted_timeout t -> accepted_timeout t' ->
  exec now answer
    {| exec_session_id := session_id; command := text; exec_timeout := t |} h
  = exec now answer
      {| exec_session_id := session_id; command := text; exec_timeout := t' |}
      h.
Proof.
  intros Ht Ht'. unfold exec, ExecParamsSchema.
  cbn [exec_session_id command exec_timeout].
  rewrite (proj2 (opt_in_range_nil "timeout" 1000 300000 t) Ht).
  rewrite (proj2 (opt_in_range_nil "timeout" 1000 300000 t') Ht').
  rewrite !app_nil_r.
  unfold mbind, M_bind, lift.
  by destruct (min1 _ _ text).
Qed.

(** X22. An [exec] that the schema accepts and that names a session the
    registry does not hold is rejected with "Session not found: " and the
    identifier; one that names no session while there is no default
    session is rejected with the request to connect first.  In both cases
    the fields are as they were, and the command has not been looked
    at. *)
Theorem exec_unknown_session (now : Date) (answer : exec_reply)
    (params : ExecParams) (h : SshToolHandlers.t) :
  ExecParamsSchema params = inr params ->
  (forall id,
     exec_session_id params = Some id -> id <> [] ->
     SessionRegistry.getSession id (registry h) = None ->
     exec now answer params h
     = (Rejected (Error (Js.lit "Session not found: " ++ id)), h)) /\
  (Js.absent (exec_session_id params) = true ->
   Js.absent (defaultSessionId h) = true ->
   exec now answer params h
   = (Rejected (Error (Js.lit
        "No session_id provided and no default session available. Please connect first or configure server in environment variables.")),
      h)).
Proof.
  intros Hparse. unfold exec, mbind, M_bind, lift. rewrite Hparse.
  cbn [of_result]. split.
  - intros id -> Hid Hnone. rewrite getEffectiveSessionId_explicit by done.
    unfold read. by rewrite Hnone.
  - intros Habsent Hdefault.
    by rewrite getEffectiveSessionId_none.
Qed.

(** *** What a [disconnect] does to the fields *)

Lemma disconnect_outcome end_throws closed session_id (id : jsstring)
    (record : SessionRecord) (h : SshToolHandlers.t) :
  getEffectiveSessionId session_id h = (Resolved id, h) ->
  SessionRegistry.getSession id (registry h) = Some record ->
  let ran := disconnect end_throws closed session_id h in
  globalConfig ran.2 = globalConfig h /\
  ((ran.1 = Resolved
      {| disconnect_success := true;
         disconnect_message :=
           Js.lit "Disconnected from " ++ rec_username record ++ Js.lit "@"
           ++ rec_host record ++ Js.lit ":" ++ Js.of_number (rec_port record) |} /\
    registry ran.2 = JsMap.delete (registry h) id /\
    clients ran.2 = delete id (clients h) /\
    sftpClients ran.2 = delete id (sftpClients h) /\
    defaultSessionId ran.2
    = (if bool_decide (defaultSessionId h = Some id) then None
       else defaultSessionId h)) \/
   ((forall result, ran.1 <> Resolved result) /\
    registry ran.2 = registry h /\
    dom (clients ran.2) = dom (clients h) /\
    dom (sftpClients ran.2) ⊆ dom (sftpClients h) /\
    defaultSessionId ran.2 = defaultSessionId h)).
Proof.
  intros Hid Hsession. cbv zeta.
  unfold disconnect, mbind, M_bind. rewrite Hid.
  unfold close_sftp, close_client, mbind, M_bind, read, write, lift, await,
    mret, M_ret, throw, SftpClient.close, SshClient.close.
  rewrite Hsession.
  destruct (sftpClients h !! id) as [sftpClient|] eqn:Hsftp;
    [destruct (SftpClient.sftp sftpClient); [destruct end_throws|]|];
    cbn [of_result fst snd sftpClients clients set_sftpClients emit set_clients
         registry defaultSessionId set_registry globalConfig
         set_defaultSessionId];
    try (match goal with
     | |- context [?m !! id] =>
         destruct (m !! id) as [client|] eqn:Hclient;
           [destruct (negb (SshClient.connected client));
              [|destruct closed]|]
     end);
    cbn [of_result fst snd sftpClients clients set_sftpClients emit set_clients
         registry defaultSessionId set_registry globalConfig
         set_defaultSessionId];
    rewrite ?removeSession_registry;
    try (destruct (bool_decide (defaultSessionId h = Some id)) eqn:Hdefault);
    cbn [of_result fst snd sftpClients clients set_sftpClients emit set_clients
         registry defaultSessionId set_registry globalConfig
         set_defaultSessionId];
    (split; [done|]);
    rewrite ?dom_alter_L;
    rewrite ?delete_alter_eq;
    rewrite ?(delete_id (clients h) id), ?(delete_id (sftpClients h) id)
      by done;
    first [ by left
          | by right; repeat split; try done;
            try (apply subseteq_dom, delete_subseteq) ].
Qed.

Lemma disconnect_unknown end_throws closed session_id (id : jsstring)
    (h : SshToolHandlers.t) :
  getEffectiveSessionId session_id h = (Resolved id, h) ->
  SessionRegistry.getSession id (registry h) = None ->
  disconnect end_throws closed session_id h
  = (Rejected (Error (Js.lit "Session not found: " ++ id)), h).
Proof.
  intros Hid Hnone. unfold disconnect, mbind, M_bind. rewrite Hid.
  unfold read. by rewrite Hnone.
Qed.


(** *** [autoConnect] *)

Lemma autoConnect_outcome (env : connect_env) (h : SshToolHandlers.t) :
  match server (globalConfig h) with
  | None => autoConnect env h = (Resolved None, h)
  | Some preset =>
      let ran := connect env (preset_params (globalConfig h) preset) h in
      autoConnect env h
      = match ran.1 with
        | Resolved result =>
            (Resolved (Some (session_id result)),
             set_defaultSessionId (Some (session_id result)) ran.2)
        | Rejected e =>
            (Rejected (Error (Js.lit "Auto-connect failed: "
                              ++ error_message e)), ran.2)
        | Pending => (Pending, ran.2)
        end
  end.
Proof.
  unfold autoConnect, mbind, M_bind, read, try_catch.
  destruct (server (globalConfig h)) as [preset|]; [|done].
  cbv zeta. fold (preset_params (globalConfig h) preset).
  by destruct (connect env _ h) as [[result|e|] h'].
Qed.

(** X24. Without a preset server [autoConnect] resolves with no
    identifier and changes nothing.  With one, it never resolves without
    an identifier: when it resolves, the identifier is that of the new
    session, which is registered, has its client and is the default
    session from then on; when it is rejected, the message starts with
    "Auto-connect failed: ", and the registry, the clients and the default
    session are as they were. *)
Theorem autoConnect_sets_default (env : connect_env) (h : SshToolHandlers.t) :
  let ran := autoConnect env h in
  (server (globalConfig h) = None -> ran = (Resolved None, h)) /\
  (forall id,
     ran.1 = Resolved (Some id) ->
     id = uuid env /\ defaultSessionId ran.2 = Some id /\
     is_Some (SessionRegistry.getSession id (registry ran.2)) /\
     is_Some (clients ran.2 !! id)) /\
  (forall e,
     ran.1 = Rejected e ->
     (exists cause,
        error_message e = Js.lit "Auto-connect failed: " ++ cause) /\
     defaultSessionId ran.2 = defaultSessionId h /\
     registry ran.2 = registry h /\ clients ran.2 = clients h) /\
  (is_Some (server (globalConfig h)) -> ran.1 <> Resolved None).
Proof.
  cbv zeta. pose proof (autoConnect_outcome env h) as Hauto.
  destruct (server (globalConfig h)) as [preset|]; [|rewrite Hauto].
  2: { split; [done|]. split; [done|]. split; [done|]. by intros [? ?]. }
  cbv zeta in Hauto. rewrite Hauto. clear Hauto.
  set (params := preset_params (globalConfig h) preset).
  split; [done|].
  pose proof (connect_outcome env params h) as ((_ & Hdefault & _) & Hcases).
  cbv zeta in Hcases.
  destruct ((connect env params h).1) as [result|e|] eqn:Hrun; cbn [fst snd].
  - destruct Hcases
      as [(validated & events & _ & Hres & Hregistry & Hclients & _)
         |(Hnot & _)]; [|by destruct (Hnot result)].
    injection Hres as ->. cbn [session_id defaultSessionId
      set_defaultSessionId registry clients].
    split; [|done]. intros id [= <-]. split; [done|]. split; [done|].
    rewrite Hregistry, Hclients. unfold SessionRegistry.getSession.
    rewrite JsMapFacts.get_set_eq, lookup_insert_eq. by split.
  - destruct Hcases as [(? & ? & _ & ? & _)|(_ & Hregistry & Hclients)];
      [done|].
    split; [done|]. split; [|done]. intros ? [= <-]. split; [by eexists|done].
  - by repeat split.
Qed.

(** *** Requests that leave the sessions alone *)

Section Frame.
Context (P : SshToolHandlers.t -> Prop) (P_frame : session_frame P).

Lemma stable_bind {A B} (m : M A) (k : A -> M B) :
  stable P m -> (forall a, stable P (k a)) -> stable P (m ≫= k).
Proof. intros Hm Hk. eapply triple_bind; [exact Hm|exact Hk]. Qed.

Lemma stable_ret {A} (a : A) : stable P (mret a).
Proof. by apply triple_ret. Qed.

Lemma stable_read {A} (f : SshToolHandlers.t -> A) : stable P (read f).
Proof. by apply triple_read. Qed.

Lemma stable_write (f : SshToolHandlers.t -> SshToolHandlers.t) :
  (forall h, P h -> P (f h)) -> stable P (write f).
Proof. intros H. apply triple_write. intros h Hh. split; by apply H. Qed.

Lemma stable_await {A} (settled : outcome A) : stable P (await settled).
Proof. by apply triple_await. Qed.

Lemma stable_throw {A} (e : js_error) : stable P (throw (A := A) e).
Proof. by apply triple_throw. Qed.

Lemma stable_lift {A} (r : result A) : stable P (lift r).
Proof. by apply triple_lift. Qed.

Lemma stable_touch now id : stable P (touch now id).
Proof. apply stable_write. intros h Hh. by apply P_frame. Qed.

Lemma stable_getEffectiveSessionId session_id :
  stable P (getEffectiveSessionId session_id).
Proof.
  unfold getEffectiveSessionId.
  destruct (negb _); [apply stable_ret|].
  apply stable_bind; [apply stable_read|]. intros d.
  destruct (negb _); [apply stable_ret|apply stable_throw].
Qed.

Lemma stable_getSftpClient opened sessionId :
  stable P (getSftpClient opened sessionId).
Proof.
  unfold getSftpClient.
  apply stable_bind; [apply stable_read|]. intros [existing|];
    [apply stable_ret|].
  apply stable_bind; [apply stable_read|]. intros [sshClient|];
    [|apply stable_throw].
  destruct (SftpClient.init _ _) as [[settled sftpClient] events].
  apply stable_bind; [apply stable_write; intros; by apply P_frame|].
  intros _. apply stable_bind; [apply stable_await|]. intros _.
  apply stable_bind; [apply stable_write; intros; by apply P_frame|].
  intros _. apply stable_ret.
Qed.

Lemma stable_with_sftp now opened session_id :
  stable P (with_sftp now opened session_id).
Proof.
  unfold with_sftp.
  apply stable_bind; [apply stable_getEffectiveSessionId|]. intros id.
  apply stable_bind; [apply stable_getSftpClient|]. intros c.
  apply stable_bind; [apply stable_touch|]. intros _. apply stable_ret.
Qed.

Lemma stable_exec now answer params : stable P (exec now answer params).
Proof.
  unfold exec.
  apply stable_bind; [apply stable_lift|]. intros validated.
  apply stable_bind; [apply stable_getEffectiveSessionId|]. intros id.
  apply stable_bind; [apply stable_read|]. intros [session|];
    [|apply stable_throw].
  apply stable_bind; [apply stable_read|]. intros [client|];
    [|apply stable_throw].
  apply stable_bind; [apply stable_lift|]. intros cleaned.
  apply stable_bind; [apply stable_touch|]. intros _.
  destruct (SshClient.execCommand _ _ _) as [settled events].
  apply stable_bind; [apply stable_write; intros; by apply P_frame|].
  intros _. apply stable_bind; [apply stable_await|]. intros result.
  apply stable_ret.
Qed.

Lemma stable_sftp_call {A} now opened session_id (call : SftpClient.t -> M A) :
  (forall c, stable P (call c)) ->
  stable P (sftpClient ← with_sftp now opened session_id; call sftpClient).
Proof. intros. apply stable_bind; [apply stable_with_sftp|done]. Qed.

Lemma stable_serve (r : request) (h : SshToolHandlers.t) :
  session_request r = true -> P h -> P (serve r h).
Proof.
  intros Hr Hh. destruct r; try discriminate; cbn [serve].
  - by apply stable_exec.
  - apply (stable_bind (read _)); [apply stable_read| |done].
    intros sessions. apply stable_ret.
  - apply (stable_bind (lift _)); [apply stable_lift| |done]. intros v.
    apply stable_sftp_call. intros c. apply stable_await.
  - apply (stable_bind (lift _)); [apply stable_lift| |done]. intros v.
    apply stable_sftp_call. intros c. apply stable_await.
  - apply (stable_bind (lift _)); [apply stable_lift| |done]. intros v.
    apply stable_sftp_call. intros c. apply stable_await.
  - apply (stable_bind (lift _)); [apply stable_lift| |done]. intros v.
    apply stable_sftp_call. intros c. apply stable_await.
  - apply (stable_bind (lift _)); [apply stable_lift| |done]. intros v.
    apply stable_sftp_call. intros c. apply stable_await.
  - apply (stable_bind (lift _)); [apply stable_lift| |done]. intros v.
    apply stable_sftp_call. intros c.
    apply stable_bind; [apply stable_await|]. intros stats.
    destruct (negb _); apply stable_await.
  - apply (stable_bind (lift _)); [apply stable_lift| |done]. intros v.
    apply stable_sftp_call. intros c. apply stable_await.
  - apply (stable_bind (lift _)); [apply stable_lift| |done]. intros v.
    apply stable_sftp_call. intros c. apply stable_await.
Qed.

End Frame.

Lemma keys_touchSession (r : SessionRegistry.t) id now :
  JsMap.keys (SessionRegistry.touchSession id now r) = JsMap.keys r.
Proof.
  unfold SessionRegistry.touchSession.
  destruct (JsMap.get r id) eqn:Hget; [|done].
  apply keys_set_present. by rewrite Hget.
Qed.

Lemma same_sessions_frame (h : SshToolHandlers.t) :
  session_frame (same_sessions h).
Proof.
  unfold same_sessions. split; [|split].
  - intros h' now id (? & ? & ? & ?). simpl. by rewrite keys_touchSession.
  - by intros h' events (? & ? & ? & ?).
  - by intros h' channels (? & ? & ? & ?).
Qed.

(** X25. Running a command, listing the sessions and the file
    operations never add or remove a session: whatever their parameters
    and however they end, the clients, the identifiers of the registry
    and their order, the default session and the configuration are as
    they were. *)
Theorem session_requests_keep_sessions (r : request) (h : SshToolHandlers.t) :
  session_request r = true -> same_sessions h (serve r h).
Proof.
  intros Hr. apply (stable_serve _ (same_sessions_frame h)); [done|].
  by repeat split.
Qed.

(** *** The registry and the clients go together *)

Lemma registered_keys (h : SshToolHandlers.t) (id : jsstring) :
  registered h id <-> id ∈ JsMap.keys (registry h).
Proof.
  unfold registered, SessionRegistry.getSession.
  rewrite <- not_eq_None_Some, JsMapFacts.get_None_keys.
  split; [|by intros ? ?]. intros H. by destruct (decide (id ∈ JsMap.keys (registry h))).
Qed.

Lemma has_client_dom (h : SshToolHandlers.t) (id : jsstring) :
  has_client h id <-> id ∈ dom (clients h).
Proof. unfold has_client. by rewrite elem_of_dom. Qed.

Lemma paired_same_sessions (h h' : SshToolHandlers.t) :
  same_sessions h h' -> paired h -> paired h'.
Proof.
  intros (Hclients & Hkeys & _) Hpaired id.
  rewrite registered_keys, Hkeys, <- registered_keys.
  unfold has_client. rewrite Hclients. apply Hpaired.
Qed.

Lemma paired_set_delete (h h' : SshToolHandlers.t) (id : jsstring) :
  paired h ->
  registry h' = JsMap.delete (registry h) id ->
  clients h' = delete id (clients h) ->
  paired h'.
Proof.
  intros Hpaired Hregistry Hclients id'. specialize (Hpaired id').
  unfold has_client, registered, SessionRegistry.getSession in *.
  rewrite Hregistry, Hclients.
  destruct (decide (id = id')) as [->|Hne].
  - rewrite lookup_delete_eq, JsMapFacts.get_delete_eq. done.
  - by rewrite lookup_delete_ne, JsMapFacts.get_delete_ne.
Qed.

Lemma paired_same_keys (h h' : SshToolHandlers.t) :
  paired h -> registry h' = registry h -> dom (clients h') = dom (clients h) ->
  paired h'.
Proof.
  intros Hpaired Hregistry Hdom id.
  rewrite has_client_dom, Hdom, <- has_client_dom.
  unfold registered. rewrite Hregistry. apply Hpaired.
Qed.

Lemma paired_connect env params (h : SshToolHandlers.t) :
  paired h -> paired (connect env params h).2.
Proof.
  intros Hpaired.
  destruct (connect_outcome env params h)
    as (_ & [(validated & events & _ & _ & Hregistry & Hclients & _)
            |(_ & Hregistry & Hclients)]).
  - intros id. specialize (Hpaired id).
    unfold has_client, registered, SessionRegistry.getSession in *.
    rewrite Hregistry, Hclients.
    destruct (decide (uuid env = id)) as [->|Hne].
    + rewrite lookup_insert_eq, JsMapFacts.get_set_eq. by split.
    + by rewrite lookup_insert_ne, JsMapFacts.get_set_ne.
  - apply (paired_same_keys h); [done|done|by rewrite Hclients].
Qed.

Lemma paired_autoConnect env (h : SshToolHandlers.t) :
  paired h -> paired (autoConnect env h).2.
Proof.
  intros Hpaired. pose proof (autoConnect_outcome env h) as Hauto.
  destruct (server (globalConfig h)) as [preset|]; [|by rewrite Hauto].
  cbv zeta in Hauto. rewrite Hauto.
  pose proof (paired_connect env (preset_params (globalConfig h) preset) h
                Hpaired) as Hconnect.
  by destruct (connect env _ h) as [[result|e|] h'].
Qed.

Lemma paired_disconnect end_throws closed session_id (h : SshToolHandlers.t) :
  paired h -> paired (disconnect end_throws closed session_id h).2.
Proof.
  intros Hpaired.
  destruct (getEffectiveSessionId_reads session_id h) as [[id Hid]|[e Hid]].
  2: { unfold disconnect, mbind, M_bind. by rewrite Hid. }
  destruct (SessionRegistry.getSession id (registry h)) as [record|] eqn:Hsession.
  2: { by rewrite (disconnect_unknown _ _ _ id h Hid Hsession). }
  destruct (disconnect_outcome end_throws closed session_id id record h
              Hid Hsession)
    as (_ & [(_ & Hregistry & Hclients & _)|(_ & Hregistry & Hdom & _)]).
  - by apply (paired_set_delete h _ id).
  - by apply (paired_same_keys h).
Qed.

Lemma cleanup_session_outcome end_throws closed session
    (h : SshToolHandlers.t) :
  let id := info_sessionId session in
  let ran := cleanup_session end_throws closed session h in
  (ran.1 = Resolved tt /\
   registry ran.2 = JsMap.delete (registry h) id /\
   clients ran.2 = delete id (clients h)) \/
  (ran.1 = Pending /\ registry ran.2 = registry h /\
   dom (clients ran.2) = dom (clients h)).
Proof.
  cbv zeta.
  unfold cleanup_session, close_sftp, close_client, try_ignore, try_catch,
    mbind, M_bind, read, write, lift, await, mret, M_ret,
    SftpClient.close, SshClient.close.
  set (id := info_sessionId session).
  destruct (sftpClients h !! id) as [sftpClient|];
    [destruct (SftpClient.sftp sftpClient); [destruct (end_throws id)|]|];
    cbn [of_result fst snd sftpClients clients set_sftpClients emit set_clients
         registry defaultSessionId set_registry];
    (match goal with
     | |- context [?m !! id] =>
         destruct (m !! id) as [client|] eqn:Hclient;
           [destruct (negb (SshClient.connected client));
              [|destruct (closed id)]|]
     end);
    cbn [of_result fst snd sftpClients clients set_sftpClients emit set_clients
         registry defaultSessionId set_registry];
    rewrite ?removeSession_registry, ?dom_alter_L, ?delete_alter_eq;
    rewrite ?(delete_id (clients h) id) by done;
    auto.
Qed.

Lemma paired_cleanup_session end_throws closed session (h : SshToolHandlers.t) :
  paired h -> paired (cleanup_session end_throws closed session h).2.
Proof.
  intros Hpaired.
  destruct (cleanup_session_outcome end_throws closed session h)
    as [(_ & Hregistry & Hclients)|(_ & Hregistry & Hdom)].
  - by apply (paired_set_delete h _ (info_sessionId session)).
  - by apply (paired_same_keys h).
Qed.

Lemma paired_for_of end_throws closed sessions (h : SshToolHandlers.t) :
  paired h -> paired (for_of sessions (cleanup_session end_throws closed) h).2.
Proof.
  revert h. induction sessions as [|session sessions IH]; intros h Hpaired;
    [done|].
  cbn [for_of]. unfold mbind, M_bind.
  pose proof (paired_cleanup_session end_throws closed session h Hpaired).
  destruct (cleanup_session _ _ _ h) as [[[]|e|] h1]; cbn [fst snd] in *;
    try done.
  by apply IH.
Qed.

Lemma paired_cleanup end_throws closed (h : SshToolHandlers.t) :
  paired h -> paired (cleanup end_throws closed h).2.
Proof.
  intros Hpaired. unfold cleanup, mbind, M_bind, read, write.
  pose proof (paired_for_of end_throws closed
                (SessionRegistry.listSessions (registry h)) h Hpaired).
  by destruct (for_of _ _ h) as [[[]|e|] h1].
Qed.

Lemma paired_frame : session_frame paired.
Proof.
  split; [|split].
  - intros h now id Hpaired. apply (paired_same_sessions h); [|done].
    repeat split. simpl. apply keys_touchSession.
  - intros h events Hpaired. by apply (paired_same_sessions h).
  - intros h channels Hpaired. by apply (paired_same_sessions h).
Qed.

Lemma paired_serve (r : request) (h : SshToolHandlers.t) :
  paired h -> paired (serve r h).
Proof.
  intros Hpaired.
  destruct (session_request r) eqn:Hr;
    [by apply (stable_serve _ paired_frame)|].
  destruct r; try discriminate; cbn [serve].
  - by apply paired_connect.
  - by apply paired_autoConnect.
  - by apply paired_disconnect.
  - by apply paired_cleanup.
Qed.

Lemma paired_after (config : GlobalConfig) (requests : list request) :
  paired (after config requests).
Proof.
  unfold after.
  assert (paired (SshToolHandlers.new config)) as Hnew.
  { intros id. unfold has_client, registered. simpl.
    rewrite lookup_empty. split; by intros [? ?]. }
  revert Hnew. generalize (SshToolHandlers.new config).
  induction requests as [|r requests IH]; intros h Hpaired; simpl; [done|].
  by apply IH, paired_serve.
Qed.

End Sessions.

Section Defaults.
Import SshToolHandlers.
Local Arguments Js.lit : simpl never.
Local Arguments Js.of_number : simpl never.

Lemma getEffectiveSessionId_omitted (session_id : option jsstring)
    (id : jsstring) (h : SshToolHandlers.t) :
  Js.absent session_id = true -> defaultSessionId h = Some id -> id <> [] ->
  getEffectiveSessionId session_id h = getEffectiveSessionId (Some id) h.
Proof.
  intros. rewrite (getEffectiveSessionId_default session_id id) by done.
  by rewrite getEffectiveSessionId_explicit.
Qed.

(** X28. A request that names no session (or names the empty string)
    is served as if it named the default session: [exec], [disconnect],
    and the file operations do the same and end the same. *)
Theorem omitted_session_is_default (session_id : option jsstring)
    (id : jsstring) (h : SshToolHandlers.t) :
  Js.absent session_id = true ->
  defaultSessionId h = Some id -> id <> [] ->
  (forall now answer text t,
     exec now answer
       {| exec_session_id := session_id; command := text; exec_timeout := t |} h
     = exec now answer
         {| exec_session_id := Some id; command := text; exec_timeout := t |}
         h) /\
  (forall end_throws closed,
     disconnect end_throws closed session_id h
     = disconnect end_throws closed (Some id) h) /\
  (forall now opened localeCompare readdir path,
     sftpList now opened localeCompare readdir
       {| list_session_id := session_id; path := path |} h
     = sftpList now opened localeCompare readdir
         {| list_session_id := Some id; path := path |} h) /\
  (forall now opened srv first second,
     sftpRead now opened srv
       {| sftp_session_id := session_id; first := first; second := second |} h
     = sftpRead now opened srv
         {| sftp_session_id := Some id; first := first; second := second |} h /\
     sftpWrite now opened srv
       {| sftp_session_id := session_id; first := first; second := second |} h
     = sftpWrite now opened srv
         {| sftp_session_id := Some id; first := first; second := second |} h).
Proof.
  intros Habsent Hdefault Hid.
  pose proof (getEffectiveSessionId_omitted session_id id h Habsent Hdefault
                Hid) as Heff.
  split; [|split; [|split]].
  - intros now answer text t. unfold exec, ExecParamsSchema, mbind, M_bind, lift.
    cbn [exec_session_id command exec_timeout].
    destruct (_ ++ _); cbn [parsed of_result exec_session_id command];
      [|done].
    by rewrite Heff.
  - intros end_throws closed. unfold disconnect, mbind, M_bind.
    by rewrite Heff.
  - intros now opened localeCompare readdir dir.
    unfold sftpList, SftpListParamsSchema, with_sftp, mbind, M_bind, lift.
    cbn [parsed of_result list_session_id path]. by rewrite Heff.
  - intros now opened srv one other.
    unfold sftpRead, sftpWrite, SftpPathParamsSchema, with_sftp, mbind,
      M_bind, lift.
    cbn [sftp_session_id first second].
    destruct (min1 _ _ one);
      cbn [parsed of_result sftp_session_id first second];
      [|done].
    by rewrite Heff.
Qed.





(** X30. For a preset server whose parameters the schema of [connect]
    accepts, [validateServerConfig] and [connect] agree on the
    authentication method: the validation finds nothing missing exactly
    when [connect] does not refuse the preset for want of one. *)
Theorem preset_validation_matches_connect (env : connect_env)
    (config : GlobalConfig) (preset : ServerConfig)
    (validated : ConnectParams) (h : SshToolHandlers.t) :
  ConnectParamsSchema (preset_params config preset) = inr validated ->
  validateServerConfig preset = None
  <-> (connect env (preset_params config preset) h).1
      <> Rejected (Error (Js.lit
           "At least one authentication method is required (password, private_key, or private_key_path)")).
Proof.
  intros Hparse.
  pose proof Hparse as [Hissues ->]%parsed_inr.
  apply app_eq_nil in Hissues as [Hhost Hissues].
  apply app_eq_nil in Hissues as [_ Hissues].
  apply app_eq_nil in Hissues as [Huser _].
  unfold validateServerConfig, connect, mbind, M_bind, lift.
  rewrite Hparse. cbn [of_result password private_key private_key_path host
    username preset_params] in *.
  unfold min1 in Hhost, Huser.
  destruct (server_host preset) as [|c host]; [done|].
  destruct (server_username preset) as [|c' user]; [done|].
  cbn [Js.falsy].
  destruct (Js.absent (server_password preset)
            && Js.absent (server_privateKey preset)
            && Js.absent (server_privateKeyPath preset)).
  - split; [done|]. intros Hnot. by destruct Hnot.
  - split; [|done]. intros _.
    destruct (SshClient.connect _ _ _) as [[settled client] events].
    unfold write, emit, throw, await, mret, M_ret.
    by destruct settled as [[]|e|].
Qed.

End Defaults.

(** X26. After any sequence of requests served one after the other, a
    session identifier has a client in [clients] exactly when it has a
    record in the registry: a registered session is never without its
    client, and no client outlives its session's record. *)
Theorem sessions_have_clients (config : GlobalConfig)
    (requests : list request) (id : jsstring) :
  is_Some (SshToolHandlers.clients (after config requests) !! id)
  <-> is_Some (SessionRegistry.getSession id
                 (SshToolHandlers.registry (after config requests))).
Proof. apply paired_after. Qed.

(** X27. When [cleanup] returns, after any sequence of requests, no
    client and no transfer channel is left in the handler. *)
Theorem cleanup_releases_clients (config : GlobalConfig)
    (requests : list request) (end_throws : jsstring -> option js_error)
    (closed : jsstring -> close_reply) :
  let ran :=
    SshToolHandlers.cleanup end_throws closed (after config requests) in
  ran.1 = Resolved tt ->
  SshToolHandlers.clients ran.2 = ∅ /\
  SshToolHandlers.sftpClients ran.2 = ∅.
Proof.
  cbv zeta. intros Hrun.
  pose proof (in_step_after config requests) as Hstep.
  pose proof (cleanup_spec end_throws closed (after config requests)
                (proj2 Hstep)) as Hspec.
  pose proof (paired_cleanup end_throws closed _
                (paired_after config requests)) as Hpaired.
  pose proof (keeps_cleanup end_throws closed _ Hstep) as [[Hdom _] _].
  destruct (SshToolHandlers.cleanup _ _ _) as [o h']. cbn [fst snd] in *.
  subst o. destruct Hspec as [Hregistry _].
  assert (SshToolHandlers.clients h' = ∅) as Hclients.
  { apply map_empty. intros id. apply eq_None_not_Some.
    intros Hsome. apply Hpaired in Hsome.
    unfold registered in Hsome. rewrite Hregistry in Hsome.
    by destruct Hsome. }
  split; [done|].
  apply dom_empty_inv_L. rewrite Hclients, dom_empty_L in Hdom.
  by apply elem_of_equiv_empty_L; intros x ?%Hdom%elem_of_empty.
Qed.

(** *** The properties at the endpoint of the tests *)

Section AtTheTests.
Import SshToolHandlers.

Lemma connect_registers_witness :
  let params := test_params (Some (Js.lit "testpass")) None in
  SessionRegistry.getSession (uuid test_env) (registry connected_once)
  = Some (connected_record test_env params) /\
  (exists client,
     clients connected_once !! uuid test_env = Some client /\
     SshClient.isConnected client = true /\
     SshClient.getClient client = new_client test_env).
Proof.
  pose proof (connect_registers test_env
                (test_params (Some (Js.lit "testpass")) None) fresh
                {| session_id := uuid test_env;
                   connect_message :=
                     Js.lit "Connected to testuser@127.0.0.1:2222" |}
                eq_refl) as (_ & Hrecord & Hclient & _).
  exact (conj Hrecord Hclient).
Defined.

Lemma connect_failure_registers_nothing_witness :
  let refused :=
    (connect test_env (test_params (Some (Js.lit "wrongpassword")) None)
       fresh).2 in
  registry refused = registry fresh /\ clients refused = clients fresh /\
  sftpClients refused = sftpClients fresh /\
  defaultSessionId refused = defaultSessionId fresh.
Proof.
  apply (connect_failure_registers_nothing test_env
           (test_params (Some (Js.lit "wrongpassword")) None) fresh).
  intros result H. vm_compute in H. discriminate H.
Defined.

Lemma exec_marks_session_used_witness :
  let ran :=
    exec 1768694460000 (ExecChannel [Timer])
      {| exec_session_id := Some (uuid test_env);
         command := Js.lit " sleep 60 "; exec_timeout := None |}
      connected_once in
  ran.1 = Rejected (Error (Js.lit "Command execution timeout after 30000ms")) /\
  lastUsedAt <$> SessionRegistry.getSession (uuid test_env) (registry ran.2)
  = Some (Some 1768694460000).
Proof.
  pose proof (exec_marks_session_used 1768694460000 (ExecChannel [Timer])
                (uuid test_env) (Js.lit " sleep 60 ") (Js.lit "sleep 60")
                (connected_record test_env
                   (test_params (Some (Js.lit "testpass")) None))
                (SshClient.set_connected true
                   (SshClient.new 1
                      (clientConfig
                         (test_params (Some (Js.lit "testpass")) None))))
                connected_once
                ltac:(vm_compute; discriminate) eq_refl eq_refl eq_refl)
    as (Hran & _ & Hused & _).
  cbv zeta. split; [exact Hran|]. by rewrite Hused.
Defined.

Lemma exec_ignores_timeout_witness :
  exec 1768694460000 (ExecChannel [Close])
    {| exec_session_id := None; command := Js.lit "ls";
       exec_timeout := Some 1000 |} auto_connected
  = exec 1768694460000 (ExecChannel [Close])
      {| exec_session_id := None; command := Js.lit "ls";
         exec_timeout := Some 300000 |} auto_connected.
Proof.
  apply exec_ignores_timeout; simpl; lia.
Defined.

Lemma exec_unknown_session_witness :
  exec 1768694460000 (ExecChannel [Close])
    {| exec_session_id := Some (Js.lit "no-such-session");
       command := Js.lit "ls"; exec_timeout := None |} connected_once
  = (Rejected (Error (Js.lit "Session not found: no-such-session")),
     connected_once).
Proof.
  exact (proj1 (exec_unknown_session 1768694460000 (ExecChannel [Close])
                  {| exec_session_id := Some (Js.lit "no-such-session");
                     command := Js.lit "ls"; exec_timeout := None |}
                  connected_once eq_refl)
           (Js.lit "no-such-session") eq_refl ltac:(vm_compute; discriminate)
           eq_refl).
Defined.


Lemma session_requests_keep_sessions_witness :
  same_sessions connected_once
    (serve (Exec 1768694460000 (ExecChannel [Close])
              {| exec_session_id := Some (uuid test_env);
                 command := Js.lit "ls"; exec_timeout := None |})
       connected_once).
Proof.
  exact (session_requests_keep_sessions
           (Exec 1768694460000 (ExecChannel [Close])
              {| exec_session_id := Some (uuid test_env);
                 command := Js.lit "ls"; exec_timeout := None |})
           connected_once eq_refl).
Defined.

Lemma omitted_session_is_default_witness :
  exec 1768694460000 (ExecChannel [Close])
    {| exec_session_id := None; command := Js.lit "ls"; exec_timeout := None |}
    auto_connected
  = exec 1768694460000 (ExecChannel [Close])
      {| exec_session_id := Some (uuid test_env); command := Js.lit "ls";
         exec_timeout := None |} auto_connected.
Proof.
  exact (proj1 (omitted_session_is_default None (uuid test_env) auto_connected
                  eq_refl eq_refl ltac:(vm_compute; discriminate))
           1768694460000 (ExecChannel [Close]) (Js.lit "ls") None).
Defined.


Lemma preset_validation_matches_connect_witness :
  let preset :=
    {| server_host := Js.lit "127.0.0.1"; server_port := 2222;
       server_username := Js.lit "testuser";
       server_password := Some (Js.lit "testpass");
       server_privateKey := None; server_privateKeyPath := None;
       server_passphrase := None |} in
  validateServerConfig preset = None
  <-> (connect test_env (preset_params preset_config preset) fresh).1
      <> Rejected (Error (Js.lit
           "At least one authentication method is required (password, private_key, or private_key_path)")).
Proof.
  exact (preset_validation_matches_connect test_env preset_config
           {| server_host := Js.lit "127.0.0.1"; server_port := 2222;
              server_username := Js.lit "testuser";
              server_password := Some (Js.lit "testpass");
              server_privateKey := None; server_privateKeyPath := None;
              server_passphrase := None |}
           (preset_params preset_config
              {| server_host := Js.lit "127.0.0.1"; server_port := 2222;
                 server_username := Js.lit "testuser";
                 server_password := Some (Js.lit "testpass");
                 server_privateKey := None; server_privateKeyPath := None;
                 server_passphrase := None |})
           fresh eq_refl).
Defined.

End AtTheTests.

Lemma cleanup_releases_clients_witness :
  let h := after {| server := None; global_timeout := None;
                    global_connectTimeout := None |} two_sessions in
  let ran := SshToolHandlers.cleanup first_close_throws first_end_throws h in
  SshToolHandlers.clients ran.2 = ∅ /\ SshToolHandlers.sftpClients ran.2 = ∅.
Proof.
  exact (cleanup_releases_clients
           {| server := None; global_timeout := None;
              global_connectTimeout := None |}
           two_sessions first_close_throws first_end_throws
           (@eq_refl _ (Resolved tt)
            <: (SshToolHandlers.cleanup first_close_throws first_end_throws
                  (after {| server := None; global_timeout := None;
                            global_connectTimeout := None |} two_sessions)).1
               = Resolved tt)).
Defined.

